(** * Saffron: parser, structural type checker and task scheduler

    A shallow embedding of [src/ast/astparse.c], [src/types.c] and
    [src/libc/async.c], together with the properties of those three
    components that the design document states.

    Conventions of the embedding.
    - A C pointer that may be [NULL] is an [option]; an array of such
      pointers is a [list] of options.
    - A C function that reads or writes global state is a function of
      the state in the [Run] monad below.  A run either returns, or
      faults (a null operand is dereferenced, an integer is divided by
      zero), or needs more unfoldings than the fuel given ([None]).
    - The scanner, the allocator and the clock are collaborators whose
      sources are outside this development; the parser state carries the
      token sequence the scanner will yield. *)

From Stdlib Require Import List String Ascii Bool Arith ZArith QArith Lia Permutation.
From Stdlib Require DecimalString.
Import ListNotations.
Close Scope Q_scope.
Open Scope nat_scope.
Open Scope string_scope.
Open Scope list_scope.

Set Implicit Arguments.

(** ** Runs of stateful, possibly faulting, possibly diverging code *)

Inductive Outcome (S A : Type) : Type :=
| Returns (a : A) (s : S)
| Faults (s : S).

Arguments Returns {S A} a s.
Arguments Faults {S A} s.

Definition Run (S A : Type) : Type := S -> option (Outcome S A).

Definition ret {S A} (a : A) : Run S A := fun s => Some (Returns a s).

Definition bind {S A B} (m : Run S A) (k : A -> Run S B) : Run S B :=
  fun s =>
    match m s with
    | Some (Returns a s') => k a s'
    | Some (Faults s') => Some (Faults s')
    | None => None
    end.

Definition fault {S A} : Run S A := fun s => Some (Faults s).
Definition out_of_fuel {S A} : Run S A := fun _ => None.
Definition get_state {S} : Run S S := fun s => Some (Returns s s).
Definition modify {S} (f : S -> S) : Run S unit := fun s => Some (Returns tt (f s)).

Declare Scope run_scope.
Delimit Scope run_scope with run.
Notation "x <- m ;; k" := (bind m (fun x => k))
  (at level 61, m at next level, right associativity) : run_scope.
Notation "m ;; k" := (bind m (fun _ => k))
  (at level 61, right associativity) : run_scope.
Notation "' pat <- m ;; k" := (bind m (fun x => match x with pat => k end))
  (at level 61, pat pattern, m at next level, right associativity) : run_scope.
Open Scope run_scope.

(** The state reached by a run, whether it returned or faulted. *)
Definition final_state {S A} (o : Outcome S A) : S :=
  match o with Returns _ s => s | Faults s => s end.

(** What a run returned, if it returned, and the state it ended in. *)
Definition returned {S A} (r : option (Outcome S A)) : option A :=
  match r with Some (Returns a _) => Some a | _ => None end.

Definition ended_in {S A} (r : option (Outcome S A)) : option S :=
  option_map final_state r.

(** [Preserves J m]: every run of [m] that ends, ends in a state
    satisfying [J] when it started in one. *)
Definition Preserves {S A} (J : S -> Prop) (m : Run S A) : Prop :=
  forall s, J s ->
    match m s with
    | Some o => J (final_state o)
    | None => True
    end.


(** [Ends P m Q]: started in a state satisfying [P], the run of [m]
    ends whatever the fuel it was written with: it returns a value and a
    state satisfying [Q], or it faults. *)
Definition Ends {S A} (P : S -> Prop) (m : Run S A) (Q : A -> S -> Prop) : Prop :=
  forall s, P s ->
    match m s with
    | Some (Returns a s') => Q a s'
    | Some (Faults _) => True
    | None => False
    end.

(** [Refines m m']: whatever [m] answers, [m'] answers too ([m'] may
    answer where [m] runs out of fuel). *)
Definition Refines {S A} (m m' : Run S A) : Prop :=
  forall s r, m s = Some r -> m' s = Some r.

(** ** Tokens (the scanner's interface) *)

Inductive TokenType : Type :=
| TOKEN_LEFT_PAREN | TOKEN_RIGHT_PAREN | TOKEN_LEFT_BRACE | TOKEN_RIGHT_BRACE
| TOKEN_LEFT_BRACKET | TOKEN_RIGHT_BRACKET | TOKEN_PIPE | TOKEN_COMMA
| TOKEN_DOT | TOKEN_MINUS | TOKEN_PLUS | TOKEN_MODULO | TOKEN_SEMICOLON
| TOKEN_SLASH | TOKEN_STAR | TOKEN_BANG | TOKEN_BANG_EQUAL | TOKEN_EQUAL
| TOKEN_EQUAL_EQUAL | TOKEN_GREATER | TOKEN_GREATER_EQUAL | TOKEN_LESS
| TOKEN_LESS_EQUAL | TOKEN_IDENTIFIER | TOKEN_ATOM | TOKEN_STRING
| TOKEN_NUMBER | TOKEN_AND | TOKEN_CLASS | TOKEN_ELSE | TOKEN_FALSE
| TOKEN_FOR | TOKEN_FUN | TOKEN_IF | TOKEN_NIL | TOKEN_OR | TOKEN_RETURN
| TOKEN_SUPER | TOKEN_THIS | TOKEN_TRUE | TOKEN_VAR | TOKEN_WHILE
| TOKEN_YIELD | TOKEN_AWAIT | TOKEN_ERROR | TOKEN_EOF
| TOKEN_COLON | TOKEN_ARROW | TOKEN_EXTENDS | TOKEN_BITWISE_OR
| TOKEN_IMPORT | TOKEN_AS | TOKEN_INTERFACE | TOKEN_TYPE.

Definition TokenType_eq_dec (a b : TokenType) : {a = b} + {a <> b}.
Proof. decide equality. Defined.

Definition tt_eqb (a b : TokenType) : bool :=
  if TokenType_eq_dec a b then true else false.


Record Token : Type := mkToken {
  type : TokenType;
  lexeme : string;      (* start, length *)
  line : nat
}.

(** Storage that was allocated and never assigned reads as zero. *)
Definition zeroToken : Token := mkToken TOKEN_LEFT_PAREN "" 0.

(** Literal values, as far as the parser and the checker look at them. *)
Inductive Obj : Type :=
| OBJ_STRING (chars : string)
| OBJ_ATOM (chars : string).

Inductive Value : Type :=
| NIL_VAL
| BOOL_VAL (b : bool)
| NUMBER_VAL (n : Q)
| OBJ_VAL (o : Obj).

Inductive FunctionType : Type :=
| TYPE_FUNCTION | TYPE_INITIALIZER | TYPE_METHOD | TYPE_SCRIPT.

Inductive AssignmentType : Type := TYPE_VARIABLE | TYPE_FIELD.

(** ** The syntax tree

    One constructor per [NodeType] tag.  The C code moves between
    [Expr*], [Stmt*] and [TypeNode*] by casts, so the embedding has one
    type of nodes; the fields are those the parser assigns and the
    checker reads. *)

#[local] Unset Elimination Schemes.
Inductive Node : Type :=
| NODE_LITERAL (value : Value)
| NODE_UNARY (operator : Token) (right : option Node)
| NODE_BINARY (left : option Node) (operator : Token) (right : option Node)
| NODE_GROUPING (expression : option Node)
| NODE_VARIABLE (name : Token)
| NODE_ASSIGN (name : Token) (value : option Node)
| NODE_LOGICAL (left : option Node) (operator : Token) (right : option Node)
| NODE_CALL (callee : option Node) (paren : Token) (arguments : list (option Node))
| NODE_GETITEM (object index : option Node)
| NODE_GET (object : option Node) (name : Token)
| NODE_SET (object : option Node) (name : Token) (value : option Node)
| NODE_SUPER (keyword method : Token)
| NODE_THIS
| NODE_YIELD (expression : option Node)
| NODE_LAMBDA (params : list Node) (body : list (option Node))
              (generics : list (option Node)) (signature : option Node)
| NODE_LIST (bracket : Token) (items : list (option Node))
| NODE_MAP (brace : Token) (keys values : list (option Node))
| NODE_EXPRESSION (lineno : nat) (expression : option Node)
| NODE_VAR (name : Token) (annotation : option Node) (initializer : option Node)
           (assignmentType : AssignmentType)
| NODE_BLOCK (statements : list (option Node))
| NODE_FUNCTION (name : Token) (functionType : FunctionType) (params : list Node)
                (returnType : option Node) (generics : list (option Node))
                (body : list (option Node))
| NODE_CLASS (name : Token) (superclass : option Node)
             (generics : list (option Node)) (body : list (option Node))
| NODE_INTERFACE (name : Token) (superType : option Node)
                 (generics : list (option Node)) (body : list (option Node))
| NODE_METHODSIG (name : Token) (functionType : FunctionType) (params : list Node)
                 (returnType : option Node) (generics : list (option Node))
| NODE_IF (condition thenBranch elseBranch : option Node)
| NODE_WHILE (condition body : option Node)
| NODE_FOR (initializer condition increment body : option Node)
| NODE_BREAK
| NODE_RETURN (keyword : Token) (value : option Node)
| NODE_IMPORT (expression : option Node) (name : Token)
| NODE_FUNCTOR (arguments : list (option Node)) (returnType : option Node)
               (generics : list (option Node))
| NODE_SIMPLE (name : Token) (generics : list (option Node))
| NODE_UNION (left right : option Node)
| NODE_TYPEDECLARATION (name : Token) (generics : list (option Node))
                       (target : option Node)
| NODE_POSITIONAL (name : Token) (annotation : option Node)
| NODE_ENUM
| NODE_ENUMITEM.
#[local] Set Elimination Schemes.

(** ** Small library functions the sources rely on *)

(** Modelled from the spec: [writeExprArray], [writeStmtArray] and
    [writeValueArray] (their sources are with the syntax tree and the
    values) append one element; the design document has new entries
    go to the tail. *)
Definition writeArray {A} (array : list A) (x : A) : list A := array ++ [x].

(** [array[i] = v] for [i] inside the array. *)
Fixpoint array_set {A} (i : nat) (v : A) (array : list A) : list A :=
  match array, i with
  | [], _ => []
  | _ :: rest, O => v :: rest
  | x :: rest, S i' => x :: array_set i' v rest
  end.

(** [strtod] on the lexeme of a number token: digits, then optionally a
    point and more digits. *)
Definition digit_of (c : ascii) : option Z :=
  let n := nat_of_ascii c in
  if andb (48 <=? n)%nat (n <=? 57)%nat then Some (Z.of_nat (n - 48)) else None.

Fixpoint strtod_frac (s : string) (num : Z) (den : positive) : Q :=
  match s with
  | EmptyString => num # den
  | String c rest =>
      match digit_of c with
      | Some d => strtod_frac rest (num * 10 + d)%Z (den * 10)%positive
      | None => num # den
      end
  end.

Fixpoint strtod_int (s : string) (acc : Z) : Q :=
  match s with
  | EmptyString => acc # 1
  | String c rest =>
      match digit_of c with
      | Some d => strtod_int rest (acc * 10 + d)%Z
      | None => if Ascii.eqb c "."%char then strtod_frac rest acc 1 else acc # 1
      end
  end.

Definition strtod (s : string) : Q := strtod_int s 0%Z.

(** * The parser ([src/ast/astparse.c]) *)

Module Parser.

Definition Precedence : Type := nat.
Definition PREC_NONE : Precedence := 0.
Definition PREC_ASSIGNMENT : Precedence := 1.
Definition PREC_YIELD : Precedence := 2.
Definition PREC_OR : Precedence := 3.
Definition PREC_AND : Precedence := 4.
Definition PREC_EQUALITY : Precedence := 5.
Definition PREC_COMPARISON : Precedence := 6.
Definition PREC_TERM : Precedence := 7.
Definition PREC_FACTOR : Precedence := 8.
Definition PREC_UNARY : Precedence := 9.
Definition PREC_CALL : Precedence := 10.
Definition PREC_PRIMARY : Precedence := 11.

(** What [errorAt] writes to standard error:
    [[line N] Error], then [ at end], nothing, or [ at '<lexeme>'],
    then [: <message>]. *)
Inductive Location : Type :=
| AtEnd
| AtNothing
| AtLexeme (text : string).

Record Diagnostic : Type := mkDiagnostic {
  d_line : nat;
  d_location : Location;
  d_message : string
}.

(** The global [parser], the scanner's pending tokens and what has been
    printed so far. *)
Record Parser : Type := mkParser {
  current : Token;
  previous : Token;
  hadError : bool;
  panicMode : bool;
  source : list Token;
  stderr : list Diagnostic
}.

Definition M (A : Type) : Type := Run Parser A.

Definition set_current (t : Token) (p : Parser) : Parser :=
  mkParser t (previous p) (hadError p) (panicMode p) (source p) (stderr p).
Definition set_previous (t : Token) (p : Parser) : Parser :=
  mkParser (current p) t (hadError p) (panicMode p) (source p) (stderr p).
Definition set_source (l : list Token) (p : Parser) : Parser :=
  mkParser (current p) (previous p) (hadError p) (panicMode p) l (stderr p).
Definition set_panicMode (b : bool) (p : Parser) : Parser :=
  mkParser (current p) (previous p) (hadError p) b (source p) (stderr p).
Definition set_hadError (b : bool) (p : Parser) : Parser :=
  mkParser (current p) (previous p) b (panicMode p) (source p) (stderr p).
Definition print (d : Diagnostic) (p : Parser) : Parser :=
  mkParser (current p) (previous p) (hadError p) (panicMode p) (source p)
           (stderr p ++ [d]).

Definition location_of (token : Token) : Location :=
  match type token with
  | TOKEN_EOF => AtEnd
  | TOKEN_ERROR => AtNothing
  | _ => AtLexeme (lexeme token)
  end.

Definition errorAt_state (token : Token) (message : string) (p : Parser) : Parser :=
  if panicMode p then p
  else set_hadError true
         (print (mkDiagnostic (line token) (location_of token) message)
                (set_panicMode true p)).

Definition errorAt (token : Token) (message : string) : M unit :=
  modify (errorAt_state token message).

Definition error (message : string) : M unit :=
  p <- get_state ;; errorAt (previous p) message.

Definition errorAtCurrent (message : string) : M unit :=
  p <- get_state ;; errorAt (current p) message.

(** Modelled from the spec: the scanner is consumed through
    [scanToken() -> Token]; it hands out the pending tokens in order and
    end-of-file tokens after them, and a token of kind [TOKEN_ERROR]
    carries its message in its lexeme. *)
Definition eofToken : Token := mkToken TOKEN_EOF "" 0.

Fixpoint scanLoop (pending : list Token) (p : Parser) : Parser :=
  match pending with
  | [] => set_source [] (set_current eofToken p)
  | t :: rest =>
      let p1 := set_current t p in
      if tt_eqb (type t) TOKEN_ERROR
      then scanLoop rest (errorAt_state t (lexeme t) p1)
      else set_source rest p1
  end.

Definition advance : M unit :=
  modify (fun p => scanLoop (source p) (set_previous (current p) p)).

Definition check (t : TokenType) : M bool :=
  p <- get_state ;; ret (tt_eqb (type (current p)) t).

Definition consume (t : TokenType) (message : string) : M unit :=
  b <- check t ;;
  if b then advance else errorAtCurrent message.

Definition match_ (t : TokenType) : M bool :=
  b <- check t ;;
  if negb b then ret false else advance ;; ret true.

Definition get_previous : M Token := p <- get_state ;; ret (previous p).
Definition get_current : M Token := p <- get_state ;; ret (current p).

(** The parse rule table.  Function pointers are names. *)
Inductive ParseFn : Type :=
| fn_grouping | fn_map | fn_list | fn_unary | fn_variable | fn_atom
| fn_string | fn_number | fn_literal | fn_ifStatement | fn_super
| fn_this | fn_yield.

Inductive InfixParseFn : Type :=
| fn_call | fn_getItem | fn_pipeCall | fn_dot | fn_binary | fn_and | fn_or.

Record ParseRule : Type := mkRule {
  rule_prefix : option ParseFn;
  rule_infix : option InfixParseFn;
  rule_precedence : Precedence
}.

Definition getRule (t : TokenType) : ParseRule :=
  match t with
  | TOKEN_LEFT_PAREN => mkRule (Some fn_grouping) (Some fn_call) PREC_CALL
  | TOKEN_LEFT_BRACE => mkRule (Some fn_map) None PREC_NONE
  | TOKEN_LEFT_BRACKET => mkRule (Some fn_list) (Some fn_getItem) PREC_CALL
  | TOKEN_PIPE => mkRule None (Some fn_pipeCall) PREC_YIELD
  | TOKEN_DOT => mkRule None (Some fn_dot) PREC_CALL
  | TOKEN_MINUS => mkRule (Some fn_unary) (Some fn_binary) PREC_TERM
  | TOKEN_PLUS => mkRule None (Some fn_binary) PREC_TERM
  | TOKEN_MODULO => mkRule None (Some fn_binary) PREC_TERM
  | TOKEN_SLASH => mkRule None (Some fn_binary) PREC_FACTOR
  | TOKEN_STAR => mkRule None (Some fn_binary) PREC_FACTOR
  | TOKEN_BANG => mkRule (Some fn_unary) None PREC_NONE
  | TOKEN_BANG_EQUAL => mkRule None (Some fn_binary) PREC_EQUALITY
  | TOKEN_EQUAL_EQUAL => mkRule None (Some fn_binary) PREC_EQUALITY
  | TOKEN_GREATER => mkRule None (Some fn_binary) PREC_COMPARISON
  | TOKEN_GREATER_EQUAL => mkRule None (Some fn_binary) PREC_COMPARISON
  | TOKEN_LESS => mkRule None (Some fn_binary) PREC_COMPARISON
  | TOKEN_LESS_EQUAL => mkRule None (Some fn_binary) PREC_COMPARISON
  | TOKEN_IDENTIFIER => mkRule (Some fn_variable) None PREC_NONE
  | TOKEN_ATOM => mkRule (Some fn_atom) None PREC_NONE
  | TOKEN_STRING => mkRule (Some fn_string) None PREC_NONE
  | TOKEN_NUMBER => mkRule (Some fn_number) None PREC_NONE
  | TOKEN_AND => mkRule None (Some fn_and) PREC_AND
  | TOKEN_FALSE => mkRule (Some fn_literal) None PREC_NONE
  | TOKEN_IF => mkRule (Some fn_ifStatement) None PREC_NONE
  | TOKEN_NIL => mkRule (Some fn_literal) None PREC_NONE
  | TOKEN_OR => mkRule None (Some fn_or) PREC_OR
  | TOKEN_SUPER => mkRule (Some fn_super) None PREC_NONE
  | TOKEN_THIS => mkRule (Some fn_this) None PREC_NONE
  | TOKEN_TRUE => mkRule (Some fn_literal) None PREC_NONE
  | TOKEN_YIELD => mkRule (Some fn_yield) None PREC_NONE
  | _ => mkRule None None PREC_NONE
  end.

(** The functions the C file declares before it defines them.  Each
    definition below reaches them through this record, one unfolding of
    the recursion further down. *)
Record Forward : Type := mkForward {
  fwd_statement : M (option Node);
  fwd_ifStatement : bool -> M (option Node);
  fwd_genericArgDefinitions : M (list (option Node));
  fwd_declaration : M (option Node);
  fwd_expression : M (option Node);
  fwd_parsePrecedence : Precedence -> M (option Node);
  fwd_block : M (option Node);
  fwd_typeAnnotation : M (option Node)
}.

Section Bodies.
(** [fuel] bounds the iterations of each loop; [self] holds the
    forward-declared functions. *)
Variable fuel : nat.
Variable self : Forward.

Definition number (canAssign : bool) : M (option Node) :=
  p <- get_state ;;
  ret (Some (NODE_LITERAL (NUMBER_VAL (strtod (lexeme (previous p)))))).

Definition unary (canAssign : bool) : M (option Node) :=
  operator <- get_previous ;;
  expr <- fwd_parsePrecedence self PREC_UNARY ;;
  ret (Some (NODE_UNARY operator expr)).

Fixpoint list_items (n : nat) (items : list (option Node)) : M (list (option Node)) :=
  match n with
  | O => out_of_fuel
  | S n' =>
      closing <- check TOKEN_RIGHT_BRACKET ;;
      if closing then ret items
      else
        item <- fwd_expression self ;;
        let items := writeArray items item in
        comma <- match_ TOKEN_COMMA ;;
        if comma then list_items n' items else ret items
  end.

(** [list], [map] and [string] of the C file carry a trailing underscore
  here, as [and_] and [or_] do there. *)
Definition list_ (canAssign : bool) : M (option Node) :=
  bracket <- get_previous ;;
  closing <- check TOKEN_RIGHT_BRACKET ;;
  items <- (if negb closing then list_items fuel [] else ret []) ;;
  consume TOKEN_RIGHT_BRACKET "Expect ']' after list items." ;;
  ret (Some (NODE_LIST bracket items)).

Fixpoint map_items (n : nat) (keys values : list (option Node))
  : M (list (option Node) * list (option Node)) :=
  match n with
  | O => out_of_fuel
  | S n' =>
      closing <- check TOKEN_RIGHT_BRACE ;;
      if closing then ret (keys, values)
      else
        key <- fwd_expression self ;;
        let keys := writeArray keys key in
        consume TOKEN_COLON "Expect ':' after map key." ;;
        value <- fwd_expression self ;;
        let values := writeArray values value in
        comma <- match_ TOKEN_COMMA ;;
        if comma then map_items n' keys values else ret (keys, values)
  end.

Definition map_ (canAssign : bool) : M (option Node) :=
  brace <- get_previous ;;
  closing <- check TOKEN_RIGHT_BRACE ;;
  kv <- (if negb closing then map_items fuel [] [] else ret ([], [])) ;;
  consume TOKEN_RIGHT_BRACE "Expect '}' after map items." ;;
  ret (Some (NODE_MAP brace (fst kv) (snd kv))).

Definition binary (left : option Node) (canAssign : bool) : M (option Node) :=
  operator <- get_previous ;;
  let rule := getRule (type operator) in
  right <- fwd_parsePrecedence self (rule_precedence rule + 1) ;;
  ret (Some (NODE_BINARY left operator right)).

Definition grouping (canAssign : bool) : M (option Node) :=
  expr <- fwd_expression self ;;
  consume TOKEN_RIGHT_PAREN "Expect ')' after expression." ;;
  ret expr.

(** [copyString(previous.start + 1, previous.length - 2)]. *)
Definition string_ (canAssign : bool) : M (option Node) :=
  t <- get_previous ;;
  let chars := substring 1 (String.length (lexeme t) - 2) (lexeme t) in
  ret (Some (NODE_LITERAL (OBJ_VAL (OBJ_STRING chars)))).

Definition identifiersEqual (a b : Token) : bool :=
  String.eqb (lexeme a) (lexeme b).

Definition variable (canAssign : bool) : M (option Node) :=
  name <- get_previous ;;
  assign <- (if canAssign then match_ TOKEN_EQUAL else ret false) ;;
  if assign then
    value <- fwd_expression self ;;
    ret (Some (NODE_ASSIGN name value))
  else ret (Some (NODE_VARIABLE name)).

Definition atom (canAssign : bool) : M (option Node) :=
  t <- get_previous ;;
  let key := substring 1 (String.length (lexeme t) - 1) (lexeme t) in
  ret (Some (NODE_LITERAL (OBJ_VAL (OBJ_ATOM key)))).

Definition literal (canAssign : bool) : M (option Node) :=
  t <- get_previous ;;
  ret (Some (NODE_LITERAL
               match type t with
               | TOKEN_FALSE => BOOL_VAL false
               | TOKEN_NIL => NIL_VAL
               | TOKEN_TRUE => BOOL_VAL true
               | _ => NIL_VAL
               end)).

Definition and_ (left : option Node) (canAssign : bool) : M (option Node) :=
  operator <- get_previous ;;
  right <- fwd_parsePrecedence self PREC_AND ;;
  ret (Some (NODE_BINARY left operator right)).

Definition or_ (left : option Node) (canAssign : bool) : M (option Node) :=
  operator <- get_previous ;;
  right <- fwd_parsePrecedence self PREC_OR ;;
  ret (Some (NODE_BINARY left operator right)).

(** [argCount] is a [uint8_t]: it wraps at 256. *)
Fixpoint argument_items (n : nat) (argCount : nat) (items : list (option Node))
  : M (list (option Node)) :=
  match n with
  | O => out_of_fuel
  | S n' =>
      closing <- check TOKEN_RIGHT_PAREN ;;
      if closing then ret items
      else
        expr <- fwd_expression self ;;
        let items := writeArray items expr in
        (if (argCount =? 255)%nat then error "Can't have more than 255 arguments."
         else ret tt) ;;
        let argCount := (argCount + 1) mod 256 in
        comma <- match_ TOKEN_COMMA ;;
        if comma then argument_items n' argCount items else ret items
  end.

Definition argumentList : M (list (option Node)) :=
  closing <- check TOKEN_RIGHT_PAREN ;;
  items <- (if negb closing then argument_items fuel 0 [] else ret []) ;;
  consume TOKEN_RIGHT_PAREN "Expect ')' after arguments." ;;
  ret items.

Definition call (left : option Node) (canAssign : bool) : M (option Node) :=
  paren <- get_previous ;;
  arguments <- argumentList ;;
  ret (Some (NODE_CALL left paren arguments)).

Definition getItem (left : option Node) (canAssign : bool) : M (option Node) :=
  expr <- fwd_expression self ;;
  consume TOKEN_RIGHT_BRACKET "Expect ']' after index." ;;
  ret (Some (NODE_GETITEM left expr)).

(** The loop of [pipeCall]:
  [for (i = 0; i < count - 1; i++) exprs[i + 1] = exprs[i];]
  run for [n] more iterations from index [i]. *)
Fixpoint pipe_shift (n i : nat) (exprs : list (option Node)) : list (option Node) :=
  match n with
  | O => exprs
  | S n' => pipe_shift n' (S i) (array_set (S i) (nth i exprs None) exprs)
  end.

Definition pipe_arguments (left : option Node) (arguments : list (option Node))
  : list (option Node) :=
  let exprs := writeArray arguments None in
  let exprs := pipe_shift (List.length exprs - 1) 0 exprs in
  array_set 0 left exprs.

Definition pipeCall (left : option Node) (canAssign : bool) : M (option Node) :=
  result <- fwd_parsePrecedence self PREC_CALL ;;
  match result with
  | None => fault                      (* result->self.self.type on NULL *)
  | Some (NODE_CALL callee paren arguments) =>
      ret (Some (NODE_CALL callee paren (pipe_arguments left arguments)))
  | Some _ =>
      errorAtCurrent "Expected functional call after pipe operator!" ;;
      ret None
  end.

Definition dot (left : option Node) (canAssign : bool) : M (option Node) :=
  consume TOKEN_IDENTIFIER "Expect property name after '.'." ;;
  name <- get_previous ;;
  assign <- match_ TOKEN_EQUAL ;;
  if assign then
    value <- fwd_expression self ;;
    ret (Some (NODE_SET left name value))
  else ret (Some (NODE_GET left name)).

Definition this_ (canAssign : bool) : M (option Node) := variable false.

Definition super_ (canAssign : bool) : M (option Node) :=
  consume TOKEN_DOT "Expect '.' after 'super'." ;;
  consume TOKEN_IDENTIFIER "Expect superclass method name." ;;
  name <- get_previous ;;
  ret (Some (NODE_SUPER name name)).

Definition yield (canAssign : bool) : M (option Node) :=
  semicolon <- check TOKEN_SEMICOLON ;;
  expression <- (if negb semicolon then fwd_parsePrecedence self PREC_YIELD
                 else ret None) ;;
  ret (Some (NODE_YIELD expression)).

Definition call_prefix (fn : ParseFn) (canAssign : bool) : M (option Node) :=
  match fn with
  | fn_grouping => grouping canAssign
  | fn_map => map_ canAssign
  | fn_list => list_ canAssign
  | fn_unary => unary canAssign
  | fn_variable => variable canAssign
  | fn_atom => atom canAssign
  | fn_string => string_ canAssign
  | fn_number => number canAssign
  | fn_literal => literal canAssign
  | fn_ifStatement => fwd_ifStatement self canAssign
  | fn_super => super_ canAssign
  | fn_this => this_ canAssign
  | fn_yield => yield canAssign
  end.

Definition call_infix (fn : InfixParseFn) (left : option Node) (canAssign : bool)
  : M (option Node) :=
  match fn with
  | fn_call => call left canAssign
  | fn_getItem => getItem left canAssign
  | fn_pipeCall => pipeCall left canAssign
  | fn_dot => dot left canAssign
  | fn_binary => binary left canAssign
  | fn_and => and_ left canAssign
  | fn_or => or_ left canAssign
  end.

Fixpoint infix_loop (n : nat) (precedence : Precedence) (canAssign : bool)
         (result : option Node) : M (option Node) :=
  match n with
  | O => out_of_fuel
  | S n' =>
      cur <- get_current ;;
      if (precedence <=? rule_precedence (getRule (type cur)))%nat then
        advance ;;
        prev <- get_previous ;;
        match rule_infix (getRule (type prev)) with
        | None => fault                (* a null function pointer is called *)
        | Some infixRule =>
            result <- call_infix infixRule result canAssign ;;
            infix_loop n' precedence canAssign result
        end
      else ret result
  end.

Definition parsePrecedence (precedence : Precedence) : M (option Node) :=
  advance ;;
  prev <- get_previous ;;
  match rule_prefix (getRule (type prev)) with
  | None => error "Expect expression." ;; ret None
  | Some prefixRule =>
      let canAssign := (precedence <=? PREC_ASSIGNMENT)%nat in
      result <- call_prefix prefixRule canAssign ;;
      result <- infix_loop fuel precedence canAssign result ;;
      invalid <- (if canAssign then match_ TOKEN_EQUAL else ret false) ;;
      (if invalid then error "Invalid assignment target." else ret tt) ;;
      ret result
  end.

Definition parseVariable (errorMessage : string) : M Token :=
  consume TOKEN_IDENTIFIER errorMessage ;;
  get_previous.

(** The parameter loop, which [anonFunction], [function] and
  [methodSignature] each contain word for word. *)
Fixpoint parameter_items (n : nat) (argCount : nat) (params : list Node)
         (types : list (option Node)) : M (list Node * list (option Node)) :=
  match n with
  | O => out_of_fuel
  | S n' =>
      let argCount := argCount + 1 in
      (if (255 <? argCount)%nat then errorAtCurrent "Can't have more than 255 parameters."
       else ret tt) ;;
      name <- parseVariable "Expect parameter name." ;;
      colon <- match_ TOKEN_COLON ;;
      typeNode <- (if colon then fwd_typeAnnotation self else ret None) ;;
      let params := writeArray params (NODE_POSITIONAL name typeNode) in
      let types := writeArray types typeNode in
      comma <- match_ TOKEN_COMMA ;;
      if comma then parameter_items n' argCount params types
      else ret (params, types)
  end.

Definition parameterList : M (list Node * list (option Node)) :=
  closing <- check TOKEN_RIGHT_PAREN ;;
  if negb closing then parameter_items fuel 0 [] [] else ret ([], []).

Definition statements_of (bl : option Node) : M (list (option Node)) :=
  match bl with
  | Some (NODE_BLOCK statements) => ret statements
  | _ => fault
  end.

Definition initFunctor (types : list (option Node)) (returnType : option Node)
           (generics : list (option Node)) : Node :=
  NODE_FUNCTOR types returnType generics.

Definition anonFunction (canAssign : bool) : M (option Node) :=
  less <- match_ TOKEN_LESS ;;
  generics <- (if less then fwd_genericArgDefinitions self else ret []) ;;
  consume TOKEN_LEFT_PAREN "Expect '(' after fun keyword." ;;
  pt <- parameterList ;;
  consume TOKEN_RIGHT_PAREN "Expect ')' after parameters." ;;
  colon <- match_ TOKEN_COLON ;;
  returnType <- (if colon then fwd_typeAnnotation self else ret None) ;;
  consume TOKEN_ARROW "Expect '=>' after parameters." ;;
  brace <- match_ TOKEN_LEFT_BRACE ;;
  bl <- (if brace then fwd_block self
         else
           expr <- fwd_expression self ;;
           ret (Some (NODE_BLOCK [Some (NODE_RETURN zeroToken expr)]))) ;;
  body <- statements_of bl ;;
  ret (Some (NODE_LAMBDA (fst pt) body []
               (Some (initFunctor (snd pt) returnType generics)))).

Definition expression : M (option Node) :=
  is_fun <- match_ TOKEN_FUN ;;
  if is_fun then anonFunction false else parsePrecedence PREC_ASSIGNMENT.

Definition expressionStatement : M (option Node) :=
  cur <- get_current ;;
  expr <- expression ;;
  match_ TOKEN_SEMICOLON ;;
  ret (Some (NODE_EXPRESSION (line cur) expr)).

Fixpoint block_items (n : nat) (stmts : list (option Node)) : M (list (option Node)) :=
  match n with
  | O => out_of_fuel
  | S n' =>
      closing <- check TOKEN_RIGHT_BRACE ;;
      at_end <- check TOKEN_EOF ;;
      if andb (negb closing) (negb at_end) then
        d <- fwd_declaration self ;;
        block_items n' (writeArray stmts d)
      else ret stmts
  end.

Definition block : M (option Node) :=
  stmts <- block_items fuel [] ;;
  consume TOKEN_RIGHT_BRACE "Expect '}' after block." ;;
  ret (Some (NODE_BLOCK stmts)).

(** [function] leaves the name to its caller. *)
Definition function (type : FunctionType) : M (Token -> Node) :=
  less <- match_ TOKEN_LESS ;;
  generics <- (if less then fwd_genericArgDefinitions self else ret []) ;;
  consume TOKEN_LEFT_PAREN "Expect '(' after function name." ;;
  pt <- parameterList ;;
  consume TOKEN_RIGHT_PAREN "Expect ')' after parameters." ;;
  colon <- match_ TOKEN_COLON ;;
  returnType <- (if colon then fwd_typeAnnotation self else ret None) ;;
  consume TOKEN_LEFT_BRACE "Expect '{' before function body." ;;
  bl <- block ;;
  body <- statements_of bl ;;
  ret (fun name => NODE_FUNCTION name type (fst pt) returnType generics body).

Definition ifStatement (canAssign : bool) : M (option Node) :=
  consume TOKEN_LEFT_PAREN "Expect '(' after 'if'." ;;
  condition <- expression ;;
  consume TOKEN_RIGHT_PAREN "Expect ')' after condition." ;;
  ifBody <- fwd_statement self ;;
  has_else <- match_ TOKEN_ELSE ;;
  elseBody <- (if has_else then fwd_statement self else ret None) ;;
  ret (Some (NODE_IF condition ifBody elseBody)).

Definition whileStatement : M (option Node) :=
  consume TOKEN_LEFT_PAREN "Expect '(' after 'while'." ;;
  condition <- expression ;;
  consume TOKEN_RIGHT_PAREN "Expect ')' after condition." ;;
  body <- fwd_statement self ;;
  ret (Some (NODE_WHILE condition body)).

Fixpoint generic_items (n : nat) (generics : list (option Node))
  : M (list (option Node)) :=
  match n with
  | O => out_of_fuel
  | S n' =>
      consume TOKEN_IDENTIFIER "Expected identifier in generic argument list." ;;
      name <- get_previous ;;
      extends <- match_ TOKEN_EXTENDS ;;
      target <- (if extends then fwd_typeAnnotation self else ret None) ;;
      let generics := writeArray generics (Some (NODE_TYPEDECLARATION name [] target)) in
      comma <- match_ TOKEN_COMMA ;;
      if comma then generic_items n' generics else ret generics
  end.

Definition genericArgDefinitions : M (list (option Node)) :=
  empty <- match_ TOKEN_GREATER ;;
  if empty then ret []
  else
    generics <- generic_items fuel [] ;;
    consume TOKEN_GREATER "Expected '>' after generic argument list." ;;
    ret generics.

Fixpoint annotation_items (n : nat) (arguments : list (option Node))
  : M (list (option Node)) :=
  match n with
  | O => out_of_fuel
  | S n' =>
      t <- fwd_typeAnnotation self ;;
      let arguments := writeArray arguments t in
      comma <- match_ TOKEN_COMMA ;;
      if comma then annotation_items n' arguments else ret arguments
  end.

(** Returns the functor node without its generics, which the caller
  assigns. *)
Definition functionTypeAnnotation : M (list (option Node) -> Node) :=
  arguments <- annotation_items fuel [] ;;
  consume TOKEN_RIGHT_PAREN "Expect ')' after functor type arguments." ;;
  consume TOKEN_ARROW "Expect '=>' after functor type arguments." ;;
  returnType <- fwd_typeAnnotation self ;;
  ret (fun generics => NODE_FUNCTOR arguments returnType generics).

Definition simpleTypeAnnotation : M (option Node) :=
  name <- get_previous ;;
  less <- match_ TOKEN_LESS ;;
  if less then
    generics <- annotation_items fuel [] ;;
    consume TOKEN_GREATER "Expect '>' after generic type argument." ;;
    ret (Some (NODE_SIMPLE name generics))
  else ret (Some (NODE_SIMPLE name [])).

Definition typeAnnotation_union (leftType : option Node) : M (option Node) :=
  bar <- match_ TOKEN_BITWISE_OR ;;
  if negb bar then ret leftType
  else
    rightType <- fwd_typeAnnotation self ;;
    ret (Some (NODE_UNION leftType rightType)).

Definition typeAnnotation : M (option Node) :=
  less <- match_ TOKEN_LESS ;;
  if less then
    genericArgs <- genericArgDefinitions ;;
    functor <- functionTypeAnnotation ;;
    typeAnnotation_union (Some (functor genericArgs))
  else
    paren <- match_ TOKEN_LEFT_PAREN ;;
    if paren then
      functor <- functionTypeAnnotation ;;
      typeAnnotation_union (Some (functor []))
    else
      ident <- match_ TOKEN_IDENTIFIER ;;
      if ident then
        leftType <- simpleTypeAnnotation ;;
        typeAnnotation_union leftType
      else
        error "Expect identifier or functor type." ;;
        ret None.

Definition fieldDeclaration (assignmentType : AssignmentType) : M (option Node) :=
  name <- parseVariable "Expect variable name." ;;
  consume TOKEN_COLON "Expect type annotation" ;;
  type <- typeAnnotation ;;
  match_ TOKEN_SEMICOLON ;;
  ret (Some (NODE_VAR name type None assignmentType)).

Definition varDeclaration (assignmentType : AssignmentType) : M (option Node) :=
  name <- parseVariable "Expect variable name." ;;
  colon <- match_ TOKEN_COLON ;;
  type <- (if colon then typeAnnotation else ret None) ;;
  equal <- match_ TOKEN_EQUAL ;;
  value <- (if equal then expression else ret None) ;;
  match type, value with
  | None, None =>
      errorAtCurrent "Var without initializer must provide a type!" ;;
      ret None
  | _, _ =>
      match_ TOKEN_SEMICOLON ;;
      ret (Some (NODE_VAR name type value assignmentType))
  end.

Definition typeDeclaration : M (option Node) :=
  name <- parseVariable "Expect type name." ;;
  less <- match_ TOKEN_LESS ;;
  generics <- (if less then genericArgDefinitions else ret []) ;;
  consume TOKEN_EQUAL "Expect '=' after type name." ;;
  target <- typeAnnotation ;;
  match_ TOKEN_SEMICOLON ;;
  ret (Some (NODE_TYPEDECLARATION name generics target)).

Definition forStatement : M (option Node) :=
  consume TOKEN_LEFT_PAREN "Expect '(' after 'for'." ;;
  semicolon <- match_ TOKEN_SEMICOLON ;;
  initializer <-
    (if semicolon then ret None
     else
       var <- match_ TOKEN_VAR ;;
       if var then varDeclaration TYPE_VARIABLE else expressionStatement) ;;
  semicolon <- match_ TOKEN_SEMICOLON ;;
  condition <-
    (if negb semicolon then
       c <- expression ;;
       consume TOKEN_SEMICOLON "Expect ';' after loop condition." ;;
       ret c
     else ret None) ;;
  paren <- match_ TOKEN_RIGHT_PAREN ;;
  increment <-
    (if negb paren then
       i <- expression ;;
       consume TOKEN_RIGHT_PAREN "Expect ')' after for clauses." ;;
       ret i
     else ret None) ;;
  body <- fwd_statement self ;;
  ret (Some (NODE_FOR initializer condition increment body)).

Definition importStatement : M (option Node) :=
  consume TOKEN_STRING ("Expect '" ++ String (ascii_of_nat 34) "' after import.") ;;
  s <- string_ false ;;
  consume TOKEN_AS "Expect 'as' after import path." ;;
  name <- parseVariable "Expect name after 'as' in import." ;;
  match_ TOKEN_SEMICOLON ;;
  ret (Some (NODE_IMPORT s name)).

Definition returnStatement : M (option Node) :=
  keyword <- get_previous ;;
  semicolon <- match_ TOKEN_SEMICOLON ;;
  if semicolon then ret (Some (NODE_RETURN keyword None))
  else
    value <- expression ;;
    match_ TOKEN_SEMICOLON ;;
    ret (Some (NODE_RETURN keyword value)).

(** [while (match(TOKEN_SEMICOLON));] *)
Fixpoint skip_semicolons (n : nat) : M unit :=
  match n with
  | O => out_of_fuel
  | S n' =>
      semicolon <- match_ TOKEN_SEMICOLON ;;
      if semicolon then skip_semicolons n' else ret tt
  end.

Definition statement : M (option Node) :=
  is_return <- match_ TOKEN_RETURN ;;
  result <-
    (if is_return then returnStatement
     else
       is_while <- match_ TOKEN_WHILE ;;
       if is_while then whileStatement
       else
         is_for <- match_ TOKEN_FOR ;;
         if is_for then forStatement
         else
           is_block <- match_ TOKEN_LEFT_BRACE ;;
           if is_block then block
           else
             is_import <- match_ TOKEN_IMPORT ;;
             if is_import then importStatement else expressionStatement) ;;
  skip_semicolons fuel ;;
  ret result.

Definition synchronization_point (t : TokenType) : bool :=
  match t with
  | TOKEN_CLASS | TOKEN_FUN | TOKEN_VAR | TOKEN_FOR | TOKEN_IF
  | TOKEN_WHILE | TOKEN_RETURN => true
  | _ => false
  end.

Fixpoint synchronize_loop (n : nat) : M unit :=
  match n with
  | O => out_of_fuel
  | S n' =>
      p <- get_state ;;
      if tt_eqb (type (current p)) TOKEN_EOF then ret tt
      else if tt_eqb (type (previous p)) TOKEN_SEMICOLON then ret tt
      else if synchronization_point (type (current p)) then ret tt
      else advance ;; synchronize_loop n'
  end.

Definition synchronize : M unit :=
  modify (set_panicMode false) ;;
  synchronize_loop fuel.

Definition funDeclaration : M (option Node) :=
  name <- parseVariable "Expect function name." ;;
  func <- function TYPE_FUNCTION ;;
  ret (Some (func name)).

Definition method : M (option Node) :=
  consume TOKEN_FUN "Expect 'var' or 'fun' keyword." ;;
  consume TOKEN_IDENTIFIER "Expect method name." ;;
  name <- get_previous ;;
  let type := if String.eqb (lexeme name) "init" then TYPE_INITIALIZER
              else TYPE_METHOD in
  func <- function type ;;
  ret (Some (func name)).

Fixpoint class_members (n : nat) (body : list (option Node)) : M (list (option Node)) :=
  match n with
  | O => out_of_fuel
  | S n' =>
      closing <- check TOKEN_RIGHT_BRACE ;;
      at_end <- check TOKEN_EOF ;;
      if andb (negb closing) (negb at_end) then
        var <- match_ TOKEN_VAR ;;
        member <- (if var then varDeclaration TYPE_FIELD else method) ;;
        class_members n' (writeArray body member)
      else ret body
  end.

Definition classDeclaration : M (option Node) :=
  consume TOKEN_IDENTIFIER "Expect class name." ;;
  className <- get_previous ;;
  less <- match_ TOKEN_LESS ;;
  generics <- (if less then genericArgDefinitions else ret []) ;;
  extends <- match_ TOKEN_EXTENDS ;;
  superclass <-
    (if extends then
       consume TOKEN_IDENTIFIER "Expect superclass name." ;;
       var <- variable false ;;
       prev <- get_previous ;;
       (if identifiersEqual className prev
        then error "A class can't inherit from itself." else ret tt) ;;
       ret var
     else ret None) ;;
  consume TOKEN_LEFT_BRACE "Expect '{' before class body." ;;
  body <- class_members fuel [] ;;
  consume TOKEN_RIGHT_BRACE "Expect '}' after class body." ;;
  ret (Some (NODE_CLASS className superclass generics body)).

Definition methodSignature : M (option Node) :=
  consume TOKEN_FUN "Expect 'fun' in interface body." ;;
  consume TOKEN_IDENTIFIER "Expect method name." ;;
  name <- get_previous ;;
  less <- match_ TOKEN_LESS ;;
  generics <- (if less then genericArgDefinitions else ret []) ;;
  prev <- get_previous ;;
  let type := if String.eqb (lexeme prev) "init" then TYPE_INITIALIZER
              else TYPE_METHOD in
  consume TOKEN_LEFT_PAREN "Expect '(' after function name." ;;
  pt <- parameterList ;;
  consume TOKEN_RIGHT_PAREN "Expect ')' after parameters." ;;
  colon <- match_ TOKEN_COLON ;;
  returnType <- (if colon then typeAnnotation else ret None) ;;
  ret (Some (NODE_METHODSIG name type (fst pt) returnType generics)).

Fixpoint interface_members (n : nat) (body : list (option Node))
  : M (list (option Node)) :=
  match n with
  | O => out_of_fuel
  | S n' =>
      closing <- check TOKEN_RIGHT_BRACE ;;
      at_end <- check TOKEN_EOF ;;
      if andb (negb closing) (negb at_end) then
        var <- match_ TOKEN_VAR ;;
        member <- (if var then varDeclaration TYPE_FIELD else methodSignature) ;;
        interface_members n' (writeArray body member)
      else ret body
  end.

Definition interfaceDeclaration : M (option Node) :=
  consume TOKEN_IDENTIFIER "Expect an interface name." ;;
  interfaceName <- get_previous ;;
  less <- match_ TOKEN_LESS ;;
  generics <- (if less then genericArgDefinitions else ret []) ;;
  extends <- match_ TOKEN_EXTENDS ;;
  superType <-
    (if extends then
       consume TOKEN_IDENTIFIER "Expect superclass name." ;;
       var <- fieldDeclaration TYPE_VARIABLE ;;
       prev <- get_previous ;;
       (if identifiersEqual interfaceName prev
        then error "An interface can't extend from itself." else ret tt) ;;
       ret var
     else ret None) ;;
  consume TOKEN_LEFT_BRACE "Expect '{' before interface body." ;;
  body <- interface_members fuel [] ;;
  consume TOKEN_RIGHT_BRACE "Expect '}' after interface body." ;;
  ret (Some (NODE_INTERFACE interfaceName superType generics body)).

(** Every branch of the chain returns.  The statement that follows
  the chain in the C function, [if (parser.panicMode) synchronize();],
  is therefore never reached, and [declaration] does not run
  [synchronize]. *)
Definition declaration : M (option Node) :=
  is_class <- match_ TOKEN_CLASS ;;
  if is_class then classDeclaration
  else
    is_fun <- match_ TOKEN_FUN ;;
    if is_fun then funDeclaration
    else
      is_var <- match_ TOKEN_VAR ;;
      if is_var then varDeclaration TYPE_VARIABLE
      else
        is_interface <- match_ TOKEN_INTERFACE ;;
        if is_interface then interfaceDeclaration
        else
          is_type <- match_ TOKEN_TYPE ;;
          if is_type then typeDeclaration else statement.

Fixpoint program_items (n : nat) (statements : list (option Node))
  : M (list (option Node)) :=
  match n with
  | O => out_of_fuel
  | S n' =>
      at_end <- match_ TOKEN_EOF ;;
      if negb at_end then
        d <- declaration ;;
        program_items n' (writeArray statements d)
      else ret statements
  end.
End Bodies.

(** Tying the recursion: with no fuel a forward-declared function does
    not answer; with [S f] it is its body over the functions at [f]. *)
Fixpoint forward (fuel : nat) : Forward :=
  match fuel with
  | O => mkForward out_of_fuel (fun _ => out_of_fuel) out_of_fuel out_of_fuel
                   out_of_fuel (fun _ => out_of_fuel) out_of_fuel out_of_fuel
  | S f =>
      let self := forward f in
      mkForward (statement f self) (ifStatement f self)
                (genericArgDefinitions f self) (declaration f self)
                (expression f self) (parsePrecedence f self)
                (block f self) (typeAnnotation f self)
  end.

Definition initScanner (text : list Token) : M unit := modify (set_source text).

Definition parseAST (fuel : nat) (text : list Token) : M (option (list (option Node))) :=
  initScanner text ;;
  modify (set_hadError false) ;;
  modify (set_panicMode false) ;;
  advance ;;
  statements <- program_items fuel (forward fuel) fuel [] ;;
  consume TOKEN_EOF "Expect end of expression." ;;
  p <- get_state ;;
  ret (if hadError p then None else Some statements).

(** The parser before its first use. *)
Definition initial : Parser := mkParser zeroToken zeroToken false false [] [].

(** *** Vocabulary of the properties *)

(** [gated n p]: relative to a moment when [n] diagnostics had been
    printed and both flags were clear, either nothing has happened, or
    exactly one more diagnostic was printed and both flags are set. *)
Definition gated (n : nat) (p : Parser) : Prop :=
  (List.length (stderr p) = n /\ hadError p = false /\ panicMode p = false) \/
  (List.length (stderr p) = S n /\ hadError p = true /\ panicMode p = true).

(** The forward-declared functions keep [gated n]. *)
Record Forward_ok (n : nat) (self : Forward) : Prop := {
  ok_statement : Preserves (gated n) (fwd_statement self);
  ok_ifStatement : forall c, Preserves (gated n) (fwd_ifStatement self c);
  ok_genericArgDefinitions : Preserves (gated n) (fwd_genericArgDefinitions self);
  ok_declaration : Preserves (gated n) (fwd_declaration self);
  ok_expression : Preserves (gated n) (fwd_expression self);
  ok_parsePrecedence : forall q, Preserves (gated n) (fwd_parsePrecedence self q);
  ok_block : Preserves (gated n) (fwd_block self);
  ok_typeAnnotation : Preserves (gated n) (fwd_typeAnnotation self)
}.

(** The tokens still to come: none once the current token is the end of
    the file, otherwise the current one and those the scanner holds. *)
Definition pending_tokens (p : Parser) : nat :=
  if tt_eqb (type (current p)) TOKEN_EOF then 0 else S (List.length (source p)).

Definition no_error_tokens (l : list Token) : Prop :=
  Forall (fun t => tt_eqb (type t) TOKEN_ERROR = false) l.

(** Where [synchronize] stops: at the end of the file, just after a
    semicolon, or in front of one of [class fun var for if while
    return]. *)
Definition synchronized (p : Parser) : Prop :=
  type (current p) = TOKEN_EOF \/
  type (previous p) = TOKEN_SEMICOLON \/
  synchronization_point (type (current p)) = true.

End Parser.

(** * The type checker ([src/types.c]) *)

Module Types.

(** A [Type*] is an address in the heap of descriptors; [NULL] is
    [None].  Two descriptors are the same type when they are the same
    address. *)
Definition Ptr : Type := nat.

Definition ptr_eqb (a b : option Ptr) : bool :=
  match a, b with
  | None, None => true
  | Some x, Some y => Nat.eqb x y
  | _, _ => false
  end.

(** The [Value]s kept in tables and arrays of the checker: [NIL_VAL] or
    [OBJ_VAL] of a descriptor (possibly of [NULL]). *)
Inductive TValue : Type :=
| T_NIL
| T_OBJ (p : option Ptr).

Definition AS_OBJ (v : TValue) : option Ptr :=
  match v with T_NIL => None | T_OBJ p => p end.

Definition IS_NIL (v : TValue) : bool :=
  match v with T_NIL => true | T_OBJ _ => false end.

Definition valuesEqual (a b : TValue) : bool :=
  match a, b with
  | T_NIL, T_NIL => true
  | T_OBJ p, T_OBJ q => ptr_eqb p q
  | _, _ => false
  end.

(** Modelled from the spec: a field table and a method table map names
    to types ([table.c] is not among the sources).  A [Table] is the
    sequence of its entries; [tableSet] overwrites the entry of a key or adds one,
    and a loop over [entries[0 .. count)] visits the sequence in order.
    A [ValueTable] is the same with values as keys. *)
Definition Table : Type := list (string * TValue).

Fixpoint tableGet (table : Table) (key : string) : option TValue :=
  match table with
  | [] => None
  | (k, v) :: rest => if String.eqb k key then Some v else tableGet rest key
  end.

Fixpoint tableSet (table : Table) (key : string) (value : TValue) : Table :=
  match table with
  | [] => [(key, value)]
  | (k, v) :: rest =>
      if String.eqb k key then (k, value) :: rest
      else (k, v) :: tableSet rest key value
  end.

Definition copyTable (from to : Table) : Table :=
  fold_left (fun t kv => tableSet t (fst kv) (snd kv)) from to.

Definition ValueTable : Type := list (TValue * TValue).

Fixpoint valueTableGet (table : ValueTable) (key : TValue) : option TValue :=
  match table with
  | [] => None
  | (k, v) :: rest => if valuesEqual k key then Some v else valueTableGet rest key
  end.

Fixpoint valueTableSet (table : ValueTable) (key value : TValue) : ValueTable :=
  match table with
  | [] => [(key, value)]
  | (k, v) :: rest =>
      if valuesEqual k key then (k, value) :: rest
      else (k, v) :: valueTableSet rest key value
  end.

(** The six descriptors.  [SimpleType] and [InterfaceType] are read
    through each other's struct by the C code, so their tables are
    taken to lie at the same offsets. *)
Inductive TypeObj : Type :=
| SimpleType (superType : option Ptr) (fields methods : Table)
             (genericArgs : list TValue)
| FunctorType (arguments : list TValue) (returnType : option Ptr)
              (genericArgs : list TValue)
| UnionType (left right : option Ptr)
| InterfaceType (superType : option Ptr) (fields methods : Table)
                (genericArgs : list TValue)
| GenericType (target : option Ptr) (generics : list TValue)
| GenericTypeDefinition (extends : option Ptr) (name : Token).

Inductive ObjType : Type :=
| OBJ_PARSE_TYPE | OBJ_PARSE_FUNCTOR_TYPE | OBJ_PARSE_UNION_TYPE
| OBJ_PARSE_INTERFACE_TYPE | OBJ_PARSE_GENERIC_TYPE
| OBJ_PARSE_GENERIC_DEFINITION_TYPE.

Definition obj_type (o : TypeObj) : ObjType :=
  match o with
  | SimpleType _ _ _ _ => OBJ_PARSE_TYPE
  | FunctorType _ _ _ => OBJ_PARSE_FUNCTOR_TYPE
  | UnionType _ _ => OBJ_PARSE_UNION_TYPE
  | InterfaceType _ _ _ _ => OBJ_PARSE_INTERFACE_TYPE
  | GenericType _ _ => OBJ_PARSE_GENERIC_TYPE
  | GenericTypeDefinition _ _ => OBJ_PARSE_GENERIC_DEFINITION_TYPE
  end.

Record TypeEnvironment : Type := mkEnv {
  env_type : FunctionType;
  locals : Table;
  typeDefs : Table;
  genericResolutions : ValueTable
}.

(** The globals of [types.c].  [currentEnv] is the chain of
    environments, innermost first ([enclosing] is the tail, [NULL] the
    empty chain).  Diagnostics go to the same stream as the parser's,
    kept in [parser]; [files] is what [readFile] finds. *)
Record Checker : Type := mkChecker {
  heap : list TypeObj;
  currentEnv : list TypeEnvironment;
  panicMode : bool;
  hadError : bool;
  currentClassType : option Ptr;
  currentAssignmentType : option Ptr;
  currentFuncType : option Ptr;
  modules : Table;
  builtinModules : Table;
  numberType : option Ptr;
  boolType : option Ptr;
  nilType : option Ptr;
  atomType : option Ptr;
  stringType : option Ptr;
  neverType : option Ptr;
  anyType : option Ptr;
  listTypeDef : option Ptr;
  mapTypeDef : option Ptr;
  taskTypeDef : option Ptr;
  parser : Parser.Parser;
  files : list (string * list Token)
}.

Definition M (A : Type) : Type := Run Checker A.

Definition set_heap (h : list TypeObj) (c : Checker) : Checker :=
  mkChecker h (currentEnv c) (panicMode c) (hadError c) (currentClassType c)
    (currentAssignmentType c) (currentFuncType c) (modules c) (builtinModules c)
    (numberType c) (boolType c) (nilType c) (atomType c) (stringType c)
    (neverType c) (anyType c) (listTypeDef c) (mapTypeDef c) (taskTypeDef c)
    (parser c) (files c).
Definition set_currentEnv (e : list TypeEnvironment) (c : Checker) : Checker :=
  mkChecker (heap c) e (panicMode c) (hadError c) (currentClassType c)
    (currentAssignmentType c) (currentFuncType c) (modules c) (builtinModules c)
    (numberType c) (boolType c) (nilType c) (atomType c) (stringType c)
    (neverType c) (anyType c) (listTypeDef c) (mapTypeDef c) (taskTypeDef c)
    (parser c) (files c).
Definition set_flags (panic had : bool) (c : Checker) : Checker :=
  mkChecker (heap c) (currentEnv c) panic had (currentClassType c)
    (currentAssignmentType c) (currentFuncType c) (modules c) (builtinModules c)
    (numberType c) (boolType c) (nilType c) (atomType c) (stringType c)
    (neverType c) (anyType c) (listTypeDef c) (mapTypeDef c) (taskTypeDef c)
    (parser c) (files c).
Definition set_currentClassType (t : option Ptr) (c : Checker) : Checker :=
  mkChecker (heap c) (currentEnv c) (panicMode c) (hadError c) t
    (currentAssignmentType c) (currentFuncType c) (modules c) (builtinModules c)
    (numberType c) (boolType c) (nilType c) (atomType c) (stringType c)
    (neverType c) (anyType c) (listTypeDef c) (mapTypeDef c) (taskTypeDef c)
    (parser c) (files c).
Definition set_currentAssignmentType (t : option Ptr) (c : Checker) : Checker :=
  mkChecker (heap c) (currentEnv c) (panicMode c) (hadError c) (currentClassType c)
    t (currentFuncType c) (modules c) (builtinModules c)
    (numberType c) (boolType c) (nilType c) (atomType c) (stringType c)
    (neverType c) (anyType c) (listTypeDef c) (mapTypeDef c) (taskTypeDef c)
    (parser c) (files c).
Definition set_currentFuncType (t : option Ptr) (c : Checker) : Checker :=
  mkChecker (heap c) (currentEnv c) (panicMode c) (hadError c) (currentClassType c)
    (currentAssignmentType c) t (modules c) (builtinModules c)
    (numberType c) (boolType c) (nilType c) (atomType c) (stringType c)
    (neverType c) (anyType c) (listTypeDef c) (mapTypeDef c) (taskTypeDef c)
    (parser c) (files c).
Definition set_modules (m b : Table) (c : Checker) : Checker :=
  mkChecker (heap c) (currentEnv c) (panicMode c) (hadError c) (currentClassType c)
    (currentAssignmentType c) (currentFuncType c) m b
    (numberType c) (boolType c) (nilType c) (atomType c) (stringType c)
    (neverType c) (anyType c) (listTypeDef c) (mapTypeDef c) (taskTypeDef c)
    (parser c) (files c).
Definition set_parser (p : Parser.Parser) (c : Checker) : Checker :=
  mkChecker (heap c) (currentEnv c) (panicMode c) (hadError c) (currentClassType c)
    (currentAssignmentType c) (currentFuncType c) (modules c) (builtinModules c)
    (numberType c) (boolType c) (nilType c) (atomType c) (stringType c)
    (neverType c) (anyType c) (listTypeDef c) (mapTypeDef c) (taskTypeDef c)
    p (files c).

(** *** The heap *)

Definition ALLOCATE_OBJ (o : TypeObj) : M (option Ptr) :=
  c <- get_state ;;
  modify (set_heap (heap c ++ [o])) ;;
  ret (Some (List.length (heap c))).

(** Reading through a pointer: [NULL] and addresses outside the heap
    fault. *)
Definition deref (p : option Ptr) : M TypeObj :=
  c <- get_state ;;
  match p with
  | None => fault
  | Some a => match nth_error (heap c) a with
              | Some o => ret o
              | None => fault
              end
  end.

Definition store (p : option Ptr) (o : TypeObj) : M unit :=
  match p with
  | None => fault
  | Some a => modify (fun c => set_heap (array_set a o (heap c)) c)
  end.

Definition newSimpleType : M (option Ptr) := ALLOCATE_OBJ (SimpleType None [] [] []).
Definition newFunctorType : M (option Ptr) := ALLOCATE_OBJ (FunctorType [] None []).
Definition newUnionType : M (option Ptr) := ALLOCATE_OBJ (UnionType None None).
Definition newInterfaceType : M (option Ptr) := ALLOCATE_OBJ (InterfaceType None [] [] []).
Definition newGenericType : M (option Ptr) := ALLOCATE_OBJ (GenericType None []).
Definition newGenericTypeDefinition : M (option Ptr) :=
  ALLOCATE_OBJ (GenericTypeDefinition None zeroToken).

(** *** Diagnostics *)

Definition print (d : Parser.Diagnostic) (c : Checker) : Checker :=
  set_parser (Parser.print d (parser c)) c.

Definition stderr (c : Checker) : list Parser.Diagnostic := Parser.stderr (parser c).

Definition errorAt_state (token : Token) (message : string) (c : Checker) : Checker :=
  if panicMode c then c
  else set_flags true true
         (print (Parser.mkDiagnostic (line token) (Parser.location_of token) message) c).

Definition errorAt (token : Token) (message : string) : M unit :=
  modify (errorAt_state token message).

(** [syntheticToken] sets the text only; the other fields read as zero. *)
Definition syntheticToken (text : string) : Token := mkToken TOKEN_LEFT_PAREN text 0.

Definition error (message : string) : M unit :=
  errorAt (syntheticToken "Fake error location") message.

(** *** Environments *)

(** The innermost environment; [currentEnv == NULL] faults. *)
Definition current_scope : M TypeEnvironment :=
  c <- get_state ;;
  match currentEnv c with
  | [] => fault
  | e :: _ => ret e
  end.

Definition update_scope (depth : nat) (f : TypeEnvironment -> TypeEnvironment) : M unit :=
  c <- get_state ;;
  match nth_error (currentEnv c) depth with
  | None => fault
  | Some e => modify (set_currentEnv (array_set depth (f e) (currentEnv c)))
  end.

Definition set_local (name : string) (v : TValue) (e : TypeEnvironment) : TypeEnvironment :=
  mkEnv (env_type e) (tableSet (locals e) name v) (typeDefs e) (genericResolutions e).
Definition set_typeDef (name : string) (v : TValue) (e : TypeEnvironment) : TypeEnvironment :=
  mkEnv (env_type e) (locals e) (tableSet (typeDefs e) name v) (genericResolutions e).
Definition set_resolution (k v : TValue) (e : TypeEnvironment) : TypeEnvironment :=
  mkEnv (env_type e) (locals e) (typeDefs e) (valueTableSet (genericResolutions e) k v).

(** [tableSet(&currentEnv->locals, name, value)] and the like. *)
Definition defineLocal (depth : nat) (name : string) (t : option Ptr) : M unit :=
  update_scope depth (set_local name (T_OBJ t)).
Definition defineTypeDef (depth : nat) (name : string) (t : option Ptr) : M unit :=
  update_scope depth (set_typeDef name (T_OBJ t)).

Definition initTypeEnvironment (type : FunctionType) : M unit :=
  modify (fun c => set_currentEnv (mkEnv type [] [] [] :: currentEnv c) c).

(** [currentEnv = currentEnv->enclosing]. *)
Definition leave_environment : M unit :=
  c <- get_state ;;
  match currentEnv c with
  | [] => fault
  | _ :: enclosing => modify (set_currentEnv enclosing)
  end.

Fixpoint resolveLocal (chain : list TypeEnvironment) (name : Token) : option Ptr :=
  match chain with
  | [] => None
  | e :: enclosing =>
      match tableGet (locals e) (lexeme name) with
      | Some v => AS_OBJ v
      | None => resolveLocal enclosing name
      end
  end.

Fixpoint resolveTypeDef (chain : list TypeEnvironment) (name : Token) : option Ptr :=
  match chain with
  | [] => None
  | e :: enclosing =>
      match tableGet (typeDefs e) (lexeme name) with
      | Some v => AS_OBJ v
      | None => resolveTypeDef enclosing name
      end
  end.

Definition getVariableType (name : Token) : M (option Ptr) :=
  c <- get_state ;;
  match currentEnv c with
  | [] => fault
  | chain =>
      match resolveLocal chain name with
      | Some a => ret (Some a)
      | None =>
          match tableGet (builtinModules c) (lexeme name) with
          | Some v => ret (AS_OBJ v)
          | None => errorAt name "Undefined variable" ;; ret None
          end
      end
  end.

Definition getTypeDef (name : Token) : M (option Ptr) :=
  c <- get_state ;;
  match currentEnv c with
  | [] => fault
  | chain =>
      match resolveTypeDef chain name with
      | Some a => ret (Some a)
      | None => errorAt name "Undefined type" ;; ret None
      end
  end.

Fixpoint findGenericResolution (chain : list TypeEnvironment) (subclass : option Ptr)
  : option Ptr :=
  match chain with
  | [] => None
  | e :: enclosing =>
      match valueTableGet (genericResolutions e) (T_OBJ subclass) with
      | Some v => AS_OBJ v
      | None => findGenericResolution enclosing subclass
      end
  end.

(** *** Subtyping *)

Definition fields_of (o : TypeObj) : Table :=
  match o with
  | SimpleType _ f _ _ | InterfaceType _ f _ _ => f
  | _ => []
  end.

Definition methods_of (o : TypeObj) : Table :=
  match o with
  | SimpleType _ _ m _ | InterfaceType _ _ m _ => m
  | _ => []
  end.

Section Subtyping.
(** [isSubType] is declared before [resolveGenericArgument] and
    defined after it: calls go through [isSubType_], one unfolding of
    the recursion further down. *)
Variable isSubType_ : option Ptr -> option Ptr -> M bool.

(** The walk from the environment at [depth] outwards; [remaining]
  counts the environments from there on. *)
Fixpoint resolveGenericArgument (remaining depth : nat)
         (subclass superclass : option Ptr) : M bool :=
  match remaining with
  | O => fault
  | S enclosing =>
      c <- get_state ;;
      match nth_error (currentEnv c) depth with
      | None => fault
      | Some e =>
          match valueTableGet (genericResolutions e) (T_OBJ superclass) with
          | Some resultValue =>
              if IS_NIL resultValue then
                update_scope depth (set_resolution (T_OBJ superclass) (T_OBJ subclass)) ;;
                ret true
              else isSubType_ subclass (AS_OBJ resultValue)
          | None =>
              match enclosing with
              | O => ret false
              | S _ => resolveGenericArgument enclosing (S depth) subclass superclass
              end
          end
      end
  end.

(** [for (i...) if (!isSubType(sub[i], super[i])) return false;] over
  two arrays, the loop bound being the length of [supers]. *)
Fixpoint all_subtypes (subs supers : list TValue) {struct supers} : M bool :=
  match supers with
  | [] => ret true
  | superArg :: supers' =>
      match subs with
      | [] => fault
      | subArg :: subs' =>
          ok <- isSubType_ (AS_OBJ subArg) (AS_OBJ superArg) ;;
          if ok then all_subtypes subs' supers' else ret false
      end
  end.

(** The loop over the entries of an interface table: each key must be
  in [targets] with a subtype as value. *)
Fixpoint entries_subtypes (targets : Table) (entries : Table) : M bool :=
  match entries with
  | [] => ret true
  | (key, value) :: rest =>
      match tableGet targets key with
      | None => ret false
      | Some targetValue =>
          ok <- isSubType_ (AS_OBJ targetValue) (AS_OBJ value) ;;
          if ok then entries_subtypes targets rest else ret false
      end
  end.

Fixpoint bind_generics (depth : nat) (formals actuals : list TValue) {struct actuals}
  : M unit :=
  match actuals with
  | [] => ret tt
  | actual :: actuals' =>
      match formals with
      | [] => fault
      | formal :: formals' =>
          update_scope depth (set_resolution formal actual) ;;
          bind_generics depth formals' actuals'
      end
  end.

(** The second [switch] of [isSubType], on the kind of [superclass]. *)
Definition isSubType_super (subclass superclass : option Ptr)
           (sub sup : TypeObj) : M bool :=
  match sup with
  | SimpleType _ _ _ _ =>
      match sub with
      | SimpleType superType _ _ _ =>
          match superType with
          | None => ret false
          | Some _ => isSubType_ superType superclass
          end
      | _ => ret false
      end
  | FunctorType superArguments superReturn _ =>
      match sub with
      | FunctorType subArguments subReturn _ =>
          if negb (List.length superArguments =? List.length subArguments)%nat
          then ret false
          else
            ok <- all_subtypes subArguments superArguments ;;
            if ok then isSubType_ subReturn superReturn else ret false
      | _ => ret false
      end
  | GenericType superTarget superGenerics =>
      target <- deref superTarget ;;
      match target with
      | InterfaceType _ _ _ targetGenericArgs =>
          if negb (List.length superGenerics =? List.length targetGenericArgs)%nat
          then error "Type argument count mismatch in generic" ;; ret false
          else
            bind_generics 0 targetGenericArgs superGenerics ;;
            isSubType_ subclass superTarget
      | _ =>
          match sub with
          | GenericType subTarget subGenerics =>
              if negb (List.length subGenerics =? List.length superGenerics)%nat
              then ret false
              else
                ok <- all_subtypes subGenerics superGenerics ;;
                if ok then isSubType_ subTarget superTarget else ret false
          | _ => ret false
          end
      end
  | GenericTypeDefinition extends _ =>
      bounded <- match extends with
                 | None => ret true
                 | Some _ => isSubType_ subclass extends
                 end ;;
      if bounded then
        c <- get_state ;;
        resolveGenericArgument (List.length (currentEnv c)) 0 subclass superclass
      else ret false
  | UnionType leftType rightType =>
      l <- isSubType_ subclass leftType ;;
      if l then ret true else isSubType_ subclass rightType
  | InterfaceType _ superFields superMethods _ =>
      match sub with
      | SimpleType _ _ _ _ | InterfaceType _ _ _ _ =>
          ok <- entries_subtypes (fields_of sub) superFields ;;
          if ok then entries_subtypes (methods_of sub) superMethods else ret false
      | _ => ret false
      end
  end.

Definition isSubType_body (subclass superclass : option Ptr) : M bool :=
  c <- get_state ;;
  if ptr_eqb subclass superclass then ret true
  else if ptr_eqb superclass (neverType c) then ret false
  else if ptr_eqb superclass (anyType c) then ret true
  else
    sub <- deref subclass ;;
    decided <-
      match sub with
      | GenericType target _ =>
          ok <- isSubType_ target superclass ;;
          ret (if ok then Some true else None)
      | GenericTypeDefinition _ _ =>
          c <- get_state ;;
          match currentEnv c with
          | [] => fault
          | chain =>
              match findGenericResolution chain subclass with
              | Some inner =>
                  ok <- isSubType_ (Some inner) superclass ;;
                  ret (Some ok)
              | None => ret None
              end
          end
      | _ => ret None
      end ;;
    match decided with
    | Some answer => ret answer
    | None =>
        sup <- deref superclass ;;
        isSubType_super subclass superclass sub sup
    end.
End Subtyping.

Fixpoint isSubType (fuel : nat) (subclass superclass : option Ptr) : M bool :=
  match fuel with
  | O => out_of_fuel
  | S f => isSubType_body (isSubType f) subclass superclass
  end.


(** *** Descriptors under construction *)

Definition functor_write_argument (type : option Ptr) (v : TValue) : M unit :=
  o <- deref type ;;
  match o with
  | FunctorType arguments returnType genericArgs =>
      store type (FunctorType (writeArray arguments v) returnType genericArgs)
  | _ => fault
  end.

Definition functor_set_arguments (type : option Ptr) (arguments : list TValue) : M unit :=
  o <- deref type ;;
  match o with
  | FunctorType _ returnType genericArgs =>
      store type (FunctorType arguments returnType genericArgs)
  | _ => fault
  end.

Definition functor_set_returnType (type : option Ptr) (returnType : option Ptr) : M unit :=
  o <- deref type ;;
  match o with
  | FunctorType arguments _ genericArgs =>
      store type (FunctorType arguments returnType genericArgs)
  | _ => fault
  end.

Definition functor_set_genericArgs (type : option Ptr) (genericArgs : list TValue) : M unit :=
  o <- deref type ;;
  match o with
  | FunctorType arguments returnType _ =>
      store type (FunctorType arguments returnType genericArgs)
  | _ => fault
  end.

Definition functor_write_genericArg (type : option Ptr) (v : TValue) : M unit :=
  o <- deref type ;;
  match o with
  | FunctorType arguments returnType genericArgs =>
      store type (FunctorType arguments returnType (writeArray genericArgs v))
  | _ => fault
  end.

Definition functor_arguments (type : option Ptr) : M (list TValue) :=
  o <- deref type ;;
  match o with
  | FunctorType arguments _ _ => ret arguments
  | _ => fault
  end.

Definition functor_returnType (type : option Ptr) : M (option Ptr) :=
  o <- deref type ;;
  match o with
  | FunctorType _ returnType _ => ret returnType
  | _ => fault
  end.

(** [if (!type->returnType) type->returnType = nilType;] *)
Definition default_returnType (type : option Ptr) : M unit :=
  r <- functor_returnType type ;;
  match r with
  | Some _ => ret tt
  | None => c <- get_state ;; functor_set_returnType type (nilType c)
  end.

(** Writes to the tables of a class or an interface. *)
Definition set_member (is_method : bool) (type : option Ptr) (name : string)
           (v : TValue) : M unit :=
  o <- deref type ;;
  match o with
  | SimpleType s f m g =>
      store type (if is_method then SimpleType s f (tableSet m name v) g
                  else SimpleType s (tableSet f name v) m g)
  | InterfaceType s f m g =>
      store type (if is_method then InterfaceType s f (tableSet m name v) g
                  else InterfaceType s (tableSet f name v) m g)
  | _ => fault
  end.

Definition set_genericArgs (type : option Ptr) (genericArgs : list TValue) : M unit :=
  o <- deref type ;;
  match o with
  | SimpleType s f m _ => store type (SimpleType s f m genericArgs)
  | InterfaceType s f m _ => store type (InterfaceType s f m genericArgs)
  | _ => fault
  end.

(** [copyTable] of the parent's fields and methods, then the
    [superType] link. *)
Definition inherit (type superType : option Ptr) : M unit :=
  parent <- deref superType ;;
  o <- deref type ;;
  match o with
  | SimpleType _ f m g =>
      store type (SimpleType superType (copyTable (fields_of parent) f)
                             (copyTable (methods_of parent) m) g)
  | InterfaceType _ f m g =>
      store type (InterfaceType superType (copyTable (fields_of parent) f)
                                (copyTable (methods_of parent) m) g)
  | _ => fault
  end.

(** The tables [NODE_GET], [NODE_SET] and [NODE_SUPER] search: methods
    first, then fields. *)
Definition member_of (root : option Ptr) (name : Token) : M (option TValue) :=
  o <- deref root ;;
  match o with
  | SimpleType _ f m _ | InterfaceType _ f m _ =>
      match tableGet m (lexeme name) with
      | Some v => ret (Some v)
      | None => ret (tableGet f (lexeme name))
      end
  | _ => fault
  end.

Definition getTypeOf (value : Value) : M (option Ptr) :=
  c <- get_state ;;
  ret match value with
      | BOOL_VAL _ => boolType c
      | NIL_VAL => nilType c
      | NUMBER_VAL _ => numberType c
      | OBJ_VAL (OBJ_STRING _) => stringType c
      | OBJ_VAL (OBJ_ATOM _) => atomType c
      end.

(** The environment a function has just pushed, named by its height
    above the bottom of the chain, and the depth at which it lies now. *)
Definition height : M nat :=
  c <- get_state ;; ret (List.length (currentEnv c) - 1).

Definition depth_of (h : nat) : M nat :=
  c <- get_state ;; ret (List.length (currentEnv c) - 1 - h).

Definition scope_at_height (h : nat) : M TypeEnvironment :=
  c <- get_state ;;
  match nth_error (currentEnv c) (List.length (currentEnv c) - 1 - h) with
  | Some e => ret e
  | None => fault
  end.

Definition run_parser {A} (m : Parser.M A) : M A :=
  fun c =>
    match m (parser c) with
    | None => None
    | Some (Returns a p) => Some (Returns a (set_parser p c))
    | Some (Faults p) => Some (Faults (set_parser p c))
    end.

Definition defineLocalAndTypeDef (name : string) (type : option Ptr) : M unit :=
  o <- deref type ;;
  let initType := match tableGet (methods_of o) "init" with
                  | Some v => AS_OBJ v
                  | None => None
                  end in
  defineTypeDef 0 name type ;;
  defineLocal 0 name initType.

Definition initGlobalEnvironment : M unit :=
  c <- get_state ;;
  defineTypeDef 0 "Number" (numberType c) ;;
  defineTypeDef 0 "Nil" (nilType c) ;;
  defineTypeDef 0 "Bool" (boolType c) ;;
  defineTypeDef 0 "Atom" (atomType c) ;;
  defineTypeDef 0 "String" (stringType c) ;;
  defineTypeDef 0 "Never" (neverType c) ;;
  defineTypeDef 0 "Any" (anyType c) ;;
  defineTypeDef 0 "Task" (taskTypeDef c) ;;
  defineLocalAndTypeDef "List" (listTypeDef c) ;;
  defineLocalAndTypeDef "Map" (mapTypeDef c).

(** [makeTypes].  [createListTypeDef], [createMapTypeDef] and
    [createTaskTypeDef] live in the standard-library sources and are
    taken as arguments. *)
Definition set_singletons (number nil bool atom string_ never any list_ map_ task : option Ptr)
           (c : Checker) : Checker :=
  mkChecker (heap c) (currentEnv c) (panicMode c) (hadError c) (currentClassType c)
    (currentAssignmentType c) (currentFuncType c) [] []
    number bool nil atom string_ never any list_ map_ task (parser c) (files c).

Definition makeTypes (createListTypeDef createMapTypeDef createTaskTypeDef : M (option Ptr))
  : M unit :=
  number <- newSimpleType ;;
  nil <- newSimpleType ;;
  bool <- newSimpleType ;;
  atom <- newSimpleType ;;
  string_ <- newSimpleType ;;
  never <- newSimpleType ;;
  any <- newSimpleType ;;
  list_ <- createListTypeDef ;;
  map_ <- createMapTypeDef ;;
  task <- createTaskTypeDef ;;
  modify (set_singletons number nil bool atom string_ never any list_ map_ task).

Section Evaluate.
(** [fuel] is handed to [isSubType] and to the parser; [evaluateNode_]
    is [evaluateNode], declared at the top of the C file, one
    unfolding of the recursion further down. *)
Variable fuel : nat.
Variable evaluateNode_ : option Node -> M (option Ptr).

Fixpoint evaluateTypes (statements : list (option Node)) : M unit :=
  match statements with
  | [] => ret tt
  | stmt :: rest => evaluateNode_ stmt ;; evaluateTypes rest
  end.

(** The test [i == statements->count] never holds inside the loop, so
  [evaluateBlock] evaluates every statement and returns no value. *)
Definition evaluateBlock (statements : list (option Node)) : M (option Ptr) :=
  evaluateTypes statements ;; ret None.

Definition evaluateExprTypes (exprs : list (option Node)) : M unit :=
  evaluateTypes exprs.

Definition parseFile (path : string) : M (option Ptr) :=
  c <- get_state ;;
  match tableGet (modules c) path with
  | Some cached => ret (AS_OBJ cached)
  | None =>
      let oldEnv := currentEnv c in
      modify (set_currentEnv []) ;;
      initTypeEnvironment TYPE_SCRIPT ;;
      initGlobalEnvironment ;;
      match List.find (fun f => String.eqb (fst f) path) (files c) with
      | Some (_, text) =>
          body <- run_parser (Parser.parseAST fuel text) ;;
          match body with
          | None => fault                  (* body->count on NULL *)
          | Some statements =>
              evaluateTypes statements ;;
              type <- newSimpleType ;;
              env <- scope_at_height 0 ;;
              store type (SimpleType None (copyTable (locals env) []) [] []) ;;
              c' <- get_state ;;
              modify (set_modules (tableSet (modules c') path (T_OBJ type))
                                  (builtinModules c')) ;;
              modify (set_currentEnv oldEnv) ;;
              ret type
          end
      | None => fault                      (* no such file *)
      end
  end.

(** The loop that turns declared generic parameters into
  [GenericTypeDefinition]s and binds their names in the environment
  at height [h]. *)
Fixpoint generic_definitions (h : nat) (generics : list (option Node))
         (genericArgs : list TValue) : M (list TValue) :=
  match generics with
  | [] => ret genericArgs
  | Some (NODE_TYPEDECLARATION name _ target) :: rest =>
      extendType <- match target with
                    | Some _ => evaluateNode_ target
                    | None => ret None
                    end ;;
      argType <- ALLOCATE_OBJ (GenericTypeDefinition extendType name) ;;
      d <- depth_of h ;;
      defineTypeDef d (lexeme name) argType ;;
      generic_definitions h rest (writeArray genericArgs (T_OBJ argType))
  | _ :: _ => fault
  end.

(** The parameter loop of [NODE_FUNCTION] and of class methods. *)
Fixpoint function_parameters (type : option Ptr) (params : list Node) : M unit :=
  match params with
  | [] => ret tt
  | NODE_POSITIONAL name typeNode :: rest =>
      argType <- match typeNode with
                 | Some _ => evaluateNode_ typeNode
                 | None => c <- get_state ;; ret (anyType c)
                 end ;;
      functor_write_argument type (T_OBJ argType) ;;
      defineLocal 0 (lexeme name) argType ;;
      function_parameters type rest
  | _ :: _ => fault
  end.

(** The parameter loop of [NODE_LAMBDA]: the annotations come from the
  functor node; a parameter without one gets [NIL_VAL] and no
  binding. *)
Fixpoint lambda_parameters (type : option Ptr) (params : list Node)
         (typeNodes : list (option Node)) : M unit :=
  match params with
  | [] => ret tt
  | param :: rest =>
      match typeNodes with
      | [] => fault
      | typeNode :: typeNodes' =>
          match typeNode with
          | Some _ =>
              argType <- evaluateNode_ typeNode ;;
              functor_write_argument type (T_OBJ argType) ;;
              match param with
              | NODE_POSITIONAL name _ => defineLocal 0 (lexeme name) argType
              | _ => fault
              end
          | None => functor_write_argument type T_NIL
          end ;;
          lambda_parameters type rest typeNodes'
      end
  end.

(** The parameter loop of a method signature in an interface. *)
Fixpoint signature_parameters (type : option Ptr) (params : list Node) : M unit :=
  match params with
  | [] => ret tt
  | NODE_POSITIONAL name typeNode :: rest =>
      argType <- match typeNode with
                 | Some _ => evaluateNode_ typeNode
                 | None => c <- get_state ;; ret (anyType c)
                 end ;;
      functor_write_argument type (T_OBJ argType) ;;
      signature_parameters type rest
  | _ :: _ => fault
  end.

(** The argument loop of [NODE_CALL]; [i] is the index of the first
  argument of [arguments]. *)
Fixpoint call_arguments (callee : option Ptr) (paren : Token) (i : nat)
         (arguments : list (option Node)) : M bool :=
  match arguments with
  | [] => ret true
  | argument :: rest =>
      argType <- evaluateNode_ argument ;;
      formals <- functor_arguments callee ;;
      match nth_error formals i with
      | None => fault                      (* values[i] past the array *)
      | Some formal =>
          ok <- isSubType fuel argType (AS_OBJ formal) ;;
          if negb ok then
            isSubType fuel argType (AS_OBJ formal) ;;
            errorAt paren "Type mismatch" ;;
            ret false
          else call_arguments callee paren (S i) rest
      end
  end.

Fixpoint seed_resolutions (genericArgs : list TValue) : M unit :=
  match genericArgs with
  | [] => ret tt
  | g :: rest => update_scope 0 (set_resolution g T_NIL) ;; seed_resolutions rest
  end.

Fixpoint evaluate_all (nodes : list (option Node)) (acc : list TValue) : M (list TValue) :=
  match nodes with
  | [] => ret acc
  | n :: rest =>
      t <- evaluateNode_ n ;;
      evaluate_all rest (writeArray acc (T_OBJ t))
  end.

Fixpoint list_items_subtypes (bracket : Token) (itemType : option Ptr)
         (items : list (option Node)) : M unit :=
  match items with
  | [] => ret tt
  | item :: rest =>
      evalType <- evaluateNode_ item ;;
      ok <- isSubType fuel evalType itemType ;;
      (if negb ok then errorAt bracket "Type mismatch, incompatible types" else ret tt) ;;
      list_items_subtypes bracket itemType rest
  end.

Fixpoint map_items_subtypes (brace : Token) (keyType valueType : option Ptr)
         (keys values : list (option Node)) : M unit :=
  match keys with
  | [] => ret tt
  | key :: keys' =>
      match values with
      | [] => fault
      | value :: values' =>
          modify (set_currentAssignmentType keyType) ;;
          evalType <- evaluateNode_ key ;;
          ok <- isSubType fuel evalType keyType ;;
          (if negb ok then errorAt brace "Map key type mismatch, incompatible types"
           else ret tt) ;;
          modify (set_currentAssignmentType valueType) ;;
          evalType <- evaluateNode_ value ;;
          ok <- isSubType fuel evalType valueType ;;
          (if negb ok then errorAt brace "Map value type mismatch, incompatible types"
           else ret tt) ;;
          map_items_subtypes brace keyType valueType keys' values'
      end
  end.

(** One member of a class body. *)
Definition class_member (classType classFunctionType : option Ptr)
           (stmt : option Node) : M unit :=
  match stmt with
  | None => fault
  | Some (NODE_FUNCTION name functionType params returnType _ body) =>
      initTypeEnvironment functionType ;;
      defineLocal 0 "this" classType ;;
      type <- newFunctorType ;;
      c <- get_state ;;
      let oldFuncType := currentFuncType c in
      modify (set_currentFuncType type) ;;
      function_parameters type params ;;
      set_member true classType (lexeme name) (T_OBJ type) ;;
      match functionType with
      | TYPE_INITIALIZER =>
          functor_set_returnType type classType ;;
          arguments <- functor_arguments type ;;
          functor_set_arguments classFunctionType arguments
      | _ =>
          r <- evaluateNode_ returnType ;;
          functor_set_returnType type r
      end ;;
      evaluateTypes body ;;
      default_returnType type ;;
      leave_environment ;;
      modify (set_currentFuncType oldFuncType)
  | Some (NODE_VAR name annotation initializer _) =>
      type <- evaluateNode_ annotation ;;
      match initializer with
      | Some _ =>
          valType <- evaluateNode_ initializer ;;
          ok <- isSubType fuel type valType ;;
          if negb ok then errorAt name "Type mismatch." else ret tt
      | None => ret tt
      end ;;
      set_member false classType (lexeme name) (T_OBJ type)
  | Some _ => fault
  end.

Fixpoint class_body (classType classFunctionType : option Ptr)
         (body : list (option Node)) : M unit :=
  match body with
  | [] => ret tt
  | stmt :: rest =>
      class_member classType classFunctionType stmt ;;
      class_body classType classFunctionType rest
  end.

Definition interface_member (interfaceType : option Ptr) (stmt : option Node) : M unit :=
  match stmt with
  | None => fault
  | Some (NODE_METHODSIG name functionType params returnType _) =>
      type <- newFunctorType ;;
      signature_parameters type params ;;
      set_member true interfaceType (lexeme name) (T_OBJ type) ;;
      match functionType with
      | TYPE_INITIALIZER => functor_set_returnType type interfaceType
      | _ =>
          r <- evaluateNode_ returnType ;;
          functor_set_returnType type r
      end ;;
      default_returnType type
  | Some (NODE_VAR name annotation _ _) =>
      type <- evaluateNode_ annotation ;;
      set_member false interfaceType (lexeme name) (T_OBJ type)
  | Some _ => fault
  end.

Fixpoint interface_body (interfaceType : option Ptr) (body : list (option Node)) : M unit :=
  match body with
  | [] => ret tt
  | stmt :: rest =>
      interface_member interfaceType stmt ;;
      interface_body interfaceType rest
  end.

(** The name read through a [struct Variable*]. *)
Definition name_of (node : option Node) : M Token :=
  match node with
  | Some (NODE_VARIABLE name) => ret name
  | Some (NODE_VAR name _ _ _) => ret name
  | _ => fault
  end.

Definition evaluateNode_body (node : option Node) : M (option Ptr) :=
  match node with
  | None => ret None
  | Some (NODE_BINARY l _ r) =>
      evaluateNode_ r ;;
      evaluateNode_ l
  | Some (NODE_GROUPING expression) =>
      evaluateNode_ expression ;;
      match expression with
      | None => fault                      (* casted->expression->type *)
      | Some _ => ret None
      end
  | Some (NODE_LITERAL value) => getTypeOf value
  | Some (NODE_UNARY operator r) =>
      rightType <- evaluateNode_ r ;;
      match type operator with
      | TOKEN_BANG => getTypeOf (BOOL_VAL true)
      | TOKEN_MINUS => ret rightType
      | _ => ret None
      end
  | Some (NODE_VARIABLE name) => getVariableType name
  | Some (NODE_ASSIGN name value) =>
      valueType <- evaluateNode_ value ;;
      namedType <- getVariableType name ;;
      ok <- isSubType fuel valueType namedType ;;
      (if negb ok then errorAt name "Type mismatch" else ret tt) ;;
      ret match namedType with Some _ => namedType | None => valueType end
  | Some (NODE_LOGICAL l _ r) =>
      evaluateNode_ l ;;
      evaluateNode_ r ;;
      getTypeOf (BOOL_VAL true)
  | Some (NODE_CALL callee paren arguments) =>
      calleeType <- evaluateNode_ callee ;;
      calleeFunctor <- deref calleeType ;;
      match calleeFunctor with
      | FunctorType _ _ genericArgs =>
          initTypeEnvironment TYPE_FUNCTION ;;
          seed_resolutions genericArgs ;;
          ok <- call_arguments calleeType paren 0 arguments ;;
          if ok then
            returnType <- functor_returnType calleeType ;;
            leave_environment ;;
            ret returnType
          else ret None
      | _ => errorAt paren "Type is not callable" ;; ret None
      end
  | Some (NODE_GETITEM object index) =>
      objectType <- evaluateNode_ object ;;
      c <- get_state ;;
      is_list <- isSubType fuel objectType (listTypeDef c) ;;
      if is_list then
        indexType <- evaluateNode_ index ;;
        c <- get_state ;;
        ok <- isSubType fuel indexType (numberType c) ;;
        if negb ok then error "Index must be a number" ;; ret None
        else
          genericType <- deref objectType ;;
          match genericType with
          | GenericType _ [] => c <- get_state ;; ret (neverType c)
          | GenericType _ (item :: _) => ret (AS_OBJ item)
          | _ => fault
          end
      else
        c <- get_state ;;
        is_map <- isSubType fuel objectType (mapTypeDef c) ;;
        if is_map then
          indexType <- evaluateNode_ index ;;
          genericType <- deref objectType ;;
          match genericType with
          | GenericType _ [] => fault          (* generics.values[0] *)
          | GenericType _ (key :: rest) =>
              ok <- isSubType fuel indexType (AS_OBJ key) ;;
              if negb ok then error "Key type mismatch" ;; ret None
              else match rest with
                   | value :: _ => ret (AS_OBJ value)
                   | [] => fault
                   end
          | _ => fault
          end
        else
          error "Cannot get item on something other than a list or map" ;;
          ret None
  | Some (NODE_GET object name) =>
      objectType <- evaluateNode_ object ;;
      o <- deref objectType ;;
      match o with
      | SimpleType _ _ _ _ | InterfaceType _ _ _ _ | GenericType _ _ =>
          let rootType := match o with
                          | GenericType target _ => target
                          | _ => objectType
                          end in
          found <- member_of rootType name ;;
          match found with
          | Some fieldType => ret (AS_OBJ fieldType)
          | None => errorAt name "Invalid field" ;; ret None
          end
      | GenericTypeDefinition extends _ =>
          match extends with
          | None =>
              errorAt name "Attempting to get from invalid generic type." ;;
              ret None
          | Some _ =>
              found <- member_of extends name ;;
              match found with
              | Some fieldType => ret (AS_OBJ fieldType)
              | None => errorAt name "Invalid field" ;; ret None
              end
          end
      | _ =>
          errorAt name "Attempting to get from invalid type." ;;
          fault                            (* rootType is used unset *)
      end
  | Some (NODE_SET object name value) =>
      valueType <- evaluateNode_ value ;;
      objectType <- evaluateNode_ object ;;
      o <- deref objectType ;;
      let rootType := match o with
                      | GenericType target _ => target
                      | _ => objectType
                      end in
      found <- member_of rootType name ;;
      (match found with
       | Some _ => ret tt
       | None => errorAt name "Invalid field"
       end) ;;
      let fieldType := match found with Some v => AS_OBJ v | None => None end in
      ok <- isSubType fuel valueType fieldType ;;
      (if negb ok then error "Type mismatch in setter" else ret tt) ;;
      ret fieldType
  | Some (NODE_SUPER _ method) =>
      c <- get_state ;;
      currentClass <- deref (currentClassType c) ;;
      match currentClass with
      | SimpleType superType _ _ _ =>
          found <- member_of superType method ;;
          match found with
          | Some fieldType => ret (AS_OBJ fieldType)
          | None => errorAt method "Invalid field" ;; ret None
          end
      | _ => fault
      end
  | Some NODE_THIS => c <- get_state ;; ret (currentClassType c)
  | Some (NODE_YIELD expression) =>
      evaluateNode_ expression ;;
      c <- get_state ;; ret (anyType c)
  | Some (NODE_LAMBDA params body generics signature) =>
      initTypeEnvironment TYPE_FUNCTION ;;
      h <- height ;;
      generic_definitions h generics [] ;;
      type <- newFunctorType ;;
      c <- get_state ;;
      let oldFuncType := currentFuncType c in
      modify (set_currentFuncType type) ;;
      match signature with
      | Some (NODE_FUNCTOR typeNodes returnType _) =>
          lambda_parameters type params typeNodes ;;
          r <- evaluateNode_ returnType ;;
          functor_set_returnType type r ;;
          evaluateTypes body ;;
          default_returnType type ;;
          leave_environment ;;
          modify (set_currentFuncType oldFuncType) ;;
          ret type
      | _ => fault
      end
  | Some (NODE_LIST bracket items) =>
      c <- get_state ;;
      match currentAssignmentType c with
      | None =>
          type <- newGenericType ;;
          itemType <-
            match items with
            | [] => ret (neverType c)
            | first :: others =>
                (match others with
                 | [] => ret tt
                 | _ => evaluateExprTypes items
                 end) ;;
                evaluateNode_ first
            end ;;
          c' <- get_state ;;
          store type (GenericType (listTypeDef c') [T_OBJ itemType]) ;;
          ret type
      | Some _ =>
          let type := currentAssignmentType c in
          o <- deref type ;;
          match o with
          | GenericType target generics =>
              compatible <- isSubType fuel (listTypeDef c) target ;;
              if negb compatible then
                errorAt bracket "Type mismatch, incompatible type" ;; ret type
              else
                match generics with
                | [item] =>
                    let itemType := AS_OBJ item in
                    modify (set_currentAssignmentType itemType) ;;
                    list_items_subtypes bracket itemType items ;;
                    modify (set_currentAssignmentType type) ;;
                    ret type
                | _ =>
                    errorAt bracket "Type mismatch, missing type annotation" ;;
                    ret type
                end
          | _ => errorAt bracket "Type mismatch" ;; ret type
          end
      end
  | Some (NODE_MAP brace keys values) =>
      c <- get_state ;;
      let type := currentAssignmentType c in
      o <- deref type ;;                   (* type->target on NULL faults *)
      match o with
      | GenericType _ generics =>
          store type (GenericType (mapTypeDef c) generics) ;;
          compatible <- isSubType fuel (mapTypeDef c) (mapTypeDef c) ;;
          if negb compatible then
            errorAt brace "Type mismatch, incompatible type" ;; ret type
          else
            match generics with
            | [key; value] =>
                map_items_subtypes brace (AS_OBJ key) (AS_OBJ value) keys values ;;
                modify (set_currentAssignmentType type) ;;
                ret type
            | _ =>
                errorAt brace "Type mismatch, missing type annotation" ;;
                ret type
            end
      | _ => fault                         (* the write goes through a mistyped pointer *)
      end
  | Some (NODE_EXPRESSION _ expression) => evaluateNode_ expression
  | Some (NODE_VAR name annotation initializer _) =>
      varType <- evaluateNode_ annotation ;;
      varType <-
        match initializer with
        | None => ret varType
        | Some _ =>
            c <- get_state ;;
            let oldAssignmentType := currentAssignmentType c in
            modify (set_currentAssignmentType varType) ;;
            valType <- evaluateNode_ initializer ;;
            varType <-
              match varType with
              | Some _ =>
                  ok <- isSubType fuel valType varType ;;
                  (if negb ok then
                     isSubType fuel valType varType ;;
                     errorAt name "Type mismatch in var"
                   else ret tt) ;;
                  ret varType
              | None => ret valType
              end ;;
            modify (set_currentAssignmentType oldAssignmentType) ;;
            ret varType
        end ;;
      defineLocal 0 (lexeme name) varType ;;
      ret None
  | Some (NODE_BLOCK statements) => evaluateBlock statements
  | Some (NODE_FUNCTION name functionType params returnType generics body) =>
      initTypeEnvironment functionType ;;
      h <- height ;;
      genericArgs <- generic_definitions h generics [] ;;
      c <- get_state ;;
      let oldFuncType := currentFuncType c in
      type <- newFunctorType ;;
      functor_set_genericArgs type genericArgs ;;
      modify (set_currentFuncType type) ;;
      function_parameters type params ;;
      r <- evaluateNode_ returnType ;;
      functor_set_returnType type r ;;
      evaluateTypes body ;;
      default_returnType type ;;
      leave_environment ;;
      defineLocal 0 (lexeme name) type ;;
      modify (set_currentFuncType oldFuncType) ;;
      ret type
  | Some (NODE_CLASS name superclass generics body) =>
      classType <- newSimpleType ;;
      c <- get_state ;;
      let oldClass := currentClassType c in
      modify (set_currentClassType classType) ;;
      classFunctionType <- newFunctorType ;;
      initTypeEnvironment TYPE_INITIALIZER ;;
      h <- height ;;
      genericArgs <- generic_definitions h generics [] ;;
      set_genericArgs classType genericArgs ;;
      match superclass with
      | None => ret tt
      | Some _ =>
          superName <- name_of superclass ;;
          superType <- getTypeDef superName ;;
          inherit classType superType
      end ;;
      class_body classType classFunctionType body ;;
      functor_set_returnType classFunctionType classType ;;
      leave_environment ;;
      defineLocal 0 (lexeme name) classFunctionType ;;
      defineTypeDef 0 (lexeme name) classType ;;
      modify (set_currentClassType oldClass) ;;
      ret classType
  | Some (NODE_IF condition thenBranch elseBranch) =>
      evaluateNode_ condition ;;
      result <- evaluateNode_ thenBranch ;;
      evaluateNode_ elseBranch ;;
      ret result
  | Some (NODE_WHILE condition body) =>
      evaluateNode_ condition ;;
      evaluateNode_ body ;;
      ret None
  | Some (NODE_FOR initializer condition increment body) =>
      evaluateNode_ initializer ;;
      evaluateNode_ condition ;;
      evaluateNode_ increment ;;
      evaluateNode_ body ;;
      ret None
  | Some NODE_BREAK => ret None
  | Some (NODE_RETURN keyword value) =>
      valueType <- evaluateNode_ value ;;
      c <- get_state ;;
      declared <- functor_returnType (currentFuncType c) ;;
      match declared with
      | Some _ =>
          ok <- isSubType fuel valueType declared ;;
          if negb ok then errorAt keyword "Return type mismatch" else ret tt
      | None => functor_set_returnType (currentFuncType c) valueType
      end ;;
      ret valueType
  | Some (NODE_IMPORT expression name) =>
      match expression with
      | Some (NODE_LITERAL (OBJ_VAL (OBJ_STRING chars))) =>
          type <- parseFile chars ;;
          defineLocal 0 (lexeme name) type ;;
          ret None
      | _ => fault
      end
  | Some (NODE_FUNCTOR arguments returnType generics) =>
      type <- newFunctorType ;;
      initTypeEnvironment TYPE_FUNCTION ;;
      (fix functor_generics (generics : list (option Node)) : M unit :=
         match generics with
         | [] => ret tt
         | Some (NODE_TYPEDECLARATION name _ _) :: rest =>
             argType <- ALLOCATE_OBJ (GenericTypeDefinition None name) ;;
             functor_write_genericArg type (T_OBJ argType) ;;
             defineTypeDef 0 (lexeme name) argType ;;
             functor_generics rest
         | _ :: _ => fault
         end) generics ;;
      (fix functor_arguments_ (arguments : list (option Node)) : M unit :=
         match arguments with
         | [] => ret tt
         | typeNode :: rest =>
             match typeNode with
             | Some _ =>
                 argType <- evaluateNode_ typeNode ;;
                 functor_write_argument type (T_OBJ argType)
             | None => functor_write_argument type T_NIL
             end ;;
             functor_arguments_ rest
         end) arguments ;;
      r <- evaluateNode_ returnType ;;
      functor_set_returnType type r ;;
      leave_environment ;;
      ret type
  | Some (NODE_SIMPLE name generics) =>
      type <- getTypeDef name ;;
      match generics with
      | [] => ret type
      | _ =>
          genericType <- newGenericType ;;
          arguments <- evaluate_all generics [] ;;
          store genericType (GenericType type arguments) ;;
          ret genericType
      end
  | Some (NODE_UNION l r) =>
      type <- newUnionType ;;
      leftType <- evaluateNode_ l ;;
      store type (UnionType leftType None) ;;
      rightType <- evaluateNode_ r ;;
      store type (UnionType leftType rightType) ;;
      ret type
  | Some (NODE_INTERFACE name superType generics body) =>
      interfaceType <- newInterfaceType ;;
      defineTypeDef 0 (lexeme name) interfaceType ;;
      proceed <-
        match superType with
        | None => ret true
        | Some _ =>
            superName <- name_of superType ;;
            parent <- getTypeDef superName ;;
            o <- deref parent ;;
            match o with
            | InterfaceType _ _ _ _ => inherit interfaceType parent ;; ret true
            | _ =>
                errorAt superName "Parent type for interface may only be an interface." ;;
                ret false
            end
        end ;;
      if proceed then
        initTypeEnvironment TYPE_INITIALIZER ;;
        h <- height ;;
        genericArgs <- generic_definitions h generics [] ;;
        set_genericArgs interfaceType genericArgs ;;
        interface_body interfaceType body ;;
        leave_environment ;;
        ret None
      else ret None
  | Some (NODE_TYPEDECLARATION name generics target) =>
      initTypeEnvironment TYPE_INITIALIZER ;;
      h <- height ;;
      generic_definitions h generics [] ;;
      result <- evaluateNode_ target ;;
      leave_environment ;;
      defineTypeDef 0 (lexeme name) result ;;
      ret None
  | Some NODE_ENUM => ret None
  | Some NODE_ENUMITEM => ret None
  | Some (NODE_METHODSIG _ _ _ _ _) => ret None
  | Some (NODE_POSITIONAL _ _) => ret None
  end.

Definition evaluateTree_body (statements : list (option Node)) : M unit :=
  initTypeEnvironment TYPE_SCRIPT ;;
  h <- height ;;
  initGlobalEnvironment ;;
  evaluateTypes statements ;;
  (* currentEnv = typeEnv.enclosing *)
  modify (fun c => set_currentEnv (skipn (List.length (currentEnv c) - h) (currentEnv c)) c).
End Evaluate.

Fixpoint evaluateNode (fuel : nat) (node : option Node) : M (option Ptr) :=
  match fuel with
  | O => out_of_fuel
  | S f => evaluateNode_body (S f) (evaluateNode f) node
  end.

Definition evaluateTree (fuel : nat) (statements : list (option Node)) : M unit :=
  evaluateTree_body (evaluateNode fuel) statements.

(** The checker before [makeTypes]. *)
Definition initial : Checker :=
  mkChecker [] [] false false None None None [] []
            None None None None None None None None None None
            Parser.initial [].


(** *** Vocabulary for the properties *)

(** What [makeTypes] establishes about [Never] and [Any]: two distinct
    addresses, each of a [SimpleType], [Never] without a supertype. *)
Definition singletons_made (c : Checker) : bool :=
  match neverType c, anyType c with
  | Some never, Some any =>
      negb (Nat.eqb never any) &&
      match nth_error (heap c) never, nth_error (heap c) any with
      | Some (SimpleType None _ _ _), Some (SimpleType _ _ _ _) => true
      | _, _ => false
      end
  | _, _ => false
  end.

(** [accepts a b c c']: started in [c], [isSubType(a, b)] returns true
    and leaves the checker in [c']. *)
Definition accepts (a b : option Ptr) (c c' : Checker) : Prop :=
  exists fuel, isSubType fuel a b c = Some (Returns true c').

(** [pairwise holds subs supers c c']: the two arrays have the same
    length and [holds] relates their elements position by position, each
    check starting in the state the one before it left. *)
Inductive pairwise (holds : option Ptr -> option Ptr -> Checker -> Checker -> Prop)
  : list TValue -> list TValue -> Checker -> Checker -> Prop :=
| pairwise_nil c : pairwise holds [] [] c c
| pairwise_cons a b subs supers c c1 c2 :
    holds (AS_OBJ a) (AS_OBJ b) c c1 ->
    pairwise holds subs supers c1 c2 ->
    pairwise holds (a :: subs) (b :: supers) c c2.

(** [same_types c0 c]: the descriptors and the two singletons of [c]
    are those of [c0]. *)
Definition same_types (c0 c : Checker) : Prop :=
  heap c = heap c0 /\ neverType c = neverType c0 /\ anyType c = anyType c0.

(** Left sides that are neither functors nor unwrapped by the first
    [switch] of [isSubType]: Simple, Union and Interface. *)
Definition unwrapped_left (o : TypeObj) : bool :=
  match o with
  | GenericType _ _ | GenericTypeDefinition _ _ | FunctorType _ _ _ => false
  | _ => true
  end.

(** The kind of the descriptor at an address, if there is one. *)
Definition kind_at (c : Checker) (p : Ptr) : option ObjType :=
  option_map obj_type (nth_error (heap c) p).

(** [rejects a b c c']: started in [c], [isSubType(a, b)] returns false
    and leaves the checker in [c']. *)
Definition rejects (a b : option Ptr) (c c' : Checker) : Prop :=
  exists fuel, isSubType fuel a b c = Some (Returns false c').

(** [reaches c a b]: the descriptor at [b] is met on the way up from
    [a], a step being the supertype link of a class, the target of a
    generic application, or the resolution a generic parameter has in
    the current environments. *)
Inductive reaches (c : Checker) : option Ptr -> Ptr -> Prop :=
| reaches_here (b : Ptr) : reaches c (Some b) b
| reaches_super (a : Ptr) s f m g (b : Ptr) :
    nth_error (heap c) a = Some (SimpleType s f m g) ->
    reaches c s b -> reaches c (Some a) b
| reaches_target (a : Ptr) target generics (b : Ptr) :
    nth_error (heap c) a = Some (GenericType target generics) ->
    reaches c target b -> reaches c (Some a) b
| reaches_resolution (a : Ptr) e n (inner b : Ptr) :
    nth_error (heap c) a = Some (GenericTypeDefinition e n) ->
    findGenericResolution (currentEnv c) (Some a) = Some inner ->
    reaches c (Some inner) b -> reaches c (Some a) b.

(** Left sides the first [switch] of [isSubType] passes over: every
    kind but a generic application and a generic parameter. *)
Definition passed_over (o : TypeObj) : bool :=
  match o with
  | GenericType _ _ | GenericTypeDefinition _ _ => false
  | _ => true
  end.


(** What a subtype check has no business with: the descriptors, the
    module tables, the singletons, the class, assignment and function
    being checked, and the files. *)
Definition globals (c : Checker) :=
  (heap c, modules c, builtinModules c,
   [numberType c; boolType c; nilType c; atomType c; stringType c; neverType c;
    anyType c; listTypeDef c; mapTypeDef c; taskTypeDef c],
   [currentClassType c; currentAssignmentType c; currentFuncType c],
   files c).

(** Two environments that differ in their generic resolutions at most. *)
Definition same_scope (e e' : TypeEnvironment) : Prop :=
  env_type e' = env_type e /\ locals e' = locals e /\ typeDefs e' = typeDefs e.

(** [resolutions_only c c']: from [c] to [c'] nothing changed but
    generic resolutions, and the only diagnostic that may have been
    printed is the count mismatch of a generic application. *)
Definition resolutions_only (c c' : Checker) : Prop :=
  globals c' = globals c /\
  Forall2 same_scope (currentEnv c) (currentEnv c') /\
  forall d, In d (stderr c') ->
            In d (stderr c) \/
            Parser.d_message d = "Type argument count mismatch in generic".

(** The descriptor a pointer leads to, if it leads to one. *)
Definition readable (c : Checker) (p : option Ptr) : option TypeObj :=
  match p with
  | Some a => nth_error (heap c) a
  | None => None
  end.


(** The checker in panic mode. *)
Definition panicking (c : Checker) : Prop := panicMode c = true.

End Types.

(** * The task scheduler ([src/libc/async.c]) *)

Module Async.

Inductive YieldType : Type := SLEEP | WAIT_IO_READ | WAIT_IO_WRITE.

(** The values of the enumeration: 1, 2 and 4. *)
Definition yield_code (y : YieldType) : Z :=
  match y with SLEEP => 1 | WAIT_IO_READ => 2 | WAIT_IO_WRITE => 4 end%Z.

(** Run-time values, as far as the scheduler looks at them.  A number
    is a rational here; an object is a list, a call frame (by address)
    or something else. *)
#[local] Unset Elimination Schemes.
Inductive RValue : Type :=
| R_NIL
| R_BOOL (b : bool)
| R_NUMBER (n : Q)
| R_LIST (items : list RValue)
| R_FRAME (frame : nat)
| R_OBJ.
#[local] Set Elimination Schemes.


Definition IS_NUMBER (v : RValue) : bool :=
  match v with R_NUMBER _ => true | _ => false end.

Definition is_nil (v : RValue) : bool :=          (* valuesEqual(v, NIL_VAL) *)
  match v with R_NIL => true | _ => false end.

(** [AS_NUMBER] reads the number member of the union; the bits of
    another member, read as a double, truncate to zero. *)
Definition AS_NUMBER (v : RValue) : Q :=
  match v with R_NUMBER n => n | _ => 0%Q end.

(** [trunc]: towards zero. *)
Definition trunc (x : Q) : Z := Z.quot (Qnum x) (Zpos (Qden x)).

(** [int op = trunc(...)]: the conversion of a double to a 32-bit
    [int].  Inside the range of [int] it is the truncated value.
    Outside, C leaves the result undefined; the conversion instruction
    of the x86-64 build gives [INT_MIN]. *)
Definition INT_MIN : Z := (-2147483648)%Z.
Definition INT_MAX : Z := 2147483647%Z.

Definition double_to_int (x : Q) : Z :=
  let z := trunc x in
  if andb (INT_MIN <=? z)%Z (z <=? INT_MAX)%Z then z else INT_MIN.

Definition Qltb (a b : Q) : bool := negb (Qle_bool b a).

(** Modelled from the spec: a directive is a list [[op, arg]] and a
    parked frame is removed from the ready queue.  [getListItem] and
    [popValueArray] live with the list and value sources: the item at an
    index ([NIL_VAL] outside the list), and the array without the
    element at an index. *)
Definition getListItem (items : list RValue) (index : nat) : RValue :=
  nth index items R_NIL.

Fixpoint popValueArray {A} (array : list A) (index : nat) : list A :=
  match array, index with
  | [], _ => []
  | _ :: rest, O => rest
  | x :: rest, S i => x :: popValueArray rest i
  end.

Inductive FrameState : Type := SPAWNED | RUNNING | WAITING | DONE.

(** The fields of [ObjCallFrame] that the scheduler touches. *)
Record ObjCallFrame : Type := mkFrame {
  state : FrameState;
  stored : RValue;
  index : nat
}.

(** [vm.tasks], [vm.currentTask], [currentFrame], the six arrays of
    [asyncHandler], the frames in memory, and the world: the readings
    [getTime] will give, the descriptors [select] will find ready,
    whether [select] fails, and the runtime errors reported. *)
Record VM : Type := mkVM {
  tasks : list RValue;
  currentTask : nat;
  currentFrame : nat;
  sleepers : list RValue;
  sleeper_times : list RValue;
  readers : list RValue;
  reader_fds : list RValue;
  writers : list RValue;
  writer_fds : list RValue;
  frames : list ObjCallFrame;
  clock : list Q;
  readable : list Z;
  writable : list Z;
  select_fails : bool;
  errors : list string
}.

Definition M (A : Type) : Type := Run VM A.

Definition set_tasks (l : list RValue) (v : VM) : VM :=
  mkVM l (currentTask v) (currentFrame v) (sleepers v) (sleeper_times v) (readers v)
       (reader_fds v) (writers v) (writer_fds v) (frames v) (clock v) (readable v)
       (writable v) (select_fails v) (errors v).
Definition set_currentTask (n : nat) (v : VM) : VM :=
  mkVM (tasks v) n (currentFrame v) (sleepers v) (sleeper_times v) (readers v)
       (reader_fds v) (writers v) (writer_fds v) (frames v) (clock v) (readable v)
       (writable v) (select_fails v) (errors v).
Definition set_sleepers (s t : list RValue) (v : VM) : VM :=
  mkVM (tasks v) (currentTask v) (currentFrame v) s t (readers v)
       (reader_fds v) (writers v) (writer_fds v) (frames v) (clock v) (readable v)
       (writable v) (select_fails v) (errors v).
Definition set_readers (r f : list RValue) (v : VM) : VM :=
  mkVM (tasks v) (currentTask v) (currentFrame v) (sleepers v) (sleeper_times v) r
       f (writers v) (writer_fds v) (frames v) (clock v) (readable v)
       (writable v) (select_fails v) (errors v).
Definition set_writers (w f : list RValue) (v : VM) : VM :=
  mkVM (tasks v) (currentTask v) (currentFrame v) (sleepers v) (sleeper_times v)
       (readers v) (reader_fds v) w f (frames v) (clock v) (readable v)
       (writable v) (select_fails v) (errors v).
Definition set_frames (f : list ObjCallFrame) (v : VM) : VM :=
  mkVM (tasks v) (currentTask v) (currentFrame v) (sleepers v) (sleeper_times v)
       (readers v) (reader_fds v) (writers v) (writer_fds v) f (clock v) (readable v)
       (writable v) (select_fails v) (errors v).
Definition set_clock (k : list Q) (v : VM) : VM :=
  mkVM (tasks v) (currentTask v) (currentFrame v) (sleepers v) (sleeper_times v)
       (readers v) (reader_fds v) (writers v) (writer_fds v) (frames v) k (readable v)
       (writable v) (select_fails v) (errors v).
Definition set_errors (e : list string) (v : VM) : VM :=
  mkVM (tasks v) (currentTask v) (currentFrame v) (sleepers v) (sleeper_times v)
       (readers v) (reader_fds v) (writers v) (writer_fds v) (frames v) (clock v)
       (readable v) (writable v) (select_fails v) e.

(** Modelled from the spec: [getTime] is the wall clock in seconds (its
    source is with the time module).  Each call takes the next reading
    of the clock; the last one stays. *)
Definition getTime : M Q :=
  v <- get_state ;;
  match clock v with
  | [] => ret 0%Q
  | [t] => ret t
  | t :: later => modify (set_clock later) ;; ret t
  end.

(** Modelled from the spec: [runtimeError] (its source is with the
    virtual machine) raises a runtime error; the message, formatted, is
    recorded. *)
Definition runtimeError (message : string) : M unit :=
  modify (fun v => set_errors (errors v ++ [message]) v).

Definition show_int (n : Z) : string :=
  DecimalString.NilZero.string_of_int (Z.to_int n).

(** [AS_CALL_FRAME(value)->stored = BOOL_VAL(true)] *)
Definition wake (value : RValue) : M unit :=
  match value with
  | R_FRAME a =>
      v <- get_state ;;
      match nth_error (frames v) a with
      | Some f =>
          modify (set_frames (array_set a (mkFrame (state f) (R_BOOL true) (index f))
                                        (frames v)))
      | None => fault
      end
  | _ => fault
  end.

(** Reading [array.values[i]]; past the end of the array is a fault. *)
Definition value_at (array : list RValue) (i : nat) : M RValue :=
  match nth_error array i with
  | Some x => ret x
  | None => fault
  end.

(** The sleeper loop of [getTasks], from index [i], with fuel for
    [steps] iterations:
    [for (; i < sleepers.count; i++) if (times[i] < getTime()) { ...; i--; }] *)
Fixpoint wake_sleepers (steps i : nat) (found : Z) : M Z :=
  v <- get_state ;;
  if (i <? List.length (sleepers v))%nat then
    match steps with
    | O => out_of_fuel
    | S steps' =>
        time <- value_at (sleeper_times v) i ;;
        now <- getTime ;;
        if Qltb (AS_NUMBER time) now then
          v <- get_state ;;
          modify (set_sleepers (sleepers v) (popValueArray (sleeper_times v) i)) ;;
          sleeper <- value_at (sleepers v) i ;;
          wake sleeper ;;
          modify (fun v => set_tasks (writeArray (tasks v) sleeper) v) ;;
          modify (fun v => set_sleepers (popValueArray (sleepers v) i) (sleeper_times v) v) ;;
          wake_sleepers steps' i 1%Z
        else wake_sleepers steps' (S i) found
    end
  else ret found.

Definition fd_of (value : RValue) : Z := trunc (AS_NUMBER value).

Definition FD_ISSET (fd : Z) (set : list Z) : bool :=
  existsb (Z.eqb fd) set.

(** [select(INT_MAX, &infd, &outfd, NULL, &time)] with a timeout of
    200000 microseconds.  On success the sets keep the descriptors that
    are ready and the result is their number (zero when the timeout
    passes with none ready); on failure the result is -1 and the sets
    are as they were. *)
Definition select_timeout_usec : Z := 200000%Z.

Definition select (infd outfd : list Z) : M (Z * list Z * list Z) :=
  v <- get_state ;;
  if select_fails v then ret ((-1)%Z, infd, outfd)
  else
    let infd' := nodup Z.eq_dec (filter (fun fd => FD_ISSET fd (readable v)) infd) in
    let outfd' := nodup Z.eq_dec (filter (fun fd => FD_ISSET fd (writable v)) outfd) in
    ret (Z.of_nat (List.length infd' + List.length outfd'), infd', outfd').

Fixpoint wake_readers (steps i : nat) (infd : list Z) (found : Z) : M Z :=
  v <- get_state ;;
  if (i <? List.length (readers v))%nat then
    match steps with
    | O => out_of_fuel
    | S steps' =>
        fd <- value_at (reader_fds v) i ;;
        if FD_ISSET (fd_of fd) infd then
          modify (set_readers (readers v) (popValueArray (reader_fds v) i)) ;;
          reader <- value_at (readers v) i ;;
          wake reader ;;
          modify (fun v => set_tasks (writeArray (tasks v) reader) v) ;;
          modify (fun v => set_readers (popValueArray (readers v) i) (reader_fds v) v) ;;
          wake_readers steps' i infd 1%Z
        else wake_readers steps' (S i) infd found
    end
  else ret found.

Fixpoint wake_writers (steps i : nat) (outfd : list Z) (found : Z) : M Z :=
  v <- get_state ;;
  if (i <? List.length (writers v))%nat then
    match steps with
    | O => out_of_fuel
    | S steps' =>
        fd <- value_at (writer_fds v) i ;;
        if FD_ISSET (fd_of fd) outfd then
          modify (set_writers (writers v) (popValueArray (writer_fds v) i)) ;;
          writer <- value_at (writers v) i ;;
          wake writer ;;
          modify (fun v => set_tasks (writeArray (tasks v) writer) v) ;;
          modify (fun v => set_writers (popValueArray (writers v) i) (writer_fds v) v) ;;
          wake_writers steps' i outfd 1%Z
        else wake_writers steps' (S i) outfd found
    end
  else ret found.

Definition getTasks : M Z :=
  v <- get_state ;;
  if (List.length (sleepers v) =? 0)%nat then ret 0%Z
  else
    found <- wake_sleepers (List.length (sleepers v)) 0 (-1)%Z ;;
    v <- get_state ;;
    let infd := List.map fd_of (reader_fds v) in
    let outfd := List.map fd_of (writer_fds v) in
    polled <- select infd outfd ;;
    let '(readStatus, infd, outfd) := polled in
    if (readStatus =? 0)%Z then ret 0%Z
    else
      v <- get_state ;;
      found <- wake_readers (List.length (readers v)) 0 infd found ;;
      v <- get_state ;;
      found <- wake_writers (List.length (writers v)) 0 outfd found ;;
      ret found.

(** The three statements that end each case of [handle_yield_value]:
    [popValueArray(&vm.tasks, vm.currentTask);
     if (vm.currentTask >= vm.tasks.count) getTasks();
     vm.currentTask = vm.currentTask % vm.tasks.count;] *)
Definition leave_ready_queue : M unit :=
  modify (fun v => set_tasks (popValueArray (tasks v) (currentTask v)) v) ;;
  v <- get_state ;;
  (if (List.length (tasks v) <=? currentTask v)%nat then getTasks ;; ret tt else ret tt) ;;
  v <- get_state ;;
  match List.length (tasks v) with
  | O => fault                               (* remainder of a division by zero *)
  | count => modify (set_currentTask (currentTask v mod count))
  end.

(** [vm.currentTask = (vm.currentTask + 1) % vm.tasks.count;] *)
Definition advance_task : M unit :=
  v <- get_state ;;
  match List.length (tasks v) with
  | O => fault                               (* remainder of a division by zero *)
  | count => modify (set_currentTask ((currentTask v + 1) mod count))
  end.

Definition check_number (arg value : RValue) : M unit :=
  if orb (is_nil arg) (negb (IS_NUMBER value))
  then runtimeError "Yielded invalid type" else ret tt.

Definition handle_yield_value (value : RValue) : M unit :=
  match value with
  | R_LIST items =>
      let arg := getListItem items 0 in
      check_number arg arg ;;
      let op := double_to_int (AS_NUMBER arg) in
      if (op =? yield_code SLEEP)%Z then
        let timeArg := getListItem items 1 in
        check_number arg timeArg ;;
        let time := AS_NUMBER timeArg in
        v <- get_state ;;
        modify (fun v => set_sleepers (writeArray (sleepers v) (R_FRAME (currentFrame v)))
                                      (sleeper_times v) v) ;;
        now <- getTime ;;
        modify (fun v => set_sleepers (sleepers v)
                           (writeArray (sleeper_times v) (R_NUMBER (now + time)%Q)) v) ;;
        leave_ready_queue
      else if (op =? yield_code WAIT_IO_READ)%Z then
        let fdArg := getListItem items 1 in
        check_number arg fdArg ;;
        modify (fun v => set_readers (writeArray (readers v) (R_FRAME (currentFrame v)))
                                     (writeArray (reader_fds v) fdArg) v) ;;
        leave_ready_queue
      else if (op =? yield_code WAIT_IO_WRITE)%Z then
        let fdArg := getListItem items 1 in
        check_number arg fdArg ;;
        modify (fun v => set_writers (writeArray (writers v) (R_FRAME (currentFrame v)))
                                     (writeArray (writer_fds v) fdArg) v) ;;
        leave_ready_queue
      else
        runtimeError ("Invalid yield op " ++ show_int op)
  | _ =>
      v <- get_state ;;
      (if (List.length (tasks v) <=? currentTask v + 1)%nat then getTasks ;; ret tt
       else ret tt) ;;
      advance_task
  end.

(** *** Vocabulary for the properties *)

(** What [getTime] returns in [v] and the state it leaves. *)
Definition reading (v : VM) : Q :=
  match clock v with [] => 0%Q | t :: _ => t end.

Definition tick (v : VM) : VM :=
  match clock v with
  | _ :: (_ :: _) as later => set_clock later v
  | _ => v
  end.








(** The six waiter arrays. *)
Definition waiters (v : VM) : list (list RValue) :=
  [sleepers v; sleeper_times v; readers v; reader_fds v; writers v; writer_fds v].

(** A virtual machine at rest: no task, no waiter, nothing ready. *)
Definition quiet : VM := mkVM [] 0 0 [] [] [] [] [] [] [] [] [] [] false [].








End Async.

(** * Sample programs

    Token sequences of small source texts, as the scanner yields them
    (all on line 1). *)

Module Samples.

Definition tk (t : TokenType) (text : string) : Token := mkToken t text 1.
Definition ident (text : string) : Token := tk TOKEN_IDENTIFIER text.
Definition variable_ (text : string) : option Node := Some (NODE_VARIABLE (ident text)).

(** [x | f(a, b);] *)
Definition pipe_two_arguments : list Token :=
  [ident "x"; tk TOKEN_PIPE "|"; ident "f"; tk TOKEN_LEFT_PAREN "(";
   ident "a"; tk TOKEN_COMMA ","; ident "b"; tk TOKEN_RIGHT_PAREN ")";
   tk TOKEN_SEMICOLON ";"].

(** [x | f(y);] *)
Definition pipe_one_argument : list Token :=
  [ident "x"; tk TOKEN_PIPE "|"; ident "f"; tk TOKEN_LEFT_PAREN "(";
   ident "y"; tk TOKEN_RIGHT_PAREN ")"; tk TOKEN_SEMICOLON ";"].

(** [x | 3] *)
Definition pipe_into_number : list Token :=
  [ident "x"; tk TOKEN_PIPE "|"; tk TOKEN_NUMBER "3"].

(** [var x; var y;]: each statement lacks both a type and an
    initializer. *)
Definition two_bad_statements : list Token :=
  [tk TOKEN_VAR "var"; ident "x"; tk TOKEN_SEMICOLON ";";
   tk TOKEN_VAR "var"; ident "y"; tk TOKEN_SEMICOLON ";"].

(** [interface I { ; }] *)
Definition interface_with_semicolon : list Token :=
  [tk TOKEN_INTERFACE "interface"; ident "I"; tk TOKEN_LEFT_BRACE "{";
   tk TOKEN_SEMICOLON ";"; tk TOKEN_RIGHT_BRACE "}"].


(** [fun id<T>(x: T): T { return x; }] *)
Definition generic_identity : list Token :=
  [tk TOKEN_FUN "fun"; ident "id"; tk TOKEN_LESS "<"; ident "T"; tk TOKEN_GREATER ">";
   tk TOKEN_LEFT_PAREN "("; ident "x"; tk TOKEN_COLON ":"; ident "T";
   tk TOKEN_RIGHT_PAREN ")"; tk TOKEN_COLON ":"; ident "T";
   tk TOKEN_LEFT_BRACE "{"; tk TOKEN_RETURN "return"; ident "x";
   tk TOKEN_SEMICOLON ";"; tk TOKEN_RIGHT_BRACE "}"].

(** [fun takesString(s: String) { }] and [fun takesNumber(n: Number) { }] *)
Definition takes (function type_ : string) : list Token :=
  [tk TOKEN_FUN "fun"; ident function; tk TOKEN_LEFT_PAREN "("; ident "a";
   tk TOKEN_COLON ":"; ident type_; tk TOKEN_RIGHT_PAREN ")";
   tk TOKEN_LEFT_BRACE "{"; tk TOKEN_RIGHT_BRACE "}"].

(** [id(3)] *)
Definition call_identity : list Token :=
  [ident "id"; tk TOKEN_LEFT_PAREN "("; tk TOKEN_NUMBER "3"; tk TOKEN_RIGHT_PAREN ")"].

(** [f(id(3))] *)
Definition pass_identity_to (function : string) : list Token :=
  [ident function; tk TOKEN_LEFT_PAREN "("] ++ call_identity ++ [tk TOKEN_RIGHT_PAREN ")"].

(** [var f = fun (x) => x;] *)
Definition lambda_identity : list Token :=
  [tk TOKEN_VAR "var"; ident "f"; tk TOKEN_EQUAL "=";
   tk TOKEN_FUN "fun"; tk TOKEN_LEFT_PAREN "("; ident "x"; tk TOKEN_RIGHT_PAREN ")";
   tk TOKEN_ARROW "=>"; ident "x"; tk TOKEN_SEMICOLON ";"].

(** [fun g(x) { return x; }] *)
Definition function_identity : list Token :=
  [tk TOKEN_FUN "fun"; ident "g"; tk TOKEN_LEFT_PAREN "("; ident "x";
   tk TOKEN_RIGHT_PAREN ")"; tk TOKEN_LEFT_BRACE "{"; tk TOKEN_RETURN "return";
   ident "x"; tk TOKEN_SEMICOLON ";"; tk TOKEN_RIGHT_BRACE "}"].

(** [fun h(x) { }] *)
Definition function_empty : list Token :=
  [tk TOKEN_FUN "fun"; ident "h"; tk TOKEN_LEFT_PAREN "("; ident "x";
   tk TOKEN_RIGHT_PAREN ")"; tk TOKEN_LEFT_BRACE "{"; tk TOKEN_RIGHT_BRACE "}"].

(** [var x: String = 1; var y: String = 2;] *)
Definition two_type_errors : list Token :=
  [tk TOKEN_VAR "var"; ident "x"; tk TOKEN_COLON ":"; ident "String";
   tk TOKEN_EQUAL "="; tk TOKEN_NUMBER "1"; tk TOKEN_SEMICOLON ";";
   tk TOKEN_VAR "var"; ident "y"; tk TOKEN_COLON ":"; ident "String";
   tk TOKEN_EQUAL "="; tk TOKEN_NUMBER "2"; tk TOKEN_SEMICOLON ";"].

(** [type Fn<T> = (Number) => Number;  var t: Fn<String>;] *)
Definition functor_alias : list Token :=
  [tk TOKEN_TYPE "type"; ident "Fn"; tk TOKEN_LESS "<"; ident "T"; tk TOKEN_GREATER ">";
   tk TOKEN_EQUAL "="; tk TOKEN_LEFT_PAREN "("; ident "Number"; tk TOKEN_RIGHT_PAREN ")";
   tk TOKEN_ARROW "=>"; ident "Number"; tk TOKEN_SEMICOLON ";";
   tk TOKEN_VAR "var"; ident "t"; tk TOKEN_COLON ":"; ident "Fn"; tk TOKEN_LESS "<";
   ident "String"; tk TOKEN_GREATER ">"; tk TOKEN_SEMICOLON ";"].

(** [var u: (Number) => Number = t;] *)
Definition functor_from_alias : list Token :=
  [tk TOKEN_VAR "var"; ident "u"; tk TOKEN_COLON ":"; tk TOKEN_LEFT_PAREN "(";
   ident "Number"; tk TOKEN_RIGHT_PAREN ")"; tk TOKEN_ARROW "=>"; ident "Number";
   tk TOKEN_EQUAL "="; ident "t"; tk TOKEN_SEMICOLON ";"].

(** A stand-in for [createListTypeDef], [createMapTypeDef] and
    [createTaskTypeDef]: a class with an initializer and nothing else. *)
Definition collection : Types.M (option Types.Ptr) :=
  type <- Types.newSimpleType ;;
  init <- Types.newFunctorType ;;
  Types.functor_set_returnType init type ;;
  Types.set_member true type "init" (Types.T_OBJ init) ;;
  ret type.

Definition startup : Types.M unit := Types.makeTypes collection collection collection.

(** The checker state the samples start from: the singletons made. *)
Definition started : option Types.Checker := ended_in (startup Types.initial).

Definition after_startup : Types.Checker :=
  match started with Some c => c | None => Types.initial end.


(** A session: start up, enter the global environment, check the
    declarations of [prelude], then evaluate the first statement of
    [text] and return its type. *)
Definition session (fuel : nat) (prelude text : list Token) : Types.M (option Types.Ptr) :=
  startup ;;
  Types.initTypeEnvironment TYPE_SCRIPT ;;
  Types.initGlobalEnvironment ;;
  declarations <- Types.run_parser (Parser.parseAST fuel prelude) ;;
  match declarations with
  | None => ret None
  | Some statements =>
      Types.evaluateTypes (Types.evaluateNode fuel) statements ;;
      parsed <- Types.run_parser (Parser.parseAST fuel text) ;;
      match parsed with
      | Some (statement :: _) => Types.evaluateNode fuel statement
      | _ => ret None
      end
  end.

(** The checker after [functor_alias] and [functor_from_alias]. *)
Definition with_alias : Types.Checker :=
  match ended_in (session 30 functor_alias functor_from_alias Types.initial) with
  | Some c => c
  | None => Types.initial
  end.

(** The checker after [generic_identity], in the global environment. *)
Definition with_identity : Types.Checker :=
  match ended_in (session 30 generic_identity [] Types.initial) with
  | Some c => c
  | None => Types.initial
  end.

(** What [NODE_CALL] does before it checks the first argument of a call
    of [id], followed by the check of [Number] against the parameter. *)
Definition bind_first_argument : Types.M bool :=
  Types.initTypeEnvironment TYPE_FUNCTION ;;
  Types.seed_resolutions [Types.T_OBJ (Some 13)] ;;
  Types.isSubType 5 (Some 0) (Some 13).

Definition messages (c : Types.Checker) : list string :=
  List.map Parser.d_message (Types.stderr c).





(** [var a: Number | String;] and [var b: String | Number = a;] *)
Definition crossed_union_variable : list Token :=
  [tk TOKEN_VAR "var"; ident "a"; tk TOKEN_COLON ":"; ident "Number";
   tk TOKEN_BITWISE_OR "|"; ident "String"; tk TOKEN_SEMICOLON ";"].

Definition into_crossed_union : list Token :=
  [tk TOKEN_VAR "var"; ident "b"; tk TOKEN_COLON ":"; ident "String";
   tk TOKEN_BITWISE_OR "|"; ident "Number"; tk TOKEN_EQUAL "=";
   ident "a"; tk TOKEN_SEMICOLON ";"].

Definition with_crossed_unions : Types.Checker :=
  match ended_in (session 30 crossed_union_variable into_crossed_union Types.initial) with
  | Some c => c
  | None => Types.initial
  end.

(** [class A { } class B extends A { }] *)
Definition two_classes : list Token :=
  [tk TOKEN_CLASS "class"; ident "A"; tk TOKEN_LEFT_BRACE "{"; tk TOKEN_RIGHT_BRACE "}";
   tk TOKEN_CLASS "class"; ident "B"; tk TOKEN_EXTENDS "extends"; ident "A";
   tk TOKEN_LEFT_BRACE "{"; tk TOKEN_RIGHT_BRACE "}"].

(** The checker after [two_classes]: [A] is at 13, [B] at 15. *)
Definition with_classes : Types.Checker :=
  match ended_in (session 30 two_classes [] Types.initial) with
  | Some c => c
  | None => Types.initial
  end.



(** The checker inside a call of [id], before the first argument is
    checked: the environment of the call holds [T], unresolved. *)
Definition in_call_of_identity : Types.Checker :=
  match ended_in ((Types.initTypeEnvironment TYPE_FUNCTION ;;
                   Types.seed_resolutions [Types.T_OBJ (Some 13)]) with_identity) with
  | Some c => c
  | None => Types.initial
  end.

(** The checker of [with_identity] after a first diagnostic. *)
Definition after_a_diagnostic : Types.Checker :=
  Types.errorAt_state (ident "x") "Type mismatch" with_identity.

(** [var a: List<Number>;] and [var b: List<Any> = a;] *)
Definition list_of_numbers : list Token :=
  [tk TOKEN_VAR "var"; ident "a"; tk TOKEN_COLON ":"; ident "List"; tk TOKEN_LESS "<";
   ident "Number"; tk TOKEN_GREATER ">"; tk TOKEN_SEMICOLON ";"].

Definition into_list_of_any : list Token :=
  [tk TOKEN_VAR "var"; ident "b"; tk TOKEN_COLON ":"; ident "List"; tk TOKEN_LESS "<";
   ident "Any"; tk TOKEN_GREATER ">"; tk TOKEN_EQUAL "="; ident "a"; tk TOKEN_SEMICOLON ";"].

(** The checker after both: [List] is at 7, [List<Number>] at 13 and
    [List<Any>] at 14. *)
Definition with_lists : Types.Checker :=
  match ended_in (session 30 list_of_numbers into_list_of_any Types.initial) with
  | Some c => c
  | None => Types.initial
  end.



(** A checker started with the file [classes] on disk, holding
    [class A { } class B extends A { }]. *)
Definition on_disk : Types.Checker :=
  Types.mkChecker [] [] false false None None None [] []
                  None None None None None None None None None None
                  Parser.initial [("classes", two_classes)].

Definition importer : Types.Checker :=
  match ended_in (startup on_disk) with Some c => c | None => on_disk end.

(** Scheduler states.  Frames 0, 1 and 2 are in memory. *)
Definition three_frames : list Async.ObjCallFrame :=
  [Async.mkFrame Async.RUNNING Async.R_NIL 0;
   Async.mkFrame Async.WAITING Async.R_NIL 1;
   Async.mkFrame Async.WAITING Async.R_NIL 2].

(** No task is ready, no sleeper; frame 1 waits to read descriptor 3,
    which is readable. *)
Definition reader_waiting : Async.VM :=
  Async.mkVM [] 0 0 [] [] [Async.R_FRAME 1] [Async.R_NUMBER 3] [] []
             three_frames [5%Q] [3%Z] [] false [].

(** The same with frame 2 asleep until time 1, the clock reading 5. *)
Definition sleeper_and_reader : Async.VM :=
  Async.mkVM [] 0 0 [Async.R_FRAME 2] [Async.R_NUMBER 1]
             [Async.R_FRAME 1] [Async.R_NUMBER 3] [] []
             three_frames [5%Q] [3%Z] [] false [].


(** Frames 0 and 1 are ready, frame 0 runs; the clock reads 5. *)
Definition two_ready : Async.VM :=
  Async.mkVM [Async.R_FRAME 0; Async.R_FRAME 1] 0 0 [] [] [] [] [] []
             three_frames [5%Q] [] [] false [].

End Samples.
(** * Properties

    From here on the file states and proves; every definition of the
    embedding is above. *)

(** ** Rules for [Preserves] *)

Section PreservesRules.
Context {S : Type} (J : S -> Prop).

Lemma Preserves_ret A (a : A) : Preserves J (ret a).
Proof. intros s H. exact H. Qed.

Lemma Preserves_fault A : Preserves J (@fault S A).
Proof. intros s H. exact H. Qed.

Lemma Preserves_out_of_fuel A : Preserves J (@out_of_fuel S A).
Proof. intros s H. exact I. Qed.

Lemma Preserves_get_state : Preserves J (@get_state S).
Proof. intros s H. exact H. Qed.

Lemma Preserves_bind A B (m : Run S A) (k : A -> Run S B) :
  Preserves J m -> (forall a, Preserves J (k a)) -> Preserves J (bind m k).
Proof.
  intros Hm Hk s Hs. unfold bind.
  specialize (Hm s Hs).
  destruct (m s) as [[a s'|s']|]; simpl in *; auto.
  apply Hk; assumption.
Qed.

Lemma Preserves_modify (f : S -> S) :
  (forall s, J s -> J (f s)) -> Preserves J (modify f).
Proof. intros Hf s Hs. simpl. auto. Qed.
End PreservesRules.

Lemma tt_eqb_eq a b : tt_eqb a b = true <-> a = b.
Proof. unfold tt_eqb. destruct (TokenType_eq_dec a b); split; congruence. Qed.

(** ** Stepping through a run *)

Lemma bind_returns {S A B} (m : Run S A) (k : A -> Run S B) s a s' :
  m s = Some (Returns a s') -> bind m k s = k a s'.
Proof. intro H. unfold bind. now rewrite H. Qed.

Lemma bind_none {S A B} (m : Run S A) (k : A -> Run S B) s :
  m s = None -> bind m k s = None.
Proof. intro H. unfold bind. now rewrite H. Qed.

Lemma bind_returns_none {S A B} (m : Run S A) (k : A -> Run S B) s a s' :
  m s = Some (Returns a s') -> k a s' = None -> bind m k s = None.
Proof. intros H1 H2. unfold bind. now rewrite H1. Qed.

Lemma bind_inv {S A B} (m : Run S A) (k : A -> Run S B) s o :
  bind m k s = Some o ->
  (exists a s', m s = Some (Returns a s') /\ k a s' = Some o) \/
  (exists s', m s = Some (Faults s') /\ o = Faults s').
Proof.
  unfold bind. destruct (m s) as [[a s'|s']|]; intro H.
  - left. eauto.
  - right. injection H as <-. eauto.
  - discriminate.
Qed.

(** ** Rules for [Ends] *)

Section EndsRules.
Context {S : Type}.

Lemma Ends_ret A (P : S -> Prop) (a : A) (Q : A -> S -> Prop) :
  (forall s, P s -> Q a s) -> Ends P (ret a) Q.
Proof. intros H s Hs. simpl. auto. Qed.

Lemma Ends_fault A (P : S -> Prop) (Q : A -> S -> Prop) : Ends P fault Q.
Proof. intros s Hs. exact I. Qed.

Lemma Ends_get_state (P : S -> Prop) (Q : S -> S -> Prop) :
  (forall s, P s -> Q s s) -> Ends P get_state Q.
Proof. intros H s Hs. simpl. auto. Qed.

Lemma Ends_modify (P : S -> Prop) (f : S -> S) (Q : unit -> S -> Prop) :
  (forall s, P s -> Q tt (f s)) -> Ends P (modify f) Q.
Proof. intros H s Hs. simpl. auto. Qed.

Lemma Ends_bind A B (P : S -> Prop) (R : A -> S -> Prop) (Q : B -> S -> Prop)
      (m : Run S A) (k : A -> Run S B) :
  Ends P m R -> (forall a, Ends (R a) (k a) Q) -> Ends P (bind m k) Q.
Proof.
  intros Hm Hk s Hs. unfold bind. specialize (Hm s Hs).
  destruct (m s) as [[a s'|s']|]; auto.
  apply Hk. exact Hm.
Qed.

Lemma Ends_weaken A (P P' : S -> Prop) (Q Q' : A -> S -> Prop) (m : Run S A) :
  Ends P' m Q' -> (forall s, P s -> P' s) -> (forall a s, Q' a s -> Q a s) ->
  Ends P m Q.
Proof.
  intros H HP HQ s Hs. specialize (H s (HP s Hs)).
  destruct (m s) as [[a s'|s']|]; auto.
Qed.

Lemma Ends_assume A (phi : Prop) (P : S -> Prop) (Q : A -> S -> Prop) (m : Run S A) :
  (forall s, P s -> phi) -> (phi -> Ends P m Q) -> Ends P m Q.
Proof. intros H1 H2 s Hs. exact (H2 (H1 s Hs) s Hs). Qed.

Lemma Ends_absurd A (P : S -> Prop) (Q : A -> S -> Prop) (m : Run S A) :
  (forall s, ~ P s) -> Ends P m Q.
Proof. intros H s Hs. destruct (H s Hs). Qed.
End EndsRules.

(** ** The parser: diagnostics and the panic gate *)

Module ParserFacts.
Import Parser.

Ltac preserves :=
  cbv zeta;
  repeat
    match goal with
    | |- Preserves _ (bind _ _) => apply Preserves_bind; [ | intro ]
    | |- Preserves _ (ret _) => apply Preserves_ret
    | |- Preserves _ fault => apply Preserves_fault
    | |- Preserves _ out_of_fuel => apply Preserves_out_of_fuel
    | |- Preserves _ get_state => apply Preserves_get_state
    | |- Preserves _ (if ?b then _ else _) => destruct b
    | |- Preserves _ (match ?x with _ => _ end) => destruct x
    | |- Preserves _ _ => solve [auto with preserves]
    end.

Create HintDb preserves.

Section Gate.
Variable n : nat.

Lemma errorAt_state_gated token message p :
  gated n p -> gated n (errorAt_state token message p).
Proof.
  unfold gated, errorAt_state. destruct p as [c pv he pm src err]; simpl.
  intros [(Hl & He & Hp) | (Hl & He & Hp)]; subst; simpl.
  - right. rewrite length_app. simpl. lia.
  - right. auto.
Qed.

Lemma scanLoop_gated pending : forall p, gated n p -> gated n (scanLoop pending p).
Proof.
  induction pending as [|t rest IH]; intros p Hp; simpl.
  - destruct p; exact Hp.
  - destruct (tt_eqb (type t) TOKEN_ERROR).
    + apply IH. apply errorAt_state_gated. destruct p; exact Hp.
    + destruct p; exact Hp.
Qed.

Lemma errorAt_ok token message : Preserves (gated n) (errorAt token message).
Proof. apply Preserves_modify. intros; now apply errorAt_state_gated. Qed.
Hint Resolve errorAt_ok : preserves.

Lemma error_ok message : Preserves (gated n) (error message).
Proof. unfold error. preserves. Qed.

Lemma errorAtCurrent_ok message : Preserves (gated n) (errorAtCurrent message).
Proof. unfold errorAtCurrent. preserves. Qed.

Lemma advance_ok : Preserves (gated n) advance.
Proof.
  apply Preserves_modify. intros p Hp. apply scanLoop_gated.
  destruct p; exact Hp.
Qed.
Hint Resolve error_ok errorAtCurrent_ok advance_ok : preserves.

Lemma check_ok t : Preserves (gated n) (check t).
Proof. unfold check. preserves. Qed.
Hint Resolve check_ok : preserves.

Lemma consume_ok t message : Preserves (gated n) (consume t message).
Proof. unfold consume. preserves. Qed.

Lemma match_ok t : Preserves (gated n) (match_ t).
Proof. unfold match_. preserves. Qed.

Lemma get_previous_ok : Preserves (gated n) get_previous.
Proof. unfold get_previous. preserves. Qed.

Lemma get_current_ok : Preserves (gated n) get_current.
Proof. unfold get_current. preserves. Qed.
Hint Resolve consume_ok match_ok get_previous_ok get_current_ok : preserves.


Section Bodies_ok.
Variable fuel : nat.
Variable self : Forward.
Hypothesis Hself : Forward_ok n self.

Let self_statement := ok_statement Hself.
Let self_ifStatement := ok_ifStatement Hself.
Let self_genericArgDefinitions := ok_genericArgDefinitions Hself.
Let self_declaration := ok_declaration Hself.
Let self_expression := ok_expression Hself.
Let self_parsePrecedence := ok_parsePrecedence Hself.
Let self_block := ok_block Hself.
Let self_typeAnnotation := ok_typeAnnotation Hself.
Hint Resolve self_statement self_ifStatement self_genericArgDefinitions
     self_declaration self_expression self_parsePrecedence self_block
     self_typeAnnotation : preserves.

Lemma number_ok c : Preserves (gated n) (number c).
Proof. unfold number. preserves. Qed.

Lemma unary_ok c : Preserves (gated n) (unary self c).
Proof. unfold unary. preserves. Qed.

Lemma list_items_ok k : forall items, Preserves (gated n) (list_items self k items).
Proof. induction k; intro; cbn [list_items]; preserves. Qed.
Hint Resolve list_items_ok : preserves.

Lemma list_ok c : Preserves (gated n) (list_ fuel self c).
Proof. unfold list_. preserves. Qed.

Lemma map_items_ok k : forall ks vs, Preserves (gated n) (map_items self k ks vs).
Proof. induction k; intros; cbn [map_items]; preserves. Qed.
Hint Resolve map_items_ok : preserves.

Lemma map_ok c : Preserves (gated n) (map_ fuel self c).
Proof. unfold map_. preserves. Qed.

Lemma binary_ok l c : Preserves (gated n) (binary self l c).
Proof. unfold binary. preserves. Qed.

Lemma grouping_ok c : Preserves (gated n) (grouping self c).
Proof. unfold grouping. preserves. Qed.

Lemma string_ok c : Preserves (gated n) (string_ c).
Proof. unfold string_. preserves. Qed.

Lemma variable_ok c : Preserves (gated n) (variable self c).
Proof. unfold variable. preserves. Qed.

Lemma atom_ok c : Preserves (gated n) (atom c).
Proof. unfold atom. preserves. Qed.

Lemma literal_ok c : Preserves (gated n) (literal c).
Proof. unfold literal. preserves. Qed.

Lemma and_ok l c : Preserves (gated n) (and_ self l c).
Proof. unfold and_. preserves. Qed.

Lemma or_ok l c : Preserves (gated n) (or_ self l c).
Proof. unfold or_. preserves. Qed.

Lemma argument_items_ok k : forall a items, Preserves (gated n) (argument_items self k a items).
Proof. induction k; intros; cbn [argument_items]; preserves. Qed.
Hint Resolve argument_items_ok : preserves.

Lemma argumentList_ok : Preserves (gated n) (argumentList fuel self).
Proof. unfold argumentList. preserves. Qed.
Hint Resolve argumentList_ok variable_ok string_ok : preserves.

Lemma call_ok l c : Preserves (gated n) (call fuel self l c).
Proof. unfold call. preserves. Qed.

Lemma getItem_ok l c : Preserves (gated n) (getItem self l c).
Proof. unfold getItem. preserves. Qed.

Lemma pipeCall_ok l c : Preserves (gated n) (pipeCall self l c).
Proof. unfold pipeCall. preserves. Qed.

Lemma dot_ok l c : Preserves (gated n) (dot self l c).
Proof. unfold dot. preserves. Qed.

Lemma this_ok c : Preserves (gated n) (this_ self c).
Proof. unfold this_. preserves. Qed.

Lemma super_ok c : Preserves (gated n) (super_ c).
Proof. unfold super_. preserves. Qed.

Lemma yield_ok c : Preserves (gated n) (yield self c).
Proof. unfold yield. preserves. Qed.

Hint Resolve number_ok unary_ok list_ok map_ok binary_ok grouping_ok atom_ok
     literal_ok and_ok or_ok call_ok getItem_ok pipeCall_ok dot_ok this_ok
     super_ok yield_ok : preserves.

Lemma call_prefix_ok fn c : Preserves (gated n) (call_prefix fuel self fn c).
Proof. unfold call_prefix. preserves. Qed.

Lemma call_infix_ok fn l c : Preserves (gated n) (call_infix fuel self fn l c).
Proof. unfold call_infix. preserves. Qed.
Hint Resolve call_prefix_ok call_infix_ok : preserves.

Lemma infix_loop_ok k : forall q c r, Preserves (gated n) (infix_loop fuel self k q c r).
Proof. induction k; intros; cbn [infix_loop]; preserves. Qed.
Hint Resolve infix_loop_ok : preserves.

Lemma parsePrecedence_ok q : Preserves (gated n) (parsePrecedence fuel self q).
Proof. unfold parsePrecedence. preserves. Qed.

Lemma parseVariable_ok m : Preserves (gated n) (parseVariable m).
Proof. unfold parseVariable. preserves. Qed.
Hint Resolve parsePrecedence_ok parseVariable_ok : preserves.

Lemma parameter_items_ok k : forall a ps ts, Preserves (gated n) (parameter_items self k a ps ts).
Proof. induction k; intros; cbn [parameter_items]; preserves. Qed.
Hint Resolve parameter_items_ok : preserves.

Lemma parameterList_ok : Preserves (gated n) (parameterList fuel self).
Proof. unfold parameterList. preserves. Qed.

Lemma statements_of_ok bl : Preserves (gated n) (statements_of bl).
Proof. unfold statements_of. preserves. Qed.
Hint Resolve parameterList_ok statements_of_ok : preserves.

Lemma anonFunction_ok c : Preserves (gated n) (anonFunction fuel self c).
Proof. unfold anonFunction. preserves. Qed.
Hint Resolve anonFunction_ok : preserves.

Lemma expression_ok : Preserves (gated n) (expression fuel self).
Proof. unfold expression. preserves. Qed.
Hint Resolve expression_ok : preserves.

Lemma expressionStatement_ok : Preserves (gated n) (expressionStatement fuel self).
Proof. unfold expressionStatement. preserves. Qed.

Lemma block_items_ok k : forall stmts, Preserves (gated n) (block_items self k stmts).
Proof. induction k; intros; cbn [block_items]; preserves. Qed.
Hint Resolve expressionStatement_ok block_items_ok : preserves.

Lemma block_ok : Preserves (gated n) (block fuel self).
Proof. unfold block. preserves. Qed.
Hint Resolve block_ok : preserves.

Lemma function_ok t : Preserves (gated n) (function fuel self t).
Proof. unfold function. preserves. Qed.

Lemma ifStatement_ok c : Preserves (gated n) (ifStatement fuel self c).
Proof. unfold ifStatement. preserves. Qed.

Lemma whileStatement_ok : Preserves (gated n) (whileStatement fuel self).
Proof. unfold whileStatement. preserves. Qed.

Lemma generic_items_ok k : forall gs, Preserves (gated n) (generic_items self k gs).
Proof. induction k; intros; cbn [generic_items]; preserves. Qed.
Hint Resolve function_ok ifStatement_ok whileStatement_ok generic_items_ok : preserves.

Lemma genericArgDefinitions_ok : Preserves (gated n) (genericArgDefinitions fuel self).
Proof. unfold genericArgDefinitions. preserves. Qed.

Lemma annotation_items_ok k : forall a, Preserves (gated n) (annotation_items self k a).
Proof. induction k; intros; cbn [annotation_items]; preserves. Qed.
Hint Resolve genericArgDefinitions_ok annotation_items_ok : preserves.

Lemma functionTypeAnnotation_ok : Preserves (gated n) (functionTypeAnnotation fuel self).
Proof. unfold functionTypeAnnotation. preserves. Qed.

Lemma simpleTypeAnnotation_ok : Preserves (gated n) (simpleTypeAnnotation fuel self).
Proof. unfold simpleTypeAnnotation. preserves. Qed.

Lemma typeAnnotation_union_ok l : Preserves (gated n) (typeAnnotation_union self l).
Proof. unfold typeAnnotation_union. preserves. Qed.
Hint Resolve functionTypeAnnotation_ok simpleTypeAnnotation_ok
     typeAnnotation_union_ok : preserves.

Lemma typeAnnotation_ok : Preserves (gated n) (typeAnnotation fuel self).
Proof. unfold typeAnnotation. preserves. Qed.
Hint Resolve typeAnnotation_ok : preserves.

Lemma fieldDeclaration_ok a : Preserves (gated n) (fieldDeclaration fuel self a).
Proof. unfold fieldDeclaration. preserves. Qed.

Lemma varDeclaration_ok a : Preserves (gated n) (varDeclaration fuel self a).
Proof. unfold varDeclaration. preserves. Qed.

Lemma typeDeclaration_ok : Preserves (gated n) (typeDeclaration fuel self).
Proof. unfold typeDeclaration. preserves. Qed.
Hint Resolve fieldDeclaration_ok varDeclaration_ok typeDeclaration_ok : preserves.

Lemma forStatement_ok : Preserves (gated n) (forStatement fuel self).
Proof. unfold forStatement. preserves. Qed.

Lemma importStatement_ok : Preserves (gated n) importStatement.
Proof. unfold importStatement. preserves. Qed.

Lemma returnStatement_ok : Preserves (gated n) (returnStatement fuel self).
Proof. unfold returnStatement. preserves. Qed.

Lemma skip_semicolons_ok k : Preserves (gated n) (skip_semicolons k).
Proof. induction k; cbn [skip_semicolons]; preserves. Qed.
Hint Resolve forStatement_ok importStatement_ok returnStatement_ok
     skip_semicolons_ok : preserves.

Lemma statement_ok : Preserves (gated n) (statement fuel self).
Proof. unfold statement. preserves. Qed.

Lemma funDeclaration_ok : Preserves (gated n) (funDeclaration fuel self).
Proof. unfold funDeclaration. preserves. Qed.

Lemma method_ok : Preserves (gated n) (method fuel self).
Proof. unfold method. preserves. Qed.
Hint Resolve statement_ok funDeclaration_ok method_ok : preserves.

Lemma class_members_ok k : forall b, Preserves (gated n) (class_members fuel self k b).
Proof. induction k; intros; cbn [class_members]; preserves. Qed.
Hint Resolve class_members_ok : preserves.

Lemma classDeclaration_ok : Preserves (gated n) (classDeclaration fuel self).
Proof. unfold classDeclaration. preserves. Qed.

Lemma methodSignature_ok : Preserves (gated n) (methodSignature fuel self).
Proof. unfold methodSignature. preserves. Qed.
Hint Resolve classDeclaration_ok methodSignature_ok : preserves.

Lemma interface_members_ok k : forall b, Preserves (gated n) (interface_members fuel self k b).
Proof. induction k; intros; cbn [interface_members]; preserves. Qed.
Hint Resolve interface_members_ok : preserves.

Lemma interfaceDeclaration_ok : Preserves (gated n) (interfaceDeclaration fuel self).
Proof. unfold interfaceDeclaration. preserves. Qed.
Hint Resolve interfaceDeclaration_ok : preserves.

Lemma declaration_ok : Preserves (gated n) (declaration fuel self).
Proof. unfold declaration. preserves. Qed.
Hint Resolve declaration_ok : preserves.

Lemma program_items_ok k : forall stmts, Preserves (gated n) (program_items fuel self k stmts).
Proof. induction k; intros; cbn [program_items]; preserves. Qed.
End Bodies_ok.

Lemma forward_ok fuel : Forward_ok n (forward fuel).
Proof.
  induction fuel as [|f IH]; simpl.
  - constructor; intros; apply Preserves_out_of_fuel.
  - constructor; intros.
    + now apply statement_ok.
    + now apply ifStatement_ok.
    + now apply genericArgDefinitions_ok.
    + now apply declaration_ok.
    + now apply expression_ok.
    + now apply parsePrecedence_ok.
    + now apply block_ok.
    + now apply typeAnnotation_ok.
Qed.
End Gate.


(** *** What a parse prints and what it returns *)

(** Whatever the parser was before, a run of [parseAST] that ends has
    printed nothing and left [hadError] clear, or has printed exactly
    one diagnostic and set it. *)
Lemma parseAST_gated fuel text p0 o :
  parseAST fuel text p0 = Some o ->
  gated (List.length (stderr p0)) (final_state o).
Proof.
  unfold parseAST. intro H.
  set (p1 := set_panicMode false (set_hadError false (set_source text p0))).
  assert (Hp1 : gated (List.length (stderr p0)) p1).
  { left. destruct p0; simpl. auto. }
  assert (Hrest : Preserves (gated (List.length (stderr p0)))
            (advance ;;
             statements <- program_items fuel (forward fuel) fuel [] ;;
             consume TOKEN_EOF "Expect end of expression." ;;
             p <- get_state ;;
             ret (if hadError p then None else Some statements))).
  { pose proof (@forward_ok (List.length (stderr p0)) fuel) as Hf.
    pose proof (program_items_ok fuel Hf) as Hitems.
    pose proof (@advance_ok (List.length (stderr p0))).
    pose proof (@consume_ok (List.length (stderr p0))).
    preserves; auto. }
  specialize (Hrest p1 Hp1).
  change (bind (initScanner text) _ p0) with
    ((advance ;;
      statements <- program_items fuel (forward fuel) fuel [] ;;
      consume TOKEN_EOF "Expect end of expression." ;;
      p <- get_state ;;
      ret (if hadError p then None else Some statements)) p1) in H.
  rewrite H in Hrest. exact Hrest.
Qed.

(** A parse prints at most one diagnostic. *)
Lemma parseAST_one_diagnostic fuel text p0 o :
  parseAST fuel text p0 = Some o ->
  List.length (stderr (final_state o)) <= S (List.length (stderr p0)).
Proof.
  intro H. apply parseAST_gated in H.
  destruct H as [(Hl & _) | (Hl & _)]; lia.
Qed.

(** The value [parseAST] returns is read off [hadError]. *)
Lemma parseAST_returns_flag fuel text p0 r p :
  parseAST fuel text p0 = Some (Returns r p) ->
  (hadError p = true -> r = None) /\
  (hadError p = false -> exists statements, r = Some statements).
Proof.
  unfold parseAST. intro H.
  repeat (apply bind_inv in H;
          destruct H as [(? & ? & ? & H) | (? & _ & H)]; [ | discriminate ]).
  match goal with E : get_state _ = _ |- _ => unfold get_state in E; injection E as <- <- end.
  unfold ret in H. injection H as <- <-.
  match goal with |- context [hadError ?q] => destruct (hadError q) end.
  - split; [reflexivity | discriminate].
  - split; [discriminate | eauto].
Qed.

(** On a run that returns, the result is [None] exactly when a
    diagnostic was printed during the run. *)
Lemma parseAST_result fuel text p0 r p :
  parseAST fuel text p0 = Some (Returns r p) ->
  (r = None <-> List.length (stderr p0) < List.length (stderr p)) /\
  ((exists statements, r = Some statements) <->
   List.length (stderr p) = List.length (stderr p0)).
Proof.
  intro H.
  pose proof (parseAST_gated _ _ _ H) as G. simpl in G.
  pose proof (parseAST_returns_flag _ _ _ H) as [Ht Hf].
  destruct G as [(Hl & He & _) | (Hl & He & _)].
  - destruct (Hf He) as [st ->]. split; split; intros; try lia; try discriminate; eauto.
  - rewrite (Ht He). split; split; intros; try lia; auto.
    destruct H0; discriminate.
Qed.

(** *** The argument shift of [pipeCall] *)

Lemma array_set_app_r {A} (v : A) (front : list A) x back :
  array_set (List.length front) v (front ++ x :: back) = front ++ v :: back.
Proof. induction front; simpl; [reflexivity | now f_equal]. Qed.

Lemma nth_repeat_app {A} (a d : A) i back :
  nth i (repeat a (S i) ++ back) d = a.
Proof.
  rewrite app_nth1 by (rewrite repeat_length; lia).
  apply nth_repeat_lt. lia.
Qed.

Lemma pipe_shift_repeat a : forall n i back,
  List.length back = n ->
  pipe_shift n i (repeat a (S i) ++ back) = repeat a (S i + n).
Proof.
  induction n as [|n IH]; intros i back Hlen.
  - destruct back; [ | discriminate ]. simpl. now rewrite app_nil_r, Nat.add_0_r.
  - destruct back as [|x back]; [ discriminate | ].
    cbn [pipe_shift]. rewrite nth_repeat_app.
    replace (array_set (S i) a (repeat a (S i) ++ x :: back))
      with (repeat a (S (S i)) ++ back).
    + rewrite IH by (simpl in Hlen; lia). f_equal. lia.
    + pose proof (array_set_app_r a (repeat a (S i)) x back) as E.
      rewrite repeat_length in E. rewrite E.
      change (repeat a (S (S i))) with (a :: repeat a (S i)).
      rewrite (repeat_cons (S i) a). now rewrite <- app_assoc.
Qed.

(** With no argument the pipe gives [[x]]; with arguments
    [a1, ..., an] it gives [x] followed by [n] copies of [a1]. *)
Lemma pipe_arguments_nil left : pipe_arguments left [] = [left].
Proof. reflexivity. Qed.

Lemma pipe_arguments_cons left a rest :
  pipe_arguments left (a :: rest) = left :: repeat a (S (List.length rest)).
Proof.
  unfold pipe_arguments, writeArray.
  replace (List.length ((a :: rest) ++ [None]) - 1) with (S (List.length rest))
    by (rewrite length_app; simpl; lia).
  change ((a :: rest) ++ [None]) with (repeat a 1 ++ (rest ++ [None])).
  rewrite pipe_shift_repeat by (rewrite length_app; simpl; lia).
  reflexivity.
Qed.


(** *** Concrete parses *)

(** C4.  [x | f(a, b);] parses to a call of [f] whose arguments are
    [x, a, a]: the shift loop of [pipeCall] copies the first argument
    over the second, so [b] is lost.  (The design document has [x, a, b].) *)
Theorem pipeCall_two_arguments :
  let run := Parser.parseAST 20 Samples.pipe_two_arguments Parser.initial in
  returned run =
    Some (Some [Some (NODE_EXPRESSION 1
             (Some (NODE_CALL (Samples.variable_ "f")
                      (Samples.tk TOKEN_LEFT_PAREN "(")
                      [Samples.variable_ "x"; Samples.variable_ "a";
                       Samples.variable_ "a"])))])
  /\ option_map stderr (ended_in run) = Some [].
Proof. vm_compute. split; reflexivity. Qed.

(** With one argument the shift is harmless: [x | f(y);] gives [x, y]. *)
Lemma pipeCall_one_argument :
  returned (Parser.parseAST 20 Samples.pipe_one_argument Parser.initial) =
    Some (Some [Some (NODE_EXPRESSION 1
             (Some (NODE_CALL (Samples.variable_ "f")
                      (Samples.tk TOKEN_LEFT_PAREN "(")
                      [Samples.variable_ "x"; Samples.variable_ "y"])))]).
Proof. vm_compute. reflexivity. Qed.

(** [x | 3] is rejected with the pipe diagnostic. *)
Lemma pipeCall_into_number :
  let run := Parser.parseAST 20 Samples.pipe_into_number Parser.initial in
  returned run = Some None
  /\ option_map (fun p => List.map d_message (stderr p)) (ended_in run) =
       Some ["Expected functional call after pipe operator!"].
Proof. vm_compute. split; reflexivity. Qed.

(** *** [synchronize], had it been called *)

Lemma scanLoop_pending l p :
  no_error_tokens l ->
  let p' := scanLoop l p in
  pending_tokens p' <= List.length l /\
  no_error_tokens (source p') /\
  panicMode p' = panicMode p /\ stderr p' = stderr p /\ hadError p' = hadError p /\
  previous p' = previous p.
Proof.
  intros Hl. destruct l as [ | t rest ]; cbn.
  - unfold pending_tokens. cbn. repeat split; auto.
  - inversion Hl as [ | ? ? Ht Hrest ]; subst. rewrite Ht.
    unfold pending_tokens. cbn.
    repeat split; auto.
    destruct (tt_eqb (type t) TOKEN_EOF); lia.
Qed.

Lemma synchronize_loop_stops n : forall p,
  no_error_tokens (source p) ->
  pending_tokens p < n ->
  exists p',
    synchronize_loop n p = Some (Returns tt p') /\
    synchronized p' /\
    panicMode p' = panicMode p /\ stderr p' = stderr p /\ hadError p' = hadError p.
Proof.
  induction n as [ | n IH ]; intros p Hsrc Hn; [ lia | ].
  cbn [synchronize_loop]. unfold bind at 1, get_state.
  destruct (tt_eqb (type (current p)) TOKEN_EOF) eqn:Heof.
  - exists p. repeat split; auto. left. now apply tt_eqb_eq.
  - destruct (tt_eqb (type (previous p)) TOKEN_SEMICOLON) eqn:Hsemi.
    + exists p. repeat split; auto. right; left. now apply tt_eqb_eq.
    + destruct (synchronization_point (type (current p))) eqn:Hpt.
      * exists p. repeat split; auto. right; right. exact Hpt.
      * unfold bind, advance, modify.
        destruct (@scanLoop_pending (source p) (set_previous (current p) p) Hsrc)
          as (Hm & Hs' & Hp & He & Hh & _).
        cbv zeta in *.
        destruct (IH (scanLoop (source p) (set_previous (current p) p)))
          as (p' & E & Hsync & Hp' & He' & Hh').
        -- exact Hs'.
        -- unfold pending_tokens in Hn. rewrite Heof in Hn. cbn in Hm. lia.
        -- exists p'. split; [ exact E | ].
           split; [ exact Hsync | ].
           cbn in Hp, He, Hh. repeat split; congruence.
Qed.

(** [synchronize] itself does what the design document says: it clears
    the panic flag, prints nothing, and returns at the end of the file,
    just after a semicolon, or in front of one of [class fun var for if
    while return]. *)
Lemma synchronize_clears_panic fuel p :
  no_error_tokens (source p) ->
  S (List.length (source p)) < fuel ->
  exists p',
    synchronize fuel p = Some (Returns tt p') /\
    panicMode p' = false /\ synchronized p' /\ stderr p' = stderr p.
Proof.
  intros Hsrc Hn. unfold synchronize, bind, modify.
  destruct (@synchronize_loop_stops fuel (set_panicMode false p))
    as (p' & E & Hs & Hp & He & _).
  - exact Hsrc.
  - unfold pending_tokens. cbn. destruct (tt_eqb (type (current p)) TOKEN_EOF); lia.
  - exists p'. repeat split; auto.
Qed.

(** C7.  [var x; var y;] has an error in each of its two statements,
    and the parse prints one diagnostic only: the panic flag set by the
    first error is still set when the second is found. *)
Theorem two_errors_one_diagnostic :
  let run := Parser.parseAST 20 Samples.two_bad_statements Parser.initial in
  returned run = Some None
  /\ option_map (fun p => List.map d_message (stderr p)) (ended_in run) =
       Some ["Var without initializer must provide a type!"]
  /\ option_map panicMode (ended_in run) = Some true.
Proof. vm_compute. repeat split; reflexivity. Qed.

(** *** A parse that does not end *)

Section InterfaceLoop.
Variable fuel : nat.
Variable self : Forward.

(** At a semicolon [methodSignature] returns without consuming it. *)
Lemma methodSignature_at_semicolon p :
  type (current p) = TOKEN_SEMICOLON ->
  exists r p',
    methodSignature (S fuel) self p = Some (Returns r p') /\
    type (current p') = TOKEN_SEMICOLON.
Proof.
  destruct p as [[ty lx ln] pv he pm src err]. simpl. intros ->.
  destruct pm; cbv; eexists; eexists; split; reflexivity.
Qed.

Lemma interface_members_at_semicolon k : forall body p,
  type (current p) = TOKEN_SEMICOLON ->
  interface_members (S fuel) self k body p = None.
Proof.
  induction k as [|k IH]; intros body p Hp; [reflexivity | ].
  destruct (methodSignature_at_semicolon p Hp) as (r & p' & Hm & Hp').
  cbn [interface_members].
  eapply bind_returns_none.
  { unfold check, bind, get_state, ret. rewrite Hp. reflexivity. }
  eapply bind_returns_none.
  { unfold check, bind, get_state, ret. rewrite Hp. reflexivity. }
  cbv beta iota delta [negb andb].
  eapply bind_returns_none.
  { unfold match_, check, bind, get_state, ret. rewrite Hp. reflexivity. }
  cbv beta iota.
  eapply bind_returns_none; [ exact Hm | ].
  apply IH. exact Hp'.
Qed.
End InterfaceLoop.

Ltac run_primitive :=
  eapply bind_returns_none; [ cbv; reflexivity | cbv beta iota delta [negb andb] ].

(** C8.  On [interface I { ; }] the parser prints a diagnostic and then
    stays in the member loop of [interfaceDeclaration] for ever: no
    amount of fuel lets [parseAST] return, so it never returns [None]. *)
Theorem parseAST_interface_semicolon_never_returns :
  forall fuel,
    Parser.parseAST fuel Samples.interface_with_semicolon Parser.initial = None.
Proof.
  intros [|f]; [reflexivity | ].
  unfold parseAST.
  do 4 run_primitive.
  apply bind_none. cbn [program_items].
  run_primitive.
  apply bind_none. unfold declaration.
  do 4 run_primitive.
  unfold interfaceDeclaration.
  do 7 run_primitive.
  apply bind_none.
  apply interface_members_at_semicolon. reflexivity.
Qed.

End ParserFacts.

(** ** The checker: subtyping *)

Module TypesFacts.
Import Types.

Lemma Refines_refl {S A} (m : Run S A) : Refines m m.
Proof. intros s r H. exact H. Qed.

Lemma Refines_bind {S A B} (m m' : Run S A) (k k' : A -> Run S B) :
  Refines m m' -> (forall a, Refines (k a) (k' a)) -> Refines (bind m k) (bind m' k').
Proof.
  intros Hm Hk s r. unfold bind.
  destruct (m s) as [[a s1|s1]|] eqn:E; [ | | discriminate ].
  - rewrite (Hm _ _ E). apply Hk.
  - rewrite (Hm _ _ E). auto.
Qed.

Lemma Refines_out_of_fuel {S A} (m : Run S A) : Refines out_of_fuel m.
Proof. intros s r H. discriminate. Qed.

Ltac refines :=
  repeat match goal with
  | |- Refines ?m ?m => apply Refines_refl
  | |- Refines (bind _ _) (bind _ _) => apply Refines_bind; [ | intro ]
  | |- Refines (if ?b then _ else _) (if ?b then _ else _) => destruct b
  | |- Refines (match ?x with _ => _ end) (match ?x with _ => _ end) => destruct x
  | |- Refines _ _ => solve [auto]
  end.

(** *** More fuel, same answer *)

Section Monotone.
Variables sub sub' : option Ptr -> option Ptr -> M bool.
Hypothesis Hsub : forall a b, Refines (sub a b) (sub' a b).

Lemma resolveGenericArgument_mono remaining : forall depth a b,
  Refines (resolveGenericArgument sub remaining depth a b)
          (resolveGenericArgument sub' remaining depth a b).
Proof. induction remaining; intros; cbn [resolveGenericArgument]; refines. Qed.

Lemma all_subtypes_mono supers : forall subs,
  Refines (all_subtypes sub subs supers) (all_subtypes sub' subs supers).
Proof. induction supers; intros; simpl; refines. Qed.

Lemma entries_subtypes_mono targets entries :
  Refines (entries_subtypes sub targets entries) (entries_subtypes sub' targets entries).
Proof. induction entries; simpl; refines. Qed.

Lemma isSubType_super_mono a b o1 o2 :
  Refines (isSubType_super sub a b o1 o2) (isSubType_super sub' a b o1 o2).
Proof.
  pose proof resolveGenericArgument_mono.
  pose proof all_subtypes_mono.
  pose proof entries_subtypes_mono.
  unfold isSubType_super. refines.
Qed.

Lemma isSubType_body_mono a b :
  Refines (isSubType_body sub a b) (isSubType_body sub' a b).
Proof.
  pose proof isSubType_super_mono.
  unfold isSubType_body. refines.
Qed.
End Monotone.

Lemma isSubType_step fuel : forall a b,
  Refines (isSubType fuel a b) (isSubType (S fuel) a b).
Proof.
  induction fuel as [|f IH]; intros a b.
  - apply Refines_out_of_fuel.
  - cbn [isSubType]. apply isSubType_body_mono. exact IH.
Qed.

Lemma isSubType_more fuel extra a b :
  Refines (isSubType fuel a b) (isSubType (extra + fuel) a b).
Proof.
  induction extra as [|k IH]; [apply Refines_refl | ].
  intros s r H. apply isSubType_step. now apply IH.
Qed.

Lemma isSubType_le fuel fuel' a b :
  fuel <= fuel' -> Refines (isSubType fuel a b) (isSubType fuel' a b).
Proof.
  intro H. replace fuel' with ((fuel' - fuel) + fuel) by lia. apply isSubType_more.
Qed.

(** Two runs of the same check from the same state agree, whatever the
    fuel. *)
Lemma isSubType_deterministic f1 f2 a b c r1 r2 :
  isSubType f1 a b c = Some r1 -> isSubType f2 a b c = Some r2 -> r1 = r2.
Proof.
  intros H1 H2.
  apply (@isSubType_le f1 (Nat.max f1 f2) a b (Nat.le_max_l f1 f2)) in H1.
  apply (@isSubType_le f2 (Nat.max f1 f2) a b (Nat.le_max_r f1 f2)) in H2.
  congruence.
Qed.


(** *** Reading the heap *)

Lemma deref_at c p o :
  nth_error (heap c) p = Some o -> deref (Some p) c = Some (Returns o c).
Proof. intro H. unfold deref, bind, get_state, ret. now rewrite H. Qed.

Lemma ptr_eqb_refl p : ptr_eqb p p = true.
Proof. destruct p; simpl; auto using Nat.eqb_refl. Qed.

Lemma ptr_eqb_eq p q : ptr_eqb p q = true <-> p = q.
Proof.
  destruct p, q; simpl; split; intro H; try congruence; try discriminate.
  apply Nat.eqb_eq in H. now subst.
  injection H as ->. apply Nat.eqb_refl.
Qed.

Lemma ptr_eqb_neq p q : p <> q -> ptr_eqb p q = false.
Proof.
  intro H. destruct (ptr_eqb p q) eqn:E; [ | reflexivity ].
  apply ptr_eqb_eq in E. contradiction.
Qed.

(** What [singletons_made] says, unfolded. *)
Lemma singletons_made_inv c :
  singletons_made c = true ->
  exists never any f m g s f' m' g',
    neverType c = Some never /\ anyType c = Some any /\ never <> any /\
    nth_error (heap c) never = Some (SimpleType None f m g) /\
    nth_error (heap c) any = Some (SimpleType s f' m' g').
Proof.
  unfold singletons_made.
  destruct (neverType c) as [never|]; [ | discriminate ].
  destruct (anyType c) as [any|]; [ | discriminate ].
  destruct (Nat.eqb never any) eqn:E; [ discriminate | ].
  apply Nat.eqb_neq in E. simpl.
  destruct (nth_error (heap c) never) as [[[|] f m g| | | | |]|] eqn:Hnever;
    destruct (nth_error (heap c) any) as [[s f' m' g'| | | | |]|] eqn:Hany;
    simpl; try discriminate.
  intros _. exists never, any, f, m, g, s, f', m', g'. auto.
Qed.

(** *** The laws of [Never], [Any] and identity *)

Lemma isSubType_identity fuel T c :
  isSubType (S fuel) T T c = Some (Returns true c).
Proof.
  cbn [isSubType]. unfold isSubType_body, bind, get_state.
  now rewrite ptr_eqb_refl.
Qed.

Lemma isSubType_any fuel T c :
  singletons_made c = true ->
  isSubType (S fuel) T (anyType c) c = Some (Returns true c).
Proof.
  intro H. destruct (singletons_made_inv c H)
    as (never & any & f & m & g & s & f' & m' & g' & Hn & Ha & Hne & _ & _).
  cbn [isSubType]. unfold isSubType_body, bind, get_state.
  destruct (ptr_eqb T (anyType c)); [ reflexivity | ].
  rewrite Hn, Ha. simpl.
  replace (Nat.eqb any never) with false
    by (symmetry; apply Nat.eqb_neq; congruence).
  now rewrite Nat.eqb_refl.
Qed.

Lemma isSubType_never_simple fuel t c :
  singletons_made c = true ->
  Some t <> neverType c -> Some t <> anyType c ->
  kind_at c t = Some OBJ_PARSE_TYPE ->
  isSubType (S fuel) (neverType c) (Some t) c = Some (Returns false c).
Proof.
  intros H Hn' Ha' Hk.
  destruct (singletons_made_inv c H)
    as (never & any & f & m & g & s & f' & m' & g' & Hn & Ha & Hne & Hhn & Hha).
  unfold kind_at in Hk.
  destruct (nth_error (heap c) t) as [[s1 f1 m1 g1| | | | |]|] eqn:Ht; try discriminate.
  cbn [isSubType]. unfold isSubType_body.
  erewrite bind_returns by reflexivity. cbv beta.
  rewrite (ptr_eqb_neq (p:=neverType c) (q:=Some t)) by congruence.
  rewrite (ptr_eqb_neq (p:=Some t) (q:=neverType c)) by congruence.
  rewrite (ptr_eqb_neq (p:=Some t) (q:=anyType c)) by congruence.
  rewrite Hn. cbv iota.
  erewrite bind_returns by (apply deref_at; eassumption). cbv beta iota.
  erewrite bind_returns by reflexivity. cbv beta iota.
  erewrite bind_returns by (apply deref_at; eassumption).
  reflexivity.
Qed.

(** C1, as the code has it.  Identity and [Any] are as the claim says:
    [isSubType(T, T)] and [isSubType(T, Any)] are true for every [T].
    [Never] is not below every type: [isSubType(Never, T)] is true for
    [T = Never] and [T = Any], and false for every other [T] that is a
    Simple type, because [Never] has no supertype link. *)
Theorem subtyping_laws c T fuel :
  singletons_made c = true ->
  isSubType (S fuel) T T c = Some (Returns true c) /\
  isSubType (S fuel) T (anyType c) c = Some (Returns true c) /\
  isSubType (S fuel) (neverType c) (neverType c) c = Some (Returns true c) /\
  isSubType (S fuel) (neverType c) (anyType c) c = Some (Returns true c) /\
  (forall t, T = Some t -> T <> neverType c -> T <> anyType c ->
             kind_at c t = Some OBJ_PARSE_TYPE ->
             isSubType (S fuel) (neverType c) T c = Some (Returns false c)).
Proof.
  intro H. repeat split.
  - apply isSubType_identity.
  - now apply isSubType_any.
  - apply isSubType_identity.
  - now apply isSubType_any.
  - intros t -> Hn Ha Hk. now apply isSubType_never_simple.
Qed.

Lemma subtyping_laws_witness :
  singletons_made Samples.after_startup = true /\
  isSubType 1 (numberType Samples.after_startup) (anyType Samples.after_startup)
            Samples.after_startup = Some (Returns true Samples.after_startup).
Proof.
  split; [ reflexivity | ].
  apply (@subtyping_laws Samples.after_startup (numberType Samples.after_startup) 0).
  reflexivity.
Defined.

(** C1 as stated fails: after [makeTypes], [isSubType(Never, Number)]
    is false. *)
Lemma never_is_not_below_number :
  let c := Samples.after_startup in
  singletons_made c = true /\
  isSubType 5 (neverType c) (numberType c) c = Some (Returns false c).
Proof. vm_compute. split; reflexivity. Qed.


(** *** What a subtype check can change *)

Ltac keeps :=
  cbv zeta;
  repeat
    match goal with
    | |- Preserves _ (bind _ _) => apply Preserves_bind; [ | intro ]
    | |- Preserves _ (ret _) => apply Preserves_ret
    | |- Preserves _ fault => apply Preserves_fault
    | |- Preserves _ out_of_fuel => apply Preserves_out_of_fuel
    | |- Preserves _ get_state => apply Preserves_get_state
    | |- Preserves _ (if ?b then _ else _) => destruct b
    | |- Preserves _ (match ?x with _ => _ end) => destruct x
    | |- Preserves _ _ => solve [auto]
    end.

(** [isSubType] writes to the state in two places only: where it
    records a generic resolution and where it reports a count mismatch.
    Whatever those two keep, it keeps. *)
Section Writes.
Variable J : Checker -> Prop.
Hypothesis J_resolution :
  forall depth k v, Preserves J (update_scope depth (set_resolution k v)).
Hypothesis J_mismatch :
  Preserves J (error "Type argument count mismatch in generic").

Lemma deref_keeps p : Preserves J (deref p).
Proof. unfold deref. keeps. Qed.
Hint Resolve deref_keeps J_resolution J_mismatch : core.

Section Body.
Variable isSubType_ : option Ptr -> option Ptr -> M bool.
Hypothesis isSubType_keeps_ : forall a b, Preserves J (isSubType_ a b).
Hint Resolve isSubType_keeps_ : core.

Lemma resolveGenericArgument_keeps remaining : forall depth a b,
  Preserves J (resolveGenericArgument isSubType_ remaining depth a b).
Proof.
  induction remaining as [ | n IH ]; intros depth a b; cbn [resolveGenericArgument]; keeps.
Qed.

Lemma all_subtypes_keeps supers : forall subs,
  Preserves J (all_subtypes isSubType_ subs supers).
Proof.
  induction supers as [ | x supers IH ]; intros subs; cbn [all_subtypes]; keeps.
Qed.

Lemma entries_subtypes_keeps targets entries :
  Preserves J (entries_subtypes isSubType_ targets entries).
Proof.
  induction entries as [ | [k v] rest IH ]; cbn [entries_subtypes]; keeps.
Qed.

Lemma bind_generics_keeps depth actuals : forall formals,
  Preserves J (bind_generics depth formals actuals).
Proof.
  induction actuals as [ | x actuals IH ]; intros formals; cbn [bind_generics]; keeps.
Qed.

Hint Resolve resolveGenericArgument_keeps all_subtypes_keeps entries_subtypes_keeps
     bind_generics_keeps : core.

Lemma isSubType_super_keeps a b sub sup :
  Preserves J (isSubType_super isSubType_ a b sub sup).
Proof. unfold isSubType_super. keeps. Qed.
Hint Resolve isSubType_super_keeps : core.

Lemma isSubType_body_keeps a b : Preserves J (isSubType_body isSubType_ a b).
Proof. unfold isSubType_body. keeps. Qed.
End Body.

Lemma isSubType_keeps fuel : forall a b, Preserves J (isSubType fuel a b).
Proof.
  induction fuel as [ | fuel IH ]; intros a b; cbn [isSubType].
  - apply Preserves_out_of_fuel.
  - now apply isSubType_body_keeps.
Qed.
End Writes.

Lemma same_scope_refl e : same_scope e e.
Proof. repeat split. Qed.

Lemma Forall2_same_scope_refl l : Forall2 same_scope l l.
Proof. induction l; constructor; auto using same_scope_refl. Qed.

Lemma resolutions_only_refl c : resolutions_only c c.
Proof. repeat split; auto using Forall2_same_scope_refl. Qed.

Lemma Forall2_same_scope_set k v : forall l l' depth e,
  Forall2 same_scope l l' ->
  nth_error l' depth = Some e ->
  Forall2 same_scope l (array_set depth (set_resolution k v e) l').
Proof.
  intros l l' depth e H. revert depth.
  induction H as [ | x y l l' Hxy H IH ]; intros depth Hn.
  - destruct depth; discriminate.
  - destruct depth as [ | depth ]; simpl in *.
    + injection Hn as <-. constructor; [ | exact H ].
      destruct Hxy as (H1 & H2 & H3). repeat split; assumption.
    + constructor; [ exact Hxy | now apply IH ].
Qed.

Lemma update_resolution_frame c0 depth k v :
  Preserves (resolutions_only c0) (update_scope depth (set_resolution k v)).
Proof.
  intros s (Hg & Hs & Hd). unfold update_scope, bind, get_state.
  destruct (nth_error (currentEnv s) depth) as [ e | ] eqn:E.
  - cbn. split; [ destruct s; exact Hg | ].
    split; [ | destruct s; exact Hd ].
    replace (currentEnv (set_currentEnv
               (array_set depth (set_resolution k v e) (currentEnv s)) s))
      with (array_set depth (set_resolution k v e) (currentEnv s))
      by (destruct s; reflexivity).
    now apply Forall2_same_scope_set.
  - cbn. repeat split; assumption.
Qed.

Lemma mismatch_frame c0 :
  Preserves (resolutions_only c0) (error "Type argument count mismatch in generic").
Proof.
  intros s (Hg & Hs & Hd).
  destruct s as [h e pm he cc ca cf mo bm n1 n2 n3 n4 n5 n6 n7 n8 n9 n10 ps fs].
  destruct ps as [cur prev phe ppm src err].
  unfold resolutions_only, globals, stderr, error, errorAt, modify, errorAt_state in *.
  cbn in *. destruct pm; cbn.
  - repeat split; assumption.
  - split; [ exact Hg | ]. split; [ exact Hs | ].
    intros d Hin. apply in_app_or in Hin. destruct Hin as [ Hin | [ <- | [] ] ].
    + now apply Hd.
    + right. reflexivity.
Qed.

Lemma isSubType_frame fuel a b c o :
  isSubType fuel a b c = Some o -> resolutions_only c (final_state o).
Proof.
  intro H.
  pose proof (@isSubType_keeps (resolutions_only c)
                (@update_resolution_frame c) (@mismatch_frame c) fuel a b c
                (resolutions_only_refl c)) as K.
  now rewrite H in K.
Qed.

Lemma resolutions_only_same_types c c' : resolutions_only c c' -> same_types c c'.
Proof.
  intros (Hg & _). unfold globals in Hg. injection Hg as Hh _ _ _ _ _ _ _ Hn Ha.
  repeat split; assumption.
Qed.

Lemma isSubType_same_types fuel a b c r c' :
  isSubType fuel a b c = Some (Returns r c') -> same_types c c'.
Proof.
  intro H. apply resolutions_only_same_types.
  exact (@isSubType_frame fuel a b c (Returns r c') H).
Qed.

(** *** A union on the left *)

Tactic Notation "run_with" tactic3(tac) := erewrite bind_returns by tac; cbv beta iota.

Lemma deref_cases p c :
  (exists a o, p = Some a /\ nth_error (heap c) a = Some o /\
               deref p c = Some (Returns o c)) \/
  deref p c = Some (Faults c).
Proof.
  unfold deref, bind, get_state, ret, fault.
  destruct p as [a|]; [ | now right ].
  destruct (nth_error (heap c) a) as [o|] eqn:E; [ left; eauto | now right ].
Qed.

Lemma same_types_refl c : same_types c c.
Proof. repeat split. Qed.

Lemma same_types_trans c0 c1 c2 :
  same_types c0 c1 -> same_types c1 c2 -> same_types c0 c2.
Proof. unfold same_types. intuition congruence. Qed.




Lemma update_scope_cases depth f c :
  (exists c', update_scope depth f c = Some (Returns tt c') /\ same_types c c') \/
  update_scope depth f c = Some (Faults c).
Proof.
  unfold update_scope, bind, get_state, modify, fault.
  destruct (nth_error (currentEnv c) depth); [ left | now right ].
  eexists. split; [ reflexivity | repeat split ].
Qed.

Lemma bind_generics_cases depth actuals : forall formals c,
  (exists c', bind_generics depth formals actuals c = Some (Returns tt c') /\
              same_types c c') \/
  (exists c', bind_generics depth formals actuals c = Some (Faults c')).
Proof.
  induction actuals as [|actual actuals IH]; intros formals c; simpl.
  - left. exists c. split; [ reflexivity | apply same_types_refl ].
  - destruct formals as [|formal formals]; [ right; now exists c | ].
    destruct (update_scope_cases depth (set_resolution formal actual) c)
      as [(c1 & E1 & S1) | E1].
    + erewrite bind_returns by exact E1.
      destruct (IH formals c1) as [(c2 & E2 & S2) | (c2 & E2)].
      * left. exists c2. split; [ exact E2 | eapply same_types_trans; eauto ].
      * right. now exists c2.
    + right. exists c. unfold bind. now rewrite E1.
Qed.















(** *** Functors *)

(** One unfolding of [isSubType] on two distinct functors. *)
Lemma functor_step f c F1 F2 args1 ret1 g1 args2 ret2 g2 :
  singletons_made c = true ->
  nth_error (heap c) F1 = Some (FunctorType args1 ret1 g1) ->
  nth_error (heap c) F2 = Some (FunctorType args2 ret2 g2) ->
  F1 <> F2 ->
  isSubType (S f) (Some F1) (Some F2) c =
  (if negb (List.length args2 =? List.length args1)%nat then ret false
   else ok <- all_subtypes (isSubType f) args1 args2 ;;
        if ok then isSubType f ret1 ret2 else ret false) c.
Proof.
  intros Hs H1 H2 Hne.
  destruct (singletons_made_inv c Hs)
    as (never & any & f0 & m0 & g0 & s1 & f1 & m1 & g1' & Hn & Ha & Hna & Hhn & Hha).
  assert (F2 <> never) by (intros ->; congruence).
  assert (F2 <> any) by (intros ->; congruence).
  cbn [isSubType]. unfold isSubType_body.
  run_with reflexivity.
  rewrite (ptr_eqb_neq (p:=Some F1) (q:=Some F2)) by congruence.
  rewrite (ptr_eqb_neq (p:=Some F2) (q:=neverType c)) by congruence.
  rewrite (ptr_eqb_neq (p:=Some F2) (q:=anyType c)) by congruence.
  run_with (apply deref_at; eassumption).
  run_with reflexivity.
  run_with (apply deref_at; eassumption).
  reflexivity.
Qed.

Lemma all_subtypes_pairwise (sub : option Ptr -> option Ptr -> M bool) supers :
  forall subs c c1,
    List.length subs = List.length supers ->
    (all_subtypes sub subs supers c = Some (Returns true c1) <->
     pairwise (fun a b s s' => sub a b s = Some (Returns true s')) subs supers c c1).
Proof.
  induction supers as [|b supers IH]; intros subs c c1 Hlen.
  - destruct subs; [ | discriminate ]. simpl. split.
    + intro H. injection H as <-. constructor.
    + intro H. inversion H. reflexivity.
  - destruct subs as [|a subs]; [ discriminate | ]. simpl in Hlen.
    cbn [all_subtypes]. split.
    + intro H. apply bind_inv in H.
      destruct H as [(ok & s1 & E & H) | (s1 & _ & H)]; [ | discriminate ].
      destruct ok; [ | discriminate ].
      econstructor; [ exact E | ]. apply IH; [ lia | exact H ].
    + intro H. inversion H; subst.
      erewrite bind_returns by eassumption. cbv beta iota.
      apply IH; [ lia | assumption ].
Qed.

Lemma pairwise_length holds subs supers c c1 :
  pairwise holds subs supers c c1 -> List.length subs = List.length supers.
Proof. induction 1; simpl; congruence. Qed.

(** The checks of a sequence can all be run with one amount of fuel. *)
Lemma pairwise_common_fuel subs supers c c1 :
  pairwise accepts subs supers c c1 ->
  exists f, forall f', f <= f' ->
    pairwise (fun a b s s' => isSubType f' a b s = Some (Returns true s'))
             subs supers c c1.
Proof.
  induction 1 as [c | a b subs supers c c1 c2 (fa & Ha) _ (f & IH)].
  - exists 0. intros. constructor.
  - exists (Nat.max fa f). intros f' Hf'.
    econstructor.
    + eapply isSubType_le; [ | exact Ha ]. lia.
    + apply IH. lia.
Qed.

Lemma pairwise_accepts_of f subs supers c c1 :
  pairwise (fun a b s s' => isSubType f a b s = Some (Returns true s')) subs supers c c1 ->
  pairwise accepts subs supers c c1.
Proof.
  induction 1; econstructor; eauto. now exists f.
Qed.

Lemma accepts_identity a c : accepts a a c c.
Proof. exists 1. apply isSubType_identity. Qed.

Lemma accepts_identity_inv a c c' : accepts a a c c' -> c' = c.
Proof.
  intros (f & H).
  pose proof (isSubType_identity 0 a c) as I.
  eapply isSubType_deterministic in H; [ | exact I ].
  now injection H.
Qed.

Lemma pairwise_identity l : forall c, pairwise accepts l l c c.
Proof. induction l; intro c; econstructor; eauto using accepts_identity. Qed.

Lemma pairwise_identity_inv l : forall c c', pairwise accepts l l c c' -> c' = c.
Proof.
  induction l as [|a l IH]; intros c c' H; inversion H; subst; [ reflexivity | ].
  match goal with E : accepts _ _ _ _ |- _ => apply accepts_identity_inv in E; subst end.
  now apply IH.
Qed.

(** Two functors: arity, then the parameters in order, then the return
    types, all in the same direction. *)
Lemma functor_subtype_iff c c' F1 F2 args1 ret1 g1 args2 ret2 g2 :
  singletons_made c = true ->
  nth_error (heap c) F1 = Some (FunctorType args1 ret1 g1) ->
  nth_error (heap c) F2 = Some (FunctorType args2 ret2 g2) ->
  (accepts (Some F1) (Some F2) c c' <->
   List.length args1 = List.length args2 /\
   exists c1, pairwise accepts args1 args2 c c1 /\ accepts ret1 ret2 c1 c').
Proof.
  intros Hs H1 H2.
  destruct (Nat.eq_dec F1 F2) as [-> | Hne].
  - rewrite H1 in H2. injection H2 as <- <- <-. split.
    + intro H. apply accepts_identity_inv in H. subst c'.
      split; [ reflexivity | ]. exists c.
      split; [ apply pairwise_identity | apply accepts_identity ].
    + intros (_ & c1 & Hp & Hr).
      apply pairwise_identity_inv in Hp. subst c1.
      apply accepts_identity_inv in Hr. subst c'.
      apply accepts_identity.
  - split.
    + intros ([|f] & H); [ discriminate | ].
      rewrite (@functor_step f c F1 F2 args1 ret1 g1 args2 ret2 g2 Hs H1 H2 Hne) in H.
      destruct (List.length args2 =? List.length args1)%nat eqn:El;
        [ | discriminate ].
      apply Nat.eqb_eq in El. simpl in H.
      apply bind_inv in H.
      destruct H as [(ok & s1 & E & H) | (s1 & _ & H)]; [ | discriminate ].
      destruct ok; [ | discriminate ].
      split; [ congruence | ]. exists s1. split.
      * apply (@pairwise_accepts_of f).
        apply all_subtypes_pairwise; [ congruence | exact E ].
      * now exists f.
    + intros (Hlen & c1 & Hp & (fr & Hr)).
      destruct (@pairwise_common_fuel _ _ _ _ Hp) as (fp & Hfp).
      exists (S (Nat.max fp fr)).
      rewrite (@functor_step _ c F1 F2 args1 ret1 g1 args2 ret2 g2 Hs H1 H2 Hne).
      rewrite Hlen, Nat.eqb_refl. simpl.
      erewrite bind_returns.
      2:{ apply all_subtypes_pairwise; [ exact Hlen | ]. apply Hfp. lia. }
      cbv beta iota.
      eapply isSubType_le; [ | exact Hr ]. lia.
Qed.

Lemma plain_left_not_below_functor fuel c L F2 o args2 ret2 g2 :
  singletons_made c = true ->
  nth_error (heap c) L = Some o ->
  unwrapped_left o = true ->
  nth_error (heap c) F2 = Some (FunctorType args2 ret2 g2) ->
  isSubType (S fuel) (Some L) (Some F2) c = Some (Returns false c).
Proof.
  intros Hs HL Ho H2.
  destruct (singletons_made_inv c Hs)
    as (never & any & f0 & m0 & g0 & s1 & f1 & m1 & g1' & Hn & Ha & Hna & Hhn & Hha).
  assert (L <> F2) by (intros ->; rewrite HL in H2; injection H2 as ->; discriminate).
  assert (F2 <> never) by (intros ->; congruence).
  assert (F2 <> any) by (intros ->; congruence).
  cbn [isSubType]. unfold isSubType_body.
  run_with reflexivity.
  rewrite (ptr_eqb_neq (p:=Some L) (q:=Some F2)) by congruence.
  rewrite (ptr_eqb_neq (p:=Some F2) (q:=neverType c)) by congruence.
  rewrite (ptr_eqb_neq (p:=Some F2) (q:=anyType c)) by congruence.
  run_with (apply deref_at; eassumption).
  destruct o; try discriminate;
    (run_with reflexivity; run_with (apply deref_at; eassumption); reflexivity).
Qed.

Lemma generic_left_below_functor c c' G F2 target generics args2 ret2 g2 :
  singletons_made c = true ->
  nth_error (heap c) G = Some (GenericType target generics) ->
  nth_error (heap c) F2 = Some (FunctorType args2 ret2 g2) ->
  accepts target (Some F2) c c' ->
  accepts (Some G) (Some F2) c c'.
Proof.
  intros Hs HG H2 (f & H).
  destruct (singletons_made_inv c Hs)
    as (never & any & f0 & m0 & g0 & s1 & f1 & m1 & g1' & Hn & Ha & Hna & Hhn & Hha).
  assert (G <> F2) by (intros ->; congruence).
  assert (F2 <> never) by (intros ->; congruence).
  assert (F2 <> any) by (intros ->; congruence).
  exists (S f).
  cbn [isSubType]. unfold isSubType_body.
  run_with reflexivity.
  rewrite (ptr_eqb_neq (p:=Some G) (q:=Some F2)) by congruence.
  rewrite (ptr_eqb_neq (p:=Some F2) (q:=neverType c)) by congruence.
  rewrite (ptr_eqb_neq (p:=Some F2) (q:=anyType c)) by congruence.
  run_with (apply deref_at; eassumption).
  erewrite bind_returns.
  2:{ erewrite bind_returns by exact H. reflexivity. }
  reflexivity.
Qed.

(** A generic application on the left is below a functor exactly when
    its target is. *)
Lemma generic_left_functor_iff c c' (G F2 : Ptr) target generics args2 ret2 g2 :
  singletons_made c = true ->
  nth_error (heap c) G = Some (GenericType target generics) ->
  nth_error (heap c) F2 = Some (FunctorType args2 ret2 g2) ->
  (accepts (Some G) (Some F2) c c' <-> accepts target (Some F2) c c').
Proof.
  intros Hs HG H2. split; [ | now apply generic_left_below_functor with generics args2 ret2 g2 ].
  destruct (singletons_made_inv c Hs)
    as (never & any & f0 & m0 & g0 & s1 & f1 & m1 & g1' & Hn & Ha & Hna & Hhn & Hha).
  assert (HGF : G <> F2) by (intros ->; congruence).
  assert (HFn : F2 <> never) by (intros ->; congruence).
  assert (HFa : F2 <> any) by (intros ->; congruence).
  intros ([ | f ] & H); [ discriminate | ].
  cbn [isSubType] in H. unfold isSubType_body in H.
  erewrite bind_returns in H by reflexivity. cbv beta in H.
  rewrite (ptr_eqb_neq (p:=Some G) (q:=Some F2)) in H by congruence.
  rewrite (ptr_eqb_neq (p:=Some F2) (q:=neverType c)) in H by congruence.
  rewrite (ptr_eqb_neq (p:=Some F2) (q:=anyType c)) in H by congruence.
  erewrite bind_returns in H by (apply deref_at; eassumption). cbv beta iota in H.
  apply bind_inv in H.
  destruct H as [ (d & c1 & Ed & H) | (c1 & _ & H) ]; [ | discriminate ].
  apply bind_inv in Ed.
  destruct Ed as [ (ok & c2 & Et & Ed) | (c2 & _ & Ed) ]; [ | discriminate ].
  injection Ed as <- <-.
  destruct ok.
  - injection H as <-. now exists f.
  - destruct (isSubType_same_types _ _ _ _ Et) as (Hh & _ & _).
    erewrite bind_returns in H by (apply deref_at; rewrite Hh; eassumption).
    discriminate.
Qed.

(** A generic parameter on the left is below a functor exactly when it
    has a resolution in the current environments and that resolution
    is. *)
Lemma parameter_left_functor_iff c c' (P F2 : Ptr) e n args2 ret2 g2 :
  singletons_made c = true ->
  nth_error (heap c) P = Some (GenericTypeDefinition e n) ->
  nth_error (heap c) F2 = Some (FunctorType args2 ret2 g2) ->
  (accepts (Some P) (Some F2) c c' <->
   exists inner, findGenericResolution (currentEnv c) (Some P) = Some inner /\
                 accepts (Some inner) (Some F2) c c').
Proof.
  intros Hs HP H2.
  destruct (singletons_made_inv c Hs)
    as (never & any & f0 & m0 & g0 & s1 & f1 & m1 & g1' & Hn & Ha & Hna & Hhn & Hha).
  assert (HPF : P <> F2) by (intros ->; congruence).
  assert (HFn : F2 <> never) by (intros ->; congruence).
  assert (HFa : F2 <> any) by (intros ->; congruence).
  assert (Step : forall f,
             isSubType (S f) (Some P) (Some F2) c =
             match currentEnv c with
             | [] => Some (Faults c)
             | _ :: _ =>
                 match findGenericResolution (currentEnv c) (Some P) with
                 | Some inner => isSubType f (Some inner) (Some F2) c
                 | None => Some (Returns false c)
                 end
             end).
  { intro f. cbn [isSubType]. unfold isSubType_body.
    run_with reflexivity.
    rewrite (ptr_eqb_neq (p:=Some P) (q:=Some F2)) by congruence.
    rewrite (ptr_eqb_neq (p:=Some F2) (q:=neverType c)) by congruence.
    rewrite (ptr_eqb_neq (p:=Some F2) (q:=anyType c)) by congruence.
    run_with (apply deref_at; eassumption).
    cbv beta iota delta [bind get_state].
    destruct (currentEnv c) as [ | e0 chain ]; [ reflexivity | ].
    destruct (findGenericResolution (e0 :: chain) (Some P)) as [ inner | ].
    - destruct (isSubType f (Some inner) (Some F2) c) as [ [ [ | ] c1 | c1 ] | ];
        reflexivity.
    - unfold ret. unfold deref. cbv beta iota delta [bind get_state ret].
      rewrite H2. reflexivity. }
  split.
  - intros ([ | f ] & H); [ discriminate | ].
    rewrite Step in H.
    destruct (currentEnv c) as [ | e0 chain ]; [ discriminate | ].
    destruct (findGenericResolution (e0 :: chain) (Some P)) as [ inner | ];
      [ | discriminate ].
    exists inner. split; [ reflexivity | now exists f ].
  - intros (inner & Hres & (f & H)).
    exists (S f). rewrite Step. rewrite Hres.
    destruct (currentEnv c); [ discriminate | exact H ].
Qed.

(** C2, as the code has it.  For two functors, [isSubType(F1, F2)] is
    true exactly when the arities agree, each parameter of [F1] is a
    subtype of the parameter of [F2] at the same position (checked in
    order, same direction) and the return type of [F1] is a subtype of
    that of [F2].  A Simple, Union or Interface descriptor on the left
    is never a subtype of a functor.  A GenericApplication on the left
    is one exactly when its target is, and a GenericParameter on the
    left exactly when it has a resolution in the current environments
    and that resolution is. *)
Theorem functor_subtyping c F2 args2 ret2 g2 :
  singletons_made c = true ->
  nth_error (heap c) F2 = Some (FunctorType args2 ret2 g2) ->
  (forall F1 args1 ret1 g1 c',
      nth_error (heap c) F1 = Some (FunctorType args1 ret1 g1) ->
      (accepts (Some F1) (Some F2) c c' <->
       List.length args1 = List.length args2 /\
       exists c1, pairwise accepts args1 args2 c c1 /\ accepts ret1 ret2 c1 c')) /\
  (forall fuel L o,
      nth_error (heap c) L = Some o -> unwrapped_left o = true ->
      isSubType (S fuel) (Some L) (Some F2) c = Some (Returns false c)) /\
  (forall G target generics c',
      nth_error (heap c) G = Some (GenericType target generics) ->
      (accepts (Some G) (Some F2) c c' <-> accepts target (Some F2) c c')) /\
  (forall P extends name c',
      nth_error (heap c) P = Some (GenericTypeDefinition extends name) ->
      (accepts (Some P) (Some F2) c c' <->
       exists inner,
         findGenericResolution (currentEnv c) (Some P) = Some inner /\
         accepts (Some inner) (Some F2) c c')).
Proof.
  intros Hs H2. split; [ | split; [ | split ] ].
  - intros F1 args1 ret1 g1 c' H.
    exact (@functor_subtype_iff c c' F1 F2 args1 ret1 g1 args2 ret2 g2 Hs H H2).
  - intros. eapply plain_left_not_below_functor; eauto.
  - intros G target generics c' HG.
    exact (@generic_left_functor_iff c c' G F2 target generics args2 ret2 g2 Hs HG H2).
  - intros P extends name c' HP.
    exact (@parameter_left_functor_iff c c' P F2 extends name args2 ret2 g2 Hs HP H2).
Qed.

(** In the checker state reached by
    [type Fn<T> = (Number) => Number; var t: Fn<String>;
     var u: (Number) => Number = t;]
    the functor at 14 is below the functor at 16, [Number] is not, and
    the generic application at 15, whose target is the functor at 14,
    is. *)
Lemma functor_subtyping_witness :
  let c := Samples.with_alias in
  singletons_made c = true /\
  nth_error (heap c) 16 = Some (FunctorType [T_OBJ (Some 0)] (Some 0) []) /\
  nth_error (heap c) 15 = Some (GenericType (Some 14) [T_OBJ (Some 4)]) /\
  accepts (Some 14) (Some 16) c c /\
  isSubType 1 (Some 0) (Some 16) c = Some (Returns false c) /\
  accepts (Some 15) (Some 16) c c.
Proof.
  split; [ reflexivity | ]. split; [ reflexivity | ]. split; [ reflexivity | ].
  destruct (@functor_subtyping Samples.with_alias 16 [T_OBJ (Some 0)] (Some 0) []
              eq_refl eq_refl) as (Hiff & Hplain & Hgeneric & _).
  assert (H14 : accepts (Some 14) (Some 16) Samples.with_alias Samples.with_alias).
  { apply (Hiff 14 [T_OBJ (Some 0)] (Some 0) [] Samples.with_alias eq_refl).
    split; [ reflexivity | ].
    exists Samples.with_alias. split.
    + econstructor; [ exists 1; reflexivity | constructor ].
    + exists 1. reflexivity. }
  split; [ exact H14 | ]. split.
  - apply (Hplain 0 0 (SimpleType None [] [] []) eq_refl eq_refl).
  - apply (Hgeneric 15 (Some 14) [T_OBJ (Some 4)] Samples.with_alias eq_refl).
    exact H14.
Defined.

(** C2 as stated fails in its last part: in that state the descriptor
    at 15 is a GenericApplication, not a functor, it is neither [Any]
    nor the functor at 16, and [isSubType] answers true for it against
    that functor; the program is accepted without a diagnostic. *)
Lemma generic_application_below_functor :
  let c := Samples.with_alias in
  kind_at c 15 = Some OBJ_PARSE_GENERIC_TYPE /\
  kind_at c 16 = Some OBJ_PARSE_FUNCTOR_TYPE /\
  Some 15 <> anyType c /\
  isSubType 5 (Some 15) (Some 16) c = Some (Returns true c) /\
  Samples.messages c = [].
Proof. vm_compute. repeat split; try reflexivity. discriminate. Qed.

End TypesFacts.

(** ** The checker: calls of generic functions, functions and lambdas *)

Module CheckerFacts.
Import Types.

(** C3 as stated fails: after [fun id<T>(x: T): T { return x; }] the
    call [id(3)] is accepted without a diagnostic, and its type is the
    descriptor at address 13, the generic parameter [T]; [Number] is at
    address 0. *)
Lemma generic_call_is_not_number :
  let run := Samples.session 30 Samples.generic_identity Samples.call_identity
                             Types.initial in
  returned run = Some (Some 13) /\
  option_map numberType (ended_in run) = Some (Some 0) /\
  option_map (fun c => kind_at c 13) (ended_in run) =
    Some (Some OBJ_PARSE_GENERIC_DEFINITION_TYPE) /\
  returned run <> option_map numberType (ended_in run).
Proof. vm_compute. repeat split; try reflexivity. discriminate. Qed.

(** C3, as the code has it.  Given [fun id<T>(x: T): T { return x; }]:
    - [id] is the functor at 14, with parameter [T], declared return
      type [T] and generic parameter [T] (the descriptor at 13);
    - checking the first argument of [id(3)] binds [T] to [Number] in
      the environment of the call;
    - [id(3)] is accepted without a diagnostic, its type is the declared
      return type [T] itself, and the environment of the call, with
      the binding, is gone afterwards;
    - passing [id(3)] where a [String] parameter is required is a
      "Type mismatch", and so is passing it where a [Number] parameter
      is required. *)
Theorem generic_call_returns_declared_type :
  let call := Samples.session 30 Samples.generic_identity Samples.call_identity
                              Types.initial in
  let as_string :=
    Samples.session 30 (Samples.generic_identity ++ Samples.takes "takesString" "String")
                    (Samples.pass_identity_to "takesString") Types.initial in
  let as_number :=
    Samples.session 30 (Samples.generic_identity ++ Samples.takes "takesNumber" "Number")
                    (Samples.pass_identity_to "takesNumber") Types.initial in
  nth_error (heap Samples.with_identity) 14 =
    Some (FunctorType [T_OBJ (Some 13)] (Some 13) [T_OBJ (Some 13)]) /\
  nth_error (heap Samples.with_identity) 13 =
    Some (GenericTypeDefinition None (Samples.ident "T")) /\
  returned (Samples.bind_first_argument Samples.with_identity) = Some true /\
  option_map (fun c => List.map genericResolutions (currentEnv c))
             (ended_in (Samples.bind_first_argument Samples.with_identity)) =
    Some [[(T_OBJ (Some 13), T_OBJ (Some 0))]; []] /\
  returned call = Some (Some 13) /\
  option_map Samples.messages (ended_in call) = Some [] /\
  option_map (fun c => List.map genericResolutions (currentEnv c)) (ended_in call) =
    Some [[]] /\
  returned as_string = Some None /\
  option_map Samples.messages (ended_in as_string) = Some ["Type mismatch"] /\
  returned as_number = Some None /\
  option_map Samples.messages (ended_in as_number) = Some ["Type mismatch"].
Proof. vm_compute. repeat split; reflexivity. Qed.

(** C9.  [var f = fun (x) => x;]: the lambda's parameter has no
    annotation.  The functor built for it (at 13) has [NIL_VAL] as its
    parameter type, not [Any]; [x] is not bound in the lambda's scope,
    so its use in the body is an "Undefined variable". *)
Theorem lambda_parameter_is_not_bound :
  let run := Samples.session 30 [] Samples.lambda_identity Types.initial in
  option_map (fun c => nth_error (heap c) 13) (ended_in run) =
    Some (Some (FunctorType [T_NIL] (Some 1) [])) /\
  option_map nilType (ended_in run) = Some (Some 1) /\
  option_map anyType (ended_in run) = Some (Some 6) /\
  option_map Samples.messages (ended_in run) = Some ["Undefined variable"].
Proof. vm_compute. repeat split; reflexivity. Qed.

(** The same function as a declaration, [fun g(x) { return x; }], does
    what C9 says: the parameter has type [Any] and is bound, so the
    body is accepted and the return type is inferred from it; [g] is
    bound to the functor in the enclosing scope. *)
Lemma function_parameter_defaults_to_any :
  let run := Samples.session 30 [] Samples.function_identity Types.initial in
  returned run = Some (Some 13) /\
  option_map (fun c => nth_error (heap c) 13) (ended_in run) =
    Some (Some (FunctorType [T_OBJ (Some 6)] (Some 6) [])) /\
  option_map anyType (ended_in run) = Some (Some 6) /\
  option_map (fun c => resolveLocal (currentEnv c) (Samples.ident "g")) (ended_in run) =
    Some (Some 13) /\
  option_map Samples.messages (ended_in run) = Some [].
Proof. vm_compute. repeat split; reflexivity. Qed.

(** With no return type and no [return], [fun h(x) { }] returns [Nil]. *)
Lemma function_return_defaults_to_nil :
  let run := Samples.session 30 [] Samples.function_empty Types.initial in
  option_map (fun c => nth_error (heap c) 13) (ended_in run) =
    Some (Some (FunctorType [T_OBJ (Some 6)] (Some 1) [])) /\
  option_map nilType (ended_in run) = Some (Some 1).
Proof. vm_compute. repeat split; reflexivity. Qed.

(** The checker's own panic flag is never cleared either:
    [var x: String = 1; var y: String = 2;] prints one diagnostic. *)
Lemma two_type_errors_one_diagnostic :
  let run := Samples.session 30 Samples.two_type_errors [] Types.initial in
  option_map Samples.messages (ended_in run) = Some ["Type mismatch in var"].
Proof. vm_compute. reflexivity. Qed.

End CheckerFacts.

(** ** The scheduler *)

Module AsyncFacts.
Import Async.

Lemma getTime_reading v : getTime v = Some (Returns (reading v) (tick v)).
Proof.
  unfold getTime, reading, tick, bind, get_state, ret, modify.
  destruct (clock v) as [|t [|t' later]]; reflexivity.
Qed.

(** *** The pump *)


(** C5.  No sleeper, frame 1 waiting to read descriptor 3, descriptor 3
    readable: [getTasks] returns 0 and leaves every array as it was;
    frame 1 stays in the reader set and its [stored] field stays unset. *)
Theorem getTasks_ignores_readers_without_sleepers :
  let v := Samples.reader_waiting in
  sleepers v = [] /\
  readers v = [R_FRAME 1] /\ reader_fds v = [R_NUMBER 3] /\ readable v = [3%Z] /\
  getTasks v = Some (Returns 0%Z v).
Proof. repeat split. Qed.

(** With a sleeper in the set the poll does happen: the sleeper that is
    due and the reader whose descriptor is ready both go to the tail of
    the ready queue, [stored] set to true. *)
Lemma getTasks_with_a_sleeper :
  let run := getTasks Samples.sleeper_and_reader in
  returned run = Some 1%Z /\
  option_map tasks (ended_in run) = Some [R_FRAME 2; R_FRAME 1] /\
  option_map waiters (ended_in run) = Some [[]; []; []; []; []; []] /\
  option_map (fun v => List.map stored (frames v)) (ended_in run) =
    Some [R_NIL; R_BOOL true; R_BOOL true].
Proof. vm_compute. repeat split; reflexivity. Qed.

(** *** The pump always ends *)

Lemma popValueArray_length {A} (l : list A) : forall i,
  i < List.length l -> List.length (popValueArray l i) = List.length l - 1.
Proof.
  induction l as [|x l IH]; intros i Hi; simpl in *; [ lia | ].
  destruct i; simpl; [ lia | ]. rewrite IH by lia. lia.
Qed.


Lemma value_at_ends (P : VM -> Prop) array i :
  Ends P (value_at array i) (fun _ s => P s).
Proof.
  unfold value_at. destruct (nth_error array i); [ apply Ends_ret | apply Ends_fault ]; auto.
Qed.

Lemma getTime_ends (P Q : VM -> Prop) :
  (forall s, P s -> Q (tick s)) -> Ends P getTime (fun _ s => Q s).
Proof. intros H s Hs. rewrite getTime_reading. auto. Qed.

Lemma wake_ends (P Q : VM -> Prop) value :
  (forall s f, P s -> Q (set_frames f s)) -> Ends P (wake value) (fun _ s => Q s).
Proof.
  intros H. unfold wake. destruct value; try apply Ends_fault.
  eapply Ends_bind with (R := fun v s => s = v /\ P s).
  - apply Ends_get_state; auto.
  - intro v. destruct (nth_error (frames v) frame); [ | apply Ends_fault ].
    apply Ends_modify. intros s [-> Hs]. now apply H.
Qed.

Lemma tick_fields v :
  tasks (tick v) = tasks v /\ sleepers (tick v) = sleepers v /\
  readers (tick v) = readers v /\ writers (tick v) = writers v.
Proof. unfold tick. destruct (clock v) as [|t [|t' later]]; repeat split. Qed.

Lemma popValueArray_shorter {A} (l : list A) i bound :
  i < List.length l -> List.length l <= S bound + i ->
  List.length (popValueArray l i) <= bound + i.
Proof. intros H1 H2. rewrite popValueArray_length by exact H1. lia. Qed.

Lemma wake_sleepers_ends steps : forall i found,
  Ends (fun s => List.length (sleepers s) <= steps + i)
       (wake_sleepers steps i found) (fun _ _ => True).
Proof.
  induction steps as [|steps IH]; intros i found; cbn [wake_sleepers].
  - eapply Ends_bind with (R := fun v s => s = v /\ List.length (sleepers v) <= 0 + i);
      [ apply Ends_get_state; auto | intro v ].
    destruct (i <? List.length (sleepers v))%nat eqn:E;
      [ apply Nat.ltb_lt in E | apply Ends_ret; auto ].
    apply Ends_absurd. intros s [_ H]. lia.
  - eapply Ends_bind with (R := fun v s => s = v /\ List.length (sleepers v) <= S steps + i);
      [ apply Ends_get_state; auto | intro v ].
    destruct (i <? List.length (sleepers v))%nat eqn:E;
      [ apply Nat.ltb_lt in E | apply Ends_ret; auto ].
    eapply Ends_assume; [ intros s [_ H]; exact H | intro Hv ].
    eapply Ends_bind with (R := fun _ s => sleepers s = sleepers v);
      [ eapply Ends_weaken; [ apply value_at_ends with (P := fun s => s = v) | | ];
        [ intros s [-> _]; reflexivity | intros _ s ->; reflexivity ] | intro time ].
    eapply Ends_bind with (R := fun _ s => sleepers s = sleepers v);
      [ apply getTime_ends; intros s Hs; now rewrite (proj1 (proj2 (tick_fields s))) | intro now ].
    destruct (Qltb (AS_NUMBER time) now).
    + eapply Ends_bind with (R := fun v2 s => s = v2 /\ sleepers v2 = sleepers v);
        [ apply Ends_get_state; auto | intro v2 ].
      eapply Ends_assume; [ intros s [_ H]; exact H | intro Hv2 ].
      eapply Ends_bind with (R := fun _ s => sleepers s = sleepers v);
        [ apply Ends_modify; intros s [-> _]; destruct v2; exact Hv2 | intros _ ].
      eapply Ends_bind with (R := fun _ s => sleepers s = sleepers v);
        [ apply value_at_ends with (P := fun s => sleepers s = sleepers v) | intro sleeper ].
      eapply Ends_bind with (R := fun _ s => sleepers s = sleepers v);
        [ apply wake_ends; intros s f Hs; destruct s; exact Hs | intros _ ].
      eapply Ends_bind with (R := fun _ s => sleepers s = sleepers v);
        [ apply Ends_modify; intros s Hs; destruct s; exact Hs | intros _ ].
      eapply Ends_bind with (R := fun _ s => sleepers s = popValueArray (sleepers v) i);
        [ apply Ends_modify; intros s Hs; destruct s; simpl in *; now rewrite Hs | intros _ ].
      eapply Ends_weaken; [ apply (IH i 1%Z) | | auto ].
      intros s Hs. cbv beta. rewrite Hs. apply popValueArray_shorter; assumption.
    + eapply Ends_weaken; [ apply (IH (S i) found) | | auto ].
      intros s Hs. cbv beta. rewrite Hs. lia.
Qed.

Lemma wake_readers_ends steps : forall i infd found,
  Ends (fun s => List.length (readers s) <= steps + i)
       (wake_readers steps i infd found) (fun _ _ => True).
Proof.
  induction steps as [|steps IH]; intros i infd found; cbn [wake_readers].
  - eapply Ends_bind with (R := fun v s => s = v /\ List.length (readers v) <= 0 + i);
      [ apply Ends_get_state; auto | intro v ].
    destruct (i <? List.length (readers v))%nat eqn:E;
      [ apply Nat.ltb_lt in E | apply Ends_ret; auto ].
    apply Ends_absurd. intros s [_ H]. lia.
  - eapply Ends_bind with (R := fun v s => s = v /\ List.length (readers v) <= S steps + i);
      [ apply Ends_get_state; auto | intro v ].
    destruct (i <? List.length (readers v))%nat eqn:E;
      [ apply Nat.ltb_lt in E | apply Ends_ret; auto ].
    eapply Ends_assume; [ intros s [_ H]; exact H | intro Hv ].
    eapply Ends_bind with (R := fun _ s => s = v);
      [ eapply Ends_weaken; [ apply value_at_ends with (P := fun s => s = v) | | ];
        [ intros s [-> _]; reflexivity | intros _ s ->; reflexivity ] | intro fd ].
    destruct (FD_ISSET (fd_of fd) infd).
    + eapply Ends_bind with (R := fun _ s => readers s = readers v);
        [ apply Ends_modify; intros s ->; destruct v; reflexivity | intros _ ].
      eapply Ends_bind with (R := fun _ s => readers s = readers v);
        [ apply value_at_ends with (P := fun s => readers s = readers v) | intro reader ].
      eapply Ends_bind with (R := fun _ s => readers s = readers v);
        [ apply wake_ends; intros s f Hs; destruct s; exact Hs | intros _ ].
      eapply Ends_bind with (R := fun _ s => readers s = readers v);
        [ apply Ends_modify; intros s Hs; destruct s; exact Hs | intros _ ].
      eapply Ends_bind with (R := fun _ s => readers s = popValueArray (readers v) i);
        [ apply Ends_modify; intros s Hs; destruct s; simpl in *; now rewrite Hs | intros _ ].
      eapply Ends_weaken; [ apply (IH i infd 1%Z) | | auto ].
      intros s Hs. cbv beta. rewrite Hs. apply popValueArray_shorter; assumption.
    + eapply Ends_weaken; [ apply (IH (S i) infd found) | | auto ].
      intros s Hs. cbv beta. subst s. lia.
Qed.

Lemma wake_writers_ends steps : forall i outfd found,
  Ends (fun s => List.length (writers s) <= steps + i)
       (wake_writers steps i outfd found) (fun _ _ => True).
Proof.
  induction steps as [|steps IH]; intros i outfd found; cbn [wake_writers].
  - eapply Ends_bind with (R := fun v s => s = v /\ List.length (writers v) <= 0 + i);
      [ apply Ends_get_state; auto | intro v ].
    destruct (i <? List.length (writers v))%nat eqn:E;
      [ apply Nat.ltb_lt in E | apply Ends_ret; auto ].
    apply Ends_absurd. intros s [_ H]. lia.
  - eapply Ends_bind with (R := fun v s => s = v /\ List.length (writers v) <= S steps + i);
      [ apply Ends_get_state; auto | intro v ].
    destruct (i <? List.length (writers v))%nat eqn:E;
      [ apply Nat.ltb_lt in E | apply Ends_ret; auto ].
    eapply Ends_assume; [ intros s [_ H]; exact H | intro Hv ].
    eapply Ends_bind with (R := fun _ s => s = v);
      [ eapply Ends_weaken; [ apply value_at_ends with (P := fun s => s = v) | | ];
        [ intros s [-> _]; reflexivity | intros _ s ->; reflexivity ] | intro fd ].
    destruct (FD_ISSET (fd_of fd) outfd).
    + eapply Ends_bind with (R := fun _ s => writers s = writers v);
        [ apply Ends_modify; intros s ->; destruct v; reflexivity | intros _ ].
      eapply Ends_bind with (R := fun _ s => writers s = writers v);
        [ apply value_at_ends with (P := fun s => writers s = writers v) | intro writer ].
      eapply Ends_bind with (R := fun _ s => writers s = writers v);
        [ apply wake_ends; intros s f Hs; destruct s; exact Hs | intros _ ].
      eapply Ends_bind with (R := fun _ s => writers s = writers v);
        [ apply Ends_modify; intros s Hs; destruct s; exact Hs | intros _ ].
      eapply Ends_bind with (R := fun _ s => writers s = popValueArray (writers v) i);
        [ apply Ends_modify; intros s Hs; destruct s; simpl in *; now rewrite Hs | intros _ ].
      eapply Ends_weaken; [ apply (IH i outfd 1%Z) | | auto ].
      intros s Hs. cbv beta. rewrite Hs. apply popValueArray_shorter; assumption.
    + eapply Ends_weaken; [ apply (IH (S i) outfd found) | | auto ].
      intros s Hs. cbv beta. subst s. lia.
Qed.

(** [getTasks] ends from every state: it returns or it faults. *)
Lemma getTasks_ends : Ends (fun _ => True) getTasks (fun _ _ => True).
Proof.
  unfold getTasks.
  eapply Ends_bind with (R := fun v s => s = v); [ apply Ends_get_state; auto | intro v ].
  destruct (List.length (sleepers v) =? 0)%nat; [ apply Ends_ret; auto | ].
  eapply Ends_bind with (R := fun _ _ => True).
  { eapply Ends_weaken; [ apply wake_sleepers_ends | | auto ].
    intros s ->. simpl. lia. }
  intro found.
  eapply Ends_bind with (R := fun v s => s = v); [ apply Ends_get_state; auto | intro v1 ].
  eapply Ends_bind with (R := fun _ _ => True).
  { unfold select.
    eapply Ends_bind with (R := fun _ _ => True); [ apply Ends_get_state; auto | intro v2 ].
    destruct (select_fails v2); apply Ends_ret; auto. }
  intros [[readStatus infd] outfd].
  destruct (readStatus =? 0)%Z; [ apply Ends_ret; auto | ].
  eapply Ends_bind with (R := fun v s => s = v); [ apply Ends_get_state; auto | intro v3 ].
  eapply Ends_bind with (R := fun _ _ => True).
  { eapply Ends_weaken; [ apply wake_readers_ends | | auto ].
    intros s ->. simpl. lia. }
  intro found1.
  eapply Ends_bind with (R := fun v s => s = v); [ apply Ends_get_state; auto | intro v4 ].
  eapply Ends_bind with (R := fun _ _ => True).
  { eapply Ends_weaken; [ apply wake_writers_ends | | auto ].
    intros s ->. simpl. lia. }
  intro found2. apply Ends_ret; auto.
Qed.

Lemma getTasks_answers v : getTasks v <> None.
Proof.
  intro H. pose proof getTasks_ends as E. unfold Ends in E.
  specialize (E v I). now rewrite H in E.
Qed.

(** *** Yielded values *)



Lemma set_currentTask_same v : set_currentTask (currentTask v) v = v.
Proof. destruct v; reflexivity. Qed.

(** When the yielding frame is not the last of the ready queue,
    leaving the queue is the removal of the entry at [currentTask] and
    nothing else. *)
Lemma leave_ready_queue_inside v :
  currentTask v + 1 < List.length (tasks v) ->
  leave_ready_queue v =
  Some (Returns tt (set_tasks (popValueArray (tasks v) (currentTask v)) v)).
Proof.
  intro H. unfold leave_ready_queue.
  erewrite bind_returns by reflexivity. cbv beta.
  erewrite bind_returns by reflexivity. cbv beta.
  set (v1 := set_tasks (popValueArray (tasks v) (currentTask v)) v).
  assert (Hlen : List.length (tasks v1) = List.length (tasks v) - 1).
  { unfold v1. destruct v; simpl in *. apply popValueArray_length. lia. }
  assert (Hcur : currentTask v1 = currentTask v) by (destruct v; reflexivity).
  replace (List.length (tasks v1) <=? currentTask v1)%nat with false
    by (symmetry; apply Nat.leb_gt; lia).
  erewrite bind_returns by reflexivity. cbv beta.
  erewrite bind_returns by reflexivity. cbv beta.
  destruct (List.length (tasks v1)) as [|k] eqn:E; [ lia | ].
  unfold modify. rewrite Nat.mod_small by lia.
  now rewrite set_currentTask_same.
Qed.







(** The only ready frame asks to sleep: the pump runs at once.  With a
    delay that has passed by the next clock reading the frame is back
    in the ready queue, woken; with a delay still to come the queue
    stays empty and the run ends in the division by zero. *)
Lemma lone_frame_asks_to_sleep :
  let v := Async.set_tasks [R_FRAME 0] Samples.two_ready in
  let back := handle_yield_value (R_LIST [R_NUMBER 1; R_NUMBER (-1)]) v in
  let late := handle_yield_value (R_LIST [R_NUMBER 1; R_NUMBER (1 # 20)]) v in
  option_map tasks (ended_in back) = Some [R_FRAME 0] /\
  option_map sleepers (ended_in back) = Some [] /\
  returned back = Some tt /\
  returned late = None /\
  option_map tasks (ended_in late) = Some [] /\
  option_map sleepers (ended_in late) = Some [R_FRAME 0].
Proof. vm_compute. repeat split; reflexivity. Qed.

(** Outside the range of [int] the operation read is [INT_MIN]. *)
Lemma yield_op_out_of_range :
  let run := handle_yield_value (R_LIST [R_NUMBER 4294967297; R_NUMBER 0])
                                Samples.two_ready in
  option_map errors (ended_in run) = Some ["Invalid yield op -2147483648"].
Proof. vm_compute. reflexivity. Qed.


End AsyncFacts.
(** ** The parser: tokens, rules and diagnostics *)

Module ParserLaws.
Import Parser.

(** *** The scanner's error tokens *)

Lemma scanLoop_current l : forall p,
  type (current (scanLoop l p)) <> TOKEN_ERROR /\
  previous (scanLoop l p) = previous p /\
  List.length (stderr (scanLoop l p)) <= S (List.length (stderr p)) /\
  (panicMode p = true -> stderr (scanLoop l p) = stderr p).
Proof.
  induction l as [ | t rest IH ]; intro p; cbn [scanLoop].
  - cbn. repeat split; auto. discriminate.
  - destruct (tt_eqb (type t) TOKEN_ERROR) eqn:E.
    + destruct (IH (errorAt_state t (lexeme t) (set_current t p))) as (H1 & H2 & H3 & H4).
      unfold errorAt_state in *. cbn in *.
      destruct (panicMode p) eqn:Hp.
      * cbn in *. repeat split; auto. 
      * cbn in *. repeat split; auto.
        -- rewrite (H4 eq_refl). rewrite length_app. simpl. lia.
        -- discriminate.
    + cbn. repeat split; auto.
      intro H. apply tt_eqb_eq in H. congruence.
Qed.

(** [advance] always returns.  The token it makes current is never an
    error token: error tokens are skipped, the first of them reported
    (unless the parser is in panic mode already, when nothing is
    printed).  The token that was current becomes the previous one. *)
Theorem advance_never_yields_error_token p :
  exists p',
    advance p = Some (Returns tt p') /\
    type (current p') <> TOKEN_ERROR /\
    previous p' = current p /\
    List.length (stderr p') <= S (List.length (stderr p)) /\
    (panicMode p = true -> stderr p' = stderr p).
Proof.
  eexists. split; [ reflexivity | ].
  destruct (scanLoop_current (source p) (set_previous (current p) p)) as (H1 & H2 & H3 & H4).
  repeat split; auto.
Qed.


Lemma scanLoop_previous l : forall p, previous (scanLoop l p) = previous p.
Proof.
  induction l as [ | t rest IH ]; intro p; cbn [scanLoop]; [ reflexivity | ].
  destruct (tt_eqb (type t) TOKEN_ERROR); [ | reflexivity ].
  rewrite IH. unfold errorAt_state. cbn. now destruct (panicMode p).
Qed.

Lemma infix_rule_of_table (t : TokenType) (precedence : Precedence) :
  PREC_ASSIGNMENT <= precedence ->
  precedence <= rule_precedence (getRule t) ->
  exists infixRule, rule_infix (getRule t) = Some infixRule.
Proof.
  unfold PREC_ASSIGNMENT. intros H1 H2.
  destruct t; cbn in *; try (eexists; reflexivity); unfold PREC_NONE in *; lia.
Qed.

(** When the operator loop of [parsePrecedence], asked for a precedence
    of [PREC_ASSIGNMENT] or more, goes on at the current token, the
    table has an infix function for that token: the loop consumes the
    token and calls that function, never a null pointer. *)
Theorem operator_loop_finds_its_rule fuel self n precedence canAssign result p :
  PREC_ASSIGNMENT <= precedence ->
  precedence <= rule_precedence (getRule (type (current p))) ->
  exists infixRule,
    rule_infix (getRule (type (current p))) = Some infixRule /\
    infix_loop fuel self (S n) precedence canAssign result p =
    (advance ;;
     r <- call_infix fuel self infixRule result canAssign ;;
     infix_loop fuel self n precedence canAssign r) p.
Proof.
  intros H1 H2.
  destruct (@infix_rule_of_table (type (current p)) precedence H1 H2) as (f & Hf).
  exists f. split; [ exact Hf | ].
  cbn [infix_loop]. unfold get_current.
  erewrite bind_returns by (erewrite bind_returns by reflexivity; reflexivity).
  cbv beta.
  replace (precedence <=? rule_precedence (getRule (type (current p))))%nat with true
    by (symmetry; now apply Nat.leb_le).
  cbv beta iota delta [bind advance modify get_previous get_state ret].
  rewrite scanLoop_previous.
  destruct p; cbn in *. rewrite Hf. reflexivity.
Qed.

(** At [*], asked for [PREC_TERM]: the table has an infix function. *)
Lemma operator_loop_finds_its_rule_witness :
  let p := set_current (Samples.tk TOKEN_STAR "*") Parser.initial in
  PREC_ASSIGNMENT <= PREC_TERM /\
  PREC_TERM <= rule_precedence (getRule (type (current p))) /\
  exists infixRule, rule_infix (getRule (type (current p))) = Some infixRule.
Proof.
  intro p.
  assert (H1 : PREC_ASSIGNMENT <= PREC_TERM) by (vm_compute; lia).
  assert (H2 : PREC_TERM <= rule_precedence (getRule (type (current p))))
    by (vm_compute; lia).
  split; [ exact H1 | ]. split; [ exact H2 | ].
  destruct (@operator_loop_finds_its_rule 0 (forward 0) 0 PREC_TERM false None p H1 H2)
    as (f & Hf & _).
  exists f. exact Hf.
Defined.

(** A token that has no prefix rule cannot start an expression:
    [parsePrecedence] consumes it, reports "Expect expression." at it
    (unless in panic mode) and returns [NULL]. *)
Theorem parsePrecedence_expect_expression fuel self precedence p :
  rule_prefix (getRule (type (current p))) = None ->
  parsePrecedence fuel self precedence p =
  Some (Returns None
          (errorAt_state (current p) "Expect expression."
             (scanLoop (source p) (set_previous (current p) p)))).
Proof.
  intro H. unfold parsePrecedence.
  erewrite bind_returns by reflexivity. cbv beta.
  unfold get_previous.
  erewrite bind_returns by (erewrite bind_returns by reflexivity; reflexivity).
  cbv beta.
  rewrite scanLoop_previous. cbn [previous set_previous].
  replace (previous (set_previous (current p) p)) with (current p) by (now destruct p).
  rewrite H.
  unfold error, errorAt, bind, get_state, modify, ret.
  rewrite scanLoop_previous.
  replace (previous (set_previous (current p) p)) with (current p) by (now destruct p).
  reflexivity.
Qed.

(** [)] cannot start an expression. *)
Lemma parsePrecedence_expect_expression_witness :
  let p := set_source [Samples.tk TOKEN_SEMICOLON ";"]
             (set_current (Samples.tk TOKEN_RIGHT_PAREN ")") Parser.initial) in
  rule_prefix (getRule (type (current p))) = None /\
  option_map (fun q => List.map d_message (stderr q))
             (ended_in (parsePrecedence 5 (forward 5) PREC_ASSIGNMENT p)) =
    Some ["Expect expression."].
Proof.
  intro p. split; [ reflexivity | ].
  rewrite (@parsePrecedence_expect_expression 5 (forward 5) PREC_ASSIGNMENT p eq_refl).
  reflexivity.
Defined.

(** *** The pipe *)

(** [pipeCall] for every call on the right: with no argument the call
    gets [left] alone; with arguments [a1, ..., an] it gets [left]
    followed by [n] copies of [a1].  Something else than a call on the
    right is reported; a right-hand side that did not parse is
    dereferenced. *)
Theorem pipeCall_shifts self left canAssign p result p' :
  fwd_parsePrecedence self PREC_CALL p = Some (Returns result p') ->
  pipeCall self left canAssign p =
  match result with
  | None => Some (Faults p')
  | Some (NODE_CALL callee paren []) =>
      Some (Returns (Some (NODE_CALL callee paren [left])) p')
  | Some (NODE_CALL callee paren (a :: rest)) =>
      Some (Returns (Some (NODE_CALL callee paren
                             (left :: repeat a (S (List.length rest))))) p')
  | Some _ =>
      Some (Returns None
              (errorAt_state (current p') "Expected functional call after pipe operator!" p'))
  end.
Proof.
  intro H. unfold pipeCall. erewrite bind_returns by exact H.
  destruct result as [ node | ]; [ | reflexivity ].
  destruct node; try reflexivity.
  destruct arguments as [ | a rest ].
  - reflexivity.
  - now rewrite ParserFacts.pipe_arguments_cons.
Qed.

(** [x | f(a, b, c)] becomes [f(x, a, a, a)]. *)
Lemma pipeCall_shifts_witness :
  let p := set_source [Samples.tk TOKEN_LEFT_PAREN "("; Samples.ident "a";
                       Samples.tk TOKEN_COMMA ","; Samples.ident "b";
                       Samples.tk TOKEN_COMMA ","; Samples.ident "c";
                       Samples.tk TOKEN_RIGHT_PAREN ")"; Samples.tk TOKEN_SEMICOLON ";"]
             (set_current (Samples.ident "f") Parser.initial) in
  returned (pipeCall (forward 10) (Samples.variable_ "x") false p) =
  Some (Some (NODE_CALL (Samples.variable_ "f") (Samples.tk TOKEN_LEFT_PAREN "(")
                [Samples.variable_ "x"; Samples.variable_ "a";
                 Samples.variable_ "a"; Samples.variable_ "a"])).
Proof.
  intro p.
  destruct (fwd_parsePrecedence (forward 10) PREC_CALL p) as [ [ r p' | p' ] | ] eqn:E;
    [ | vm_compute in E; discriminate | vm_compute in E; discriminate ].
  rewrite (@pipeCall_shifts (forward 10) (Samples.variable_ "x") false p r p' E).
  vm_compute in E. injection E as <- <-. reflexivity.
Defined.

(** Two bad statements, one diagnostic. *)
Lemma parseAST_one_diagnostic_witness :
  match parseAST 20 Samples.two_bad_statements Parser.initial with
  | Some o => List.length (stderr (final_state o)) <= 1
  | None => False
  end.
Proof.
  destruct (parseAST 20 Samples.two_bad_statements Parser.initial) as [ o | ] eqn:E.
  - exact (@ParserFacts.parseAST_one_diagnostic 20 Samples.two_bad_statements
             Parser.initial o E).
  - vm_compute in E. discriminate.
Defined.

(** A text without errors gives its statements and prints nothing. *)
Lemma parseAST_result_witness :
  match parseAST 20 Samples.pipe_one_argument Parser.initial with
  | Some (Returns r p) => (exists statements, r = Some statements) /\ stderr p = []
  | _ => False
  end.
Proof.
  destruct (parseAST 20 Samples.pipe_one_argument Parser.initial)
    as [ [ r p | p ] | ] eqn:E;
    [ | vm_compute in E; discriminate | vm_compute in E; discriminate ].
  destruct (@ParserFacts.parseAST_result 20 Samples.pipe_one_argument Parser.initial r p E)
    as (_ & Hsome).
  assert (Hp : stderr p = []) by (vm_compute in E; injection E as <- <-; reflexivity).
  split; [ | exact Hp ].
  apply Hsome. now rewrite Hp.
Defined.

(** In panic mode at [+ x ; var y], [synchronize] stops after the
    semicolon. *)
Lemma synchronize_clears_panic_witness :
  let p := set_panicMode true
             (set_source [Samples.ident "x"; Samples.tk TOKEN_SEMICOLON ";";
                          Samples.tk TOKEN_VAR "var"; Samples.ident "y"]
                (set_current (Samples.tk TOKEN_PLUS "+") Parser.initial)) in
  no_error_tokens (source p) /\
  S (List.length (source p)) < 10 /\
  exists p', synchronize 10 p = Some (Returns tt p') /\
             panicMode p' = false /\ synchronized p' /\ stderr p' = stderr p.
Proof.
  intro p.
  assert (H1 : no_error_tokens (source p)) by (repeat constructor).
  assert (H2 : S (List.length (source p)) < 10) by (vm_compute; lia).
  split; [ exact H1 | ]. split; [ exact H2 | ].
  exact (@ParserFacts.synchronize_clears_panic 10 p H1 H2).
Defined.

End ParserLaws.


(** ** Subtyping: what decides each kind of right-hand side *)

Module SubtypeLaws.
Import Types.
Import TypesFacts.

(** *** Past the three tests that open [isSubType] *)

Lemma isSubType_plain_left f (a b : Ptr) c sub sup :
  a <> b -> Some b <> neverType c -> Some b <> anyType c ->
  nth_error (heap c) a = Some sub ->
  nth_error (heap c) b = Some sup ->
  passed_over sub = true ->
  isSubType (S f) (Some a) (Some b) c =
  isSubType_super (isSubType f) (Some a) (Some b) sub sup c.
Proof.
  intros Hab Hn Ha Hsub Hsup Hp.
  cbn [isSubType]. unfold isSubType_body.
  run_with reflexivity.
  rewrite (ptr_eqb_neq (p:=Some a) (q:=Some b)) by congruence.
  rewrite (ptr_eqb_neq (p:=Some b) (q:=neverType c)) by congruence.
  rewrite (ptr_eqb_neq (p:=Some b) (q:=anyType c)) by congruence.
  run_with (apply deref_at; eassumption).
  destruct sub; try discriminate;
    (run_with reflexivity; run_with (apply deref_at; eassumption); reflexivity).
Qed.

(** *** Classes on the right: nominal subtyping *)

Lemma reaches_accepts c (B : Ptr) sB fB mB gB :
  nth_error (heap c) B = Some (SimpleType sB fB mB gB) ->
  Some B <> neverType c -> Some B <> anyType c ->
  forall A, reaches c A B -> accepts A (Some B) c c.
Proof.
  intros HB Hn Ha A H.
  induction H as [ b | a s f m g b Ha' Hr IH | a target generics b Ha' Hr IH
                 | a e n inner b Ha' Hres Hr IH ].
  - apply accepts_identity.
  - destruct (Nat.eq_dec a b) as [ -> | Hab ]; [ apply accepts_identity | ].
    destruct (IH HB Hn Ha) as (fuel & E).
    exists (S fuel).
    eapply eq_trans;
      [ apply (@isSubType_plain_left fuel a b c (SimpleType s f m g)
                 (SimpleType sB fB mB gB)); auto; congruence | ].
    cbn [isSubType_super].
    destruct s as [ s' | ]; [ exact E | inversion Hr ].
  - destruct (IH HB Hn Ha) as (fuel & E).
    assert (Hab : a <> b) by (intros ->; congruence).
    exists (S fuel). cbn [isSubType]. unfold isSubType_body.
    run_with reflexivity.
    rewrite (ptr_eqb_neq (p:=Some a) (q:=Some b)) by congruence.
    rewrite (ptr_eqb_neq (p:=Some b) (q:=neverType c)) by congruence.
    rewrite (ptr_eqb_neq (p:=Some b) (q:=anyType c)) by congruence.
    run_with (apply deref_at; eassumption).
    erewrite bind_returns by (erewrite bind_returns by exact E; reflexivity).
    reflexivity.
  - destruct (IH HB Hn Ha) as (fuel & E).
    assert (Hab : a <> b) by (intros ->; congruence).
    exists (S fuel). cbn [isSubType]. unfold isSubType_body.
    run_with reflexivity.
    rewrite (ptr_eqb_neq (p:=Some a) (q:=Some b)) by congruence.
    rewrite (ptr_eqb_neq (p:=Some b) (q:=neverType c)) by congruence.
    rewrite (ptr_eqb_neq (p:=Some b) (q:=anyType c)) by congruence.
    run_with (apply deref_at; eassumption).
    erewrite bind_returns.
    2:{ run_with reflexivity.
        destruct (currentEnv c) as [ | e0 chain ] eqn:Hc; [ discriminate | ].
        rewrite Hres. erewrite bind_returns by exact E. reflexivity. }
    reflexivity.
Qed.

Lemma accepts_reaches c (B : Ptr) sB fB mB gB :
  nth_error (heap c) B = Some (SimpleType sB fB mB gB) ->
  Some B <> neverType c -> Some B <> anyType c ->
  forall fuel A r c', isSubType fuel A (Some B) c = Some (Returns r c') ->
                      c' = c /\ (r = true -> reaches c A B).
Proof.
  intros HB Hn Ha fuel.
  induction fuel as [ | fuel IH ]; intros A r c' E; [ discriminate | ].
  cbn [isSubType] in E. unfold isSubType_body in E.
  erewrite bind_returns in E by reflexivity. cbv beta in E.
  destruct (ptr_eqb A (Some B)) eqn:Eq.
  { apply ptr_eqb_eq in Eq. subst A. injection E as <- <-.
    split; [ reflexivity | constructor ]. }
  rewrite (ptr_eqb_neq (p:=Some B) (q:=neverType c)) in E by congruence.
  rewrite (ptr_eqb_neq (p:=Some B) (q:=anyType c)) in E by congruence.
  destruct (deref_cases A c) as [ (a & o & -> & Hao & D) | D ].
  2:{ unfold bind in E. rewrite D in E. discriminate. }
  erewrite bind_returns in E by exact D. cbv beta in E.
  destruct o as [ s f m g | args ret_ g | l r0 | s f m g | target generics | e n ].
  - erewrite bind_returns in E by reflexivity. cbv beta iota in E.
    erewrite bind_returns in E by (apply deref_at; eassumption).
    cbn [isSubType_super] in E.
    destruct s as [ s' | ].
    + destruct (IH _ _ _ E) as (-> & Hr). split; [ reflexivity | ].
      intro Ht. eapply reaches_super; eauto.
    + injection E as <- <-. split; [ reflexivity | discriminate ].
  - erewrite bind_returns in E by reflexivity. cbv beta iota in E.
    erewrite bind_returns in E by (apply deref_at; eassumption).
    injection E as <- <-. split; [ reflexivity | discriminate ].
  - erewrite bind_returns in E by reflexivity. cbv beta iota in E.
    erewrite bind_returns in E by (apply deref_at; eassumption).
    injection E as <- <-. split; [ reflexivity | discriminate ].
  - erewrite bind_returns in E by reflexivity. cbv beta iota in E.
    erewrite bind_returns in E by (apply deref_at; eassumption).
    injection E as <- <-. split; [ reflexivity | discriminate ].
  - destruct (isSubType fuel target (Some B) c) as [ [ [ | ] c1 | c1 ] | ] eqn:Et.
    + erewrite bind_returns in E
        by (erewrite bind_returns by exact Et; reflexivity).
      cbv beta iota in E. injection E as <- <-.
      destruct (IH _ _ _ Et) as (-> & Hr). split; [ reflexivity | ].
      intros _. eapply reaches_target; eauto.
    + erewrite bind_returns in E
        by (erewrite bind_returns by exact Et; reflexivity).
      cbv beta iota in E.
      destruct (IH _ _ _ Et) as (-> & _).
      erewrite bind_returns in E by (apply deref_at; eassumption).
      injection E as <- <-. split; [ reflexivity | discriminate ].
    + unfold bind in E. rewrite Et in E. discriminate.
    + unfold bind in E. rewrite Et in E. discriminate.
  - apply bind_inv in E.
    destruct E as [ (d & c1 & Ed & E) | (c1 & _ & E) ]; [ | discriminate ].
    cbv beta iota delta [bind get_state] in Ed.
    destruct (currentEnv c) as [ | e0 chain ] eqn:Hc; [ discriminate | ].
    match type of Ed with
    | context [findGenericResolution ?ch ?x] =>
        destruct (findGenericResolution ch x) as [ inner | ] eqn:Hres
    end.
    + match type of Ed with
      | context [isSubType fuel ?x ?y c] =>
          destruct (isSubType fuel x y c) as [ [ ok c2 | c2 ] | ] eqn:Et
      end; try discriminate.
      injection Ed as <- <-. injection E as <- <-.
      destruct (IH _ _ _ Et) as (-> & Hr). split; [ reflexivity | ].
      intro Ht. eapply reaches_resolution; eauto. rewrite Hc. exact Hres.
    + injection Ed as <- <-.
      erewrite bind_returns in E by (apply deref_at; eassumption).
      injection E as <- <-. split; [ reflexivity | discriminate ].
Qed.

(** A class [B] on the right, other than [Never] and [Any]:
    [isSubType(A, B)] is true exactly when [B] is met on the way up
    from [A] along supertype links, targets of generic applications and
    resolutions of generic parameters; the check changes nothing. *)
Theorem nominal_subtyping c A (B : Ptr) sB fB mB gB c' :
  nth_error (heap c) B = Some (SimpleType sB fB mB gB) ->
  Some B <> neverType c -> Some B <> anyType c ->
  (accepts A (Some B) c c' <-> c' = c /\ reaches c A B).
Proof.
  intros HB Hn Ha. split.
  - intros (fuel & E).
    destruct (@accepts_reaches c B sB fB mB gB HB Hn Ha fuel A true c' E) as (-> & Hr).
    split; [ reflexivity | now apply Hr ].
  - intros (-> & Hr). eapply reaches_accepts; eauto.
Qed.

(** In [class A { } class B extends A { }], [B] reaches [A] and is
    below it. *)
Lemma nominal_subtyping_witness :
  let c := Samples.with_classes in
  nth_error (heap c) 13 = Some (SimpleType None [] [] []) /\
  nth_error (heap c) 15 = Some (SimpleType (Some 13) [] [] []) /\
  reaches c (Some 15) 13 /\
  accepts (Some 15) (Some 13) c c.
Proof.
  intro c.
  assert (H13 : nth_error (heap Samples.with_classes) 13 = Some (SimpleType None [] [] []))
    by (vm_compute; reflexivity).
  assert (H15 : nth_error (heap Samples.with_classes) 15 =
                Some (SimpleType (Some 13) [] [] []))
    by (vm_compute; reflexivity).
  assert (Hn : Some 13 <> neverType Samples.with_classes) by (vm_compute; discriminate).
  assert (Ha : Some 13 <> anyType Samples.with_classes) by (vm_compute; discriminate).
  assert (Hr : reaches Samples.with_classes (Some 15) 13).
  { exact (@reaches_super Samples.with_classes 15 (Some 13) [] [] [] 13 H15
             (reaches_here Samples.with_classes 13)). }
  split; [ exact H13 | ]. split; [ exact H15 | ]. split; [ exact Hr | ].
  apply (@nominal_subtyping Samples.with_classes (Some 15) 13 None [] [] []
           Samples.with_classes H13 Hn Ha).
  split; [ reflexivity | exact Hr ].
Defined.

(** *** A union on the right *)

(** A union [U] on the right (not [Never], not [Any]) and a left side
    that is neither [U] nor a generic application or parameter:
    [isSubType] is true exactly when the left member accepts, or the
    left member refuses and then the right member accepts. *)
Theorem union_on_the_right c (T U : Ptr) o l r c' :
  nth_error (heap c) T = Some o -> passed_over o = true ->
  nth_error (heap c) U = Some (UnionType l r) ->
  T <> U -> Some U <> neverType c -> Some U <> anyType c ->
  (accepts (Some T) (Some U) c c' <->
   accepts (Some T) l c c' \/
   exists c1, rejects (Some T) l c c1 /\ accepts (Some T) r c1 c').
Proof.
  intros HT Hp HU Hne Hn Ha.
  assert (Step : forall f, isSubType (S f) (Some T) (Some U) c =
                           (ok <- isSubType f (Some T) l ;;
                            if ok then ret true else isSubType f (Some T) r) c).
  { intro f. eapply eq_trans;
      [ apply (@isSubType_plain_left f T U c o (UnionType l r)); auto | reflexivity ]. }
  split.
  - intros ([ | f ] & H); [ discriminate | ].
    rewrite Step in H. apply bind_inv in H.
    destruct H as [ (ok & c1 & E & H) | (c1 & _ & H) ]; [ | discriminate ].
    destruct ok.
    + injection H as <-. left. now exists f.
    + right. exists c1. split; now exists f.
  - intros [ (f & H) | (c1 & (f1 & H1) & (f2 & H2)) ].
    + exists (S f). rewrite Step. erewrite bind_returns by exact H. reflexivity.
    + exists (S (Nat.max f1 f2)). rewrite Step.
      erewrite bind_returns
        by (eapply isSubType_le; [ | exact H1 ]; lia).
      cbv beta iota. eapply isSubType_le; [ | exact H2 ]. lia.
Qed.

(** [Number] is below [Number | String] through the left member, and
    [String] through the right one. *)
Lemma union_on_the_right_witness :
  let c := Samples.with_crossed_unions in
  nth_error (heap c) 13 = Some (UnionType (Some 0) (Some 4)) /\
  accepts (Some 0) (Some 13) c c /\
  accepts (Some 4) (Some 13) c c.
Proof.
  intro c. split; [ reflexivity | ].
  assert (Hn : Some 13 <> neverType Samples.with_crossed_unions)
    by (vm_compute; discriminate).
  assert (Ha : Some 13 <> anyType Samples.with_crossed_unions)
    by (vm_compute; discriminate).
  split.
  - apply (@union_on_the_right Samples.with_crossed_unions 0 13
             (SimpleType None [] [] []) (Some 0) (Some 4) Samples.with_crossed_unions
             eq_refl eq_refl eq_refl).
    + discriminate.
    + exact Hn.
    + exact Ha.
    + left. exists 1. reflexivity.
  - apply (@union_on_the_right Samples.with_crossed_unions 4 13
             (SimpleType None [] [] []) (Some 0) (Some 4) Samples.with_crossed_unions
             eq_refl eq_refl eq_refl).
    + discriminate.
    + exact Hn.
    + exact Ha.
    + right. exists Samples.with_crossed_unions. split; exists 2; reflexivity.
Defined.

(** *** An interface on the right: structural subtyping *)






(** *** A generic parameter on the right *)

Lemma valueTableGet_set table k v :
  valuesEqual k k = true -> valueTableGet (valueTableSet table k v) k = Some v.
Proof.
  intro Hk. induction table as [ | [ k' v' ] rest IH ]; cbn.
  - now rewrite Hk.
  - destruct (valuesEqual k' k) eqn:E; cbn; rewrite E; auto.
Qed.

(** An unbounded generic parameter [T] on the right, the innermost
    environment holding an entry for it.  While the entry is [nil], the
    first type checked against [T] is accepted and becomes the
    resolution of [T]; from then on a type is checked against that
    resolution instead. *)
Theorem generic_parameter_binds_first c (a t : Ptr) o name e chain fuel :
  nth_error (heap c) a = Some o -> passed_over o = true ->
  nth_error (heap c) t = Some (GenericTypeDefinition None name) ->
  Some t <> neverType c -> Some t <> anyType c ->
  currentEnv c = e :: chain ->
  valueTableGet (genericResolutions e) (T_OBJ (Some t)) = Some T_NIL ->
  let c1 := set_currentEnv
              (set_resolution (T_OBJ (Some t)) (T_OBJ (Some a)) e :: chain) c in
  isSubType (S fuel) (Some a) (Some t) c = Some (Returns true c1) /\
  forall (b : Ptr) o',
    nth_error (heap c) b = Some o' -> passed_over o' = true -> b <> t ->
    isSubType (S (S fuel)) (Some b) (Some t) c1 = isSubType (S fuel) (Some b) (Some a) c1.
Proof.
  intros Ha Hp Ht Hn Hy Henv Hres c1.
  assert (Hat : a <> t) by (intros ->; rewrite Ht in Ha; injection Ha as <-; discriminate).
  split.
  - eapply eq_trans;
      [ apply (@isSubType_plain_left fuel a t c o (GenericTypeDefinition None name)); auto | ].
    cbn [isSubType_super].
    run_with reflexivity. run_with reflexivity.
    rewrite Henv. cbn [List.length resolveGenericArgument].
    run_with reflexivity.
    rewrite Henv. cbn [nth_error]. rewrite Hres. cbn [IS_NIL].
    cbv beta iota delta [update_scope bind get_state modify ret].
    rewrite Henv. reflexivity.
  - intros b o' Hb Hp' Hbt.
    assert (Hh : heap c1 = heap c) by (destruct c; reflexivity).
    assert (Hn1 : neverType c1 = neverType c) by (destruct c; reflexivity).
    assert (Hy1 : anyType c1 = anyType c) by (destruct c; reflexivity).
    assert (He1 : currentEnv c1 =
                  set_resolution (T_OBJ (Some t)) (T_OBJ (Some a)) e :: chain)
      by (destruct c; reflexivity).
    eapply eq_trans;
      [ apply (@isSubType_plain_left (S fuel) b t c1 o' (GenericTypeDefinition None name));
        auto; congruence | ].
    cbn [isSubType_super].
    run_with reflexivity. run_with reflexivity.
    rewrite He1. cbn [List.length resolveGenericArgument].
    run_with reflexivity.
    rewrite He1. cbn [nth_error genericResolutions set_resolution].
    rewrite valueTableGet_set by (cbn; apply Nat.eqb_refl).
    reflexivity.
Qed.

(** Inside a call of [id<T>], [Number] checked against [T] is accepted
    and becomes the resolution of [T]; after that [String] against [T]
    is [String] against [Number]. *)
Lemma generic_parameter_binds_first_witness :
  let c := Samples.in_call_of_identity in
  let e := mkEnv TYPE_FUNCTION [] [] [(T_OBJ (Some 13), T_NIL)] in
  let c1 := set_currentEnv
              (set_resolution (T_OBJ (Some 13)) (T_OBJ (Some 0)) e ::
               List.tl (currentEnv c)) c in
  currentEnv c = e :: List.tl (currentEnv c) /\
  valueTableGet (genericResolutions e) (T_OBJ (Some 13)) = Some T_NIL /\
  isSubType 1 (Some 0) (Some 13) c = Some (Returns true c1) /\
  isSubType 2 (Some 4) (Some 13) c1 = isSubType 1 (Some 4) (Some 0) c1.
Proof.
  intros c e c1.
  assert (Henv : currentEnv Samples.in_call_of_identity =
                 e :: List.tl (currentEnv Samples.in_call_of_identity))
    by (vm_compute; reflexivity).
  assert (Hres : valueTableGet (genericResolutions e) (T_OBJ (Some 13)) = Some T_NIL)
    by (vm_compute; reflexivity).
  assert (H0 : nth_error (heap Samples.in_call_of_identity) 0 =
               Some (SimpleType None [] [] [])) by (vm_compute; reflexivity).
  assert (H4 : nth_error (heap Samples.in_call_of_identity) 4 =
               Some (SimpleType None [] [] [])) by (vm_compute; reflexivity).
  assert (H13 : nth_error (heap Samples.in_call_of_identity) 13 =
                Some (GenericTypeDefinition None (Samples.ident "T")))
    by (vm_compute; reflexivity).
  assert (Hn : Some 13 <> neverType Samples.in_call_of_identity)
    by (vm_compute; discriminate).
  assert (Ha : Some 13 <> anyType Samples.in_call_of_identity)
    by (vm_compute; discriminate).
  assert (Hne : 4 <> 13) by discriminate.
  split; [ exact Henv | ]. split; [ exact Hres | ].
  destruct (@generic_parameter_binds_first Samples.in_call_of_identity 0 13
              (SimpleType None [] [] []) (Samples.ident "T") e
              (List.tl (currentEnv Samples.in_call_of_identity)) 0
              H0 eq_refl H13 Hn Ha Henv Hres) as (Hfirst & Hnext).
  split; [ exact Hfirst | ].
  exact (Hnext 4 (SimpleType None [] [] []) H4 eq_refl Hne).
Defined.

(** *** What a subtype check leaves alone *)

(** A subtype check that ends (returning or faulting) has changed
    nothing but generic resolutions: no descriptor, no variable, no type
    name, no environment pushed or popped, no singleton, no module; the
    only diagnostic it may have printed is
    "Type argument count mismatch in generic". *)
Theorem isSubType_changes_resolutions_only fuel a b c o :
  isSubType fuel a b c = Some o -> resolutions_only c (final_state o).
Proof. apply isSubType_frame. Qed.

(** The check of [Number] against the unresolved [T] of a call changes
    a generic resolution and nothing else. *)
Lemma isSubType_changes_resolutions_only_witness :
  match isSubType 5 (Some 0) (Some 13) Samples.in_call_of_identity with
  | Some o => resolutions_only Samples.in_call_of_identity (final_state o)
  | None => False
  end.
Proof.
  destruct (isSubType 5 (Some 0) (Some 13) Samples.in_call_of_identity) as [ o | ] eqn:E.
  - exact (@isSubType_changes_resolutions_only 5 (Some 0) (Some 13)
             Samples.in_call_of_identity o E).
  - vm_compute in E. discriminate.
Defined.

(** *** A generic application on the right *)

Lemma generic_right_plain_left f c (A G tr : Ptr) o gr ot :
  nth_error (heap c) A = Some o -> passed_over o = true -> A <> G ->
  nth_error (heap c) G = Some (GenericType (Some tr) gr) ->
  nth_error (heap c) tr = Some ot ->
  Some G <> neverType c -> Some G <> anyType c ->
  isSubType (S f) (Some A) (Some G) c =
  match ot with
  | InterfaceType _ _ _ formals =>
      if negb (List.length gr =? List.length formals)%nat
      then (error "Type argument count mismatch in generic" ;; ret false) c
      else (bind_generics 0 formals gr ;; isSubType f (Some A) (Some tr)) c
  | _ => Some (Returns false c)
  end.
Proof.
  intros HA Hp Hne HG Ht Hn Ha.
  eapply eq_trans;
    [ apply (@isSubType_plain_left f A G c o (GenericType (Some tr) gr)); assumption | ].
  unfold isSubType_super.
  run_with (apply deref_at; exact Ht).
  destruct ot; try (destruct (negb _); reflexivity);
    destruct o; try discriminate; reflexivity.
Qed.

Lemma generic_right_generic_left f c (L G tr : Ptr) tl gl gr ot :
  nth_error (heap c) L = Some (GenericType tl gl) -> L <> G ->
  nth_error (heap c) G = Some (GenericType (Some tr) gr) ->
  nth_error (heap c) tr = Some ot ->
  obj_type ot <> OBJ_PARSE_INTERFACE_TYPE ->
  Some G <> neverType c -> Some G <> anyType c ->
  isSubType (S f) (Some L) (Some G) c =
  (first <- isSubType f tl (Some G) ;;
   if first then ret true
   else if negb (List.length gl =? List.length gr)%nat then ret false
   else
     ok <- all_subtypes (isSubType f) gl gr ;;
     if ok then isSubType f tl (Some tr) else ret false) c.
Proof.
  intros HL Hne HG Ht Hk Hn Ha.
  cbn [isSubType]. unfold isSubType_body.
  run_with reflexivity.
  rewrite (ptr_eqb_neq (p:=Some L) (q:=Some G)) by congruence.
  rewrite (ptr_eqb_neq (p:=Some G) (q:=neverType c)) by congruence.
  rewrite (ptr_eqb_neq (p:=Some G) (q:=anyType c)) by congruence.
  run_with (apply deref_at; exact HL).
  unfold bind at 1 2 4.
  destruct (isSubType f tl (Some G) c) as [ [ [ | ] c1 | c1 ] | ] eqn:E; try reflexivity.
  cbv beta iota delta [ret].
  destruct (isSubType_same_types _ _ _ _ E) as (Hh & _ & _).
  run_with (apply deref_at; rewrite Hh; exact HG).
  unfold isSubType_super.
  run_with (apply deref_at; rewrite Hh; exact Ht).
  destruct ot; try reflexivity. now contradiction Hk.
Qed.

(** A generic application [G] of a target [tr] on the right ([G] not
    [Never], not [Any]).
    - The target is an interface.  A left side that is neither a
      generic application nor a generic parameter is refused, with the
      diagnostic "Type argument count mismatch in generic", when [G]
      does not give as many arguments as the interface has parameters.
      Otherwise the arguments are recorded as the resolutions of those
      parameters in the innermost environment and the left side is
      checked against the interface itself.
    - The target is not an interface.  Such a left side is refused.
      A generic application [L] on the left is accepted exactly when
      its own target is accepted against [G], or that is refused, [L]
      and [G] have as many arguments, each argument of [L] is a subtype
      of the argument of [G] at its position (arguments are covariant)
      and the target of [L] is a subtype of the target of [G]. *)
Theorem generic_application_on_the_right c (G tr : Ptr) gr ot :
  nth_error (heap c) G = Some (GenericType (Some tr) gr) ->
  nth_error (heap c) tr = Some ot ->
  Some G <> neverType c -> Some G <> anyType c ->
  (forall sI fI mI formals (A : Ptr) o,
      ot = InterfaceType sI fI mI formals ->
      nth_error (heap c) A = Some o -> passed_over o = true -> A <> G ->
      (List.length gr <> List.length formals ->
       forall fuel,
         isSubType (S fuel) (Some A) (Some G) c =
         Some (Returns false
                 (errorAt_state (syntheticToken "Fake error location")
                                "Type argument count mismatch in generic" c))) /\
      (List.length gr = List.length formals ->
       forall c',
         accepts (Some A) (Some G) c c' <->
         exists c1, bind_generics 0 formals gr c = Some (Returns tt c1) /\
                    accepts (Some A) (Some tr) c1 c')) /\
  (obj_type ot <> OBJ_PARSE_INTERFACE_TYPE ->
   (forall fuel (A : Ptr) o,
       nth_error (heap c) A = Some o -> passed_over o = true -> A <> G ->
       isSubType (S fuel) (Some A) (Some G) c = Some (Returns false c)) /\
   (forall (L : Ptr) tl gl c',
       nth_error (heap c) L = Some (GenericType tl gl) -> L <> G ->
       (accepts (Some L) (Some G) c c' <->
        accepts tl (Some G) c c' \/
        exists c1 c2,
          rejects tl (Some G) c c1 /\
          pairwise accepts gl gr c1 c2 /\
          accepts tl (Some tr) c2 c'))).
Proof.
  intros HG Ht Hn Ha. split.
  - intros sI fI mI formals A o -> HA Hp Hne. split.
    + intros Hlen fuel.
      rewrite (@generic_right_plain_left fuel c A G tr o gr _ HA Hp Hne HG Ht Hn Ha).
      replace (List.length gr =? List.length formals)%nat with false
        by (symmetry; now apply Nat.eqb_neq).
      reflexivity.
    + intros Hlen c'. split.
      * intros ([ | f ] & H); [ discriminate | ].
        rewrite (@generic_right_plain_left f c A G tr o gr _ HA Hp Hne HG Ht Hn Ha) in H.
        rewrite Hlen, Nat.eqb_refl in H. cbv beta iota delta [negb] in H.
        apply bind_inv in H.
        destruct H as [ ([] & c1 & E & H) | (c1 & _ & H) ]; [ | discriminate ].
        exists c1. split; [ exact E | now exists f ].
      * intros (c1 & E & f & H). exists (S f).
        rewrite (@generic_right_plain_left f c A G tr o gr _ HA Hp Hne HG Ht Hn Ha).
        rewrite Hlen, Nat.eqb_refl. cbv beta iota delta [negb].
        now run_with (exact E).
  - intro Hk. split.
    + intros fuel A o HA Hp Hne.
      rewrite (@generic_right_plain_left fuel c A G tr o gr _ HA Hp Hne HG Ht Hn Ha).
      destruct ot; try reflexivity. now contradiction Hk.
    + intros L tl gl c' HL Hne. split.
      * intros ([ | f ] & H); [ discriminate | ].
        rewrite (@generic_right_generic_left f c L G tr tl gl gr ot HL Hne HG Ht Hk Hn Ha) in H.
        apply bind_inv in H.
        destruct H as [ ([ | ] & c1 & E & H) | (c1 & _ & H) ]; [ | | discriminate ].
        -- injection H as <-. left. now exists f.
        -- right.
           destruct (List.length gl =? List.length gr)%nat eqn:Hlen; [ | discriminate ].
           apply Nat.eqb_eq in Hlen. cbv beta iota delta [negb] in H.
           apply bind_inv in H.
           destruct H as [ ([ | ] & c2 & E2 & H) | (c2 & _ & H) ]; try discriminate.
           exists c1, c2. split; [ now exists f | ].
           split; [ | now exists f ].
           apply pairwise_accepts_of with f.
           now apply all_subtypes_pairwise.
      * intros [ (f & H) | (c1 & c2 & (f1 & H1) & Hpair & (f3 & H3)) ].
        -- exists (S f).
           rewrite (@generic_right_generic_left f c L G tr tl gl gr ot HL Hne HG Ht Hk Hn Ha).
           now run_with (exact H).
        -- destruct (pairwise_common_fuel Hpair) as (f2 & H2).
           pose (f := Nat.max f1 (Nat.max f2 f3)).
           exists (S f).
           rewrite (@generic_right_generic_left f c L G tr tl gl gr ot HL Hne HG Ht Hk Hn Ha).
           run_with (eapply isSubType_le; [ | exact H1 ]; unfold f; lia).
           rewrite (pairwise_length Hpair), Nat.eqb_refl. cbv beta iota delta [negb].
           run_with (apply all_subtypes_pairwise;
                     [ exact (pairwise_length Hpair) | apply H2; unfold f; lia ]).
           eapply isSubType_le; [ | exact H3 ]. unfold f. lia.
Qed.

(** [List<Number>] is below [List<Any>]: [List] itself is not, the
    arguments are one each, [Number] is below [Any] and [List] is
    [List].  [Number] is not below [List<Any>]. *)
Lemma generic_application_on_the_right_witness :
  let c := Samples.with_lists in
  nth_error (heap c) 13 = Some (GenericType (Some 7) [T_OBJ (Some 0)]) /\
  nth_error (heap c) 14 = Some (GenericType (Some 7) [T_OBJ (Some 6)]) /\
  accepts (Some 13) (Some 14) c c /\
  isSubType 1 (Some 0) (Some 14) c = Some (Returns false c).
Proof.
  intro c.
  assert (H13 : nth_error (heap Samples.with_lists) 13 =
                Some (GenericType (Some 7) [T_OBJ (Some 0)])) by (vm_compute; reflexivity).
  assert (H14 : nth_error (heap Samples.with_lists) 14 =
                Some (GenericType (Some 7) [T_OBJ (Some 6)])) by (vm_compute; reflexivity).
  assert (H7 : nth_error (heap Samples.with_lists) 7 =
               Some (SimpleType None [] [("init", T_OBJ (Some 8))] []))
    by (vm_compute; reflexivity).
  assert (H0 : nth_error (heap Samples.with_lists) 0 = Some (SimpleType None [] [] []))
    by (vm_compute; reflexivity).
  assert (Hn : Some 14 <> neverType Samples.with_lists) by (vm_compute; discriminate).
  assert (Ha : Some 14 <> anyType Samples.with_lists) by (vm_compute; discriminate).
  assert (Hk : obj_type (SimpleType None [] [("init", T_OBJ (Some 8))] []) <>
               OBJ_PARSE_INTERFACE_TYPE) by discriminate.
  assert (H1314 : 13 <> 14) by discriminate.
  assert (H014 : 0 <> 14) by discriminate.
  destruct (@generic_application_on_the_right Samples.with_lists 14 7 [T_OBJ (Some 6)]
              _ H14 H7 Hn Ha) as (_ & Hclass).
  destruct (Hclass Hk) as (Hplain & Hgeneric).
  split; [ exact H13 | ]. split; [ exact H14 | ]. split.
  - apply (Hgeneric 13 (Some 7) [T_OBJ (Some 0)] Samples.with_lists H13 H1314).
    right. exists Samples.with_lists, Samples.with_lists.
    split; [ exists 2; vm_compute; reflexivity | ].
    split; [ | exists 1; vm_compute; reflexivity ].
    apply pairwise_cons with (c1 := Samples.with_lists);
      [ exists 1; vm_compute; reflexivity | constructor ].
  - exact (Hplain 0 0 (SimpleType None [] [] []) H0 eq_refl H014).
Defined.

End SubtypeLaws.

(** ** The checker: its panic flag and its scopes *)

Module CheckerLaws.
Import Types.
Import TypesFacts.

(** *** The panic flag of the checker *)

Lemma setter_panicking (f : Checker -> Checker) :
  (forall c, panicMode (f c) = panicMode c) -> Preserves panicking (modify f).
Proof. intros H. apply Preserves_modify. intros s Hs. unfold panicking. now rewrite H. Qed.

Lemma errorAt_panicking token message : Preserves panicking (errorAt token message).
Proof.
  apply Preserves_modify. intros s Hs. unfold errorAt_state.
  unfold panicking in *. now rewrite Hs.
Qed.

Lemma error_panicking message : Preserves panicking (error message).
Proof. apply errorAt_panicking. Qed.

Lemma update_scope_panicking depth f : Preserves panicking (update_scope depth f).
Proof.
  unfold update_scope. keeps. apply setter_panicking. now destruct c.
Qed.

Lemma isSubType_panicking fuel a b : Preserves panicking (isSubType fuel a b).
Proof.
  apply isSubType_keeps.
  - intros. apply update_scope_panicking.
  - apply error_panicking.
Qed.

Lemma ALLOCATE_OBJ_panicking o : Preserves panicking (ALLOCATE_OBJ o).
Proof. unfold ALLOCATE_OBJ. keeps. apply setter_panicking. now destruct c. Qed.

Lemma store_panicking p o : Preserves panicking (store p o).
Proof.
  unfold store. destruct p; [ | apply Preserves_fault ].
  apply setter_panicking. now destruct c.
Qed.

Lemma deref_panicking p : Preserves panicking (deref p).
Proof. unfold deref. keeps. Qed.

Lemma run_parser_panicking A (m : Parser.M A) : Preserves panicking (run_parser m).
Proof.
  intros s Hs. unfold run_parser.
  destruct (m (parser s)) as [ [ a p | p ] | ]; cbn; auto; destruct s; exact Hs.
Qed.

Lemma initTypeEnvironment_panicking t : Preserves panicking (initTypeEnvironment t).
Proof. apply setter_panicking. now destruct c. Qed.

Lemma leave_environment_panicking : Preserves panicking leave_environment.
Proof. unfold leave_environment. keeps. apply setter_panicking. now destruct c. Qed.

Lemma set_currentEnv_panicking e : Preserves panicking (modify (set_currentEnv e)).
Proof. apply setter_panicking. now destruct c. Qed.
Lemma set_currentClassType_panicking t : Preserves panicking (modify (set_currentClassType t)).
Proof. apply setter_panicking. now destruct c. Qed.
Lemma set_currentAssignmentType_panicking t :
  Preserves panicking (modify (set_currentAssignmentType t)).
Proof. apply setter_panicking. now destruct c. Qed.
Lemma set_currentFuncType_panicking t : Preserves panicking (modify (set_currentFuncType t)).
Proof. apply setter_panicking. now destruct c. Qed.
Lemma set_modules_panicking m b : Preserves panicking (modify (set_modules m b)).
Proof. apply setter_panicking. now destruct c. Qed.

Create HintDb panicking.
#[export] Hint Resolve errorAt_panicking error_panicking update_scope_panicking
  isSubType_panicking ALLOCATE_OBJ_panicking store_panicking deref_panicking
  run_parser_panicking initTypeEnvironment_panicking leave_environment_panicking
  set_currentEnv_panicking set_currentClassType_panicking
  set_currentAssignmentType_panicking set_currentFuncType_panicking
  set_modules_panicking : panicking.

Ltac panics :=
  cbv zeta;
  repeat
    match goal with
    | |- Preserves _ (bind _ _) => apply Preserves_bind; [ | intro ]
    | |- Preserves _ (ret _) => apply Preserves_ret
    | |- Preserves _ fault => apply Preserves_fault
    | |- Preserves _ out_of_fuel => apply Preserves_out_of_fuel
    | |- Preserves _ get_state => apply Preserves_get_state
    | |- Preserves _ (if ?b then _ else _) => destruct b
    | |- Preserves _ (match ?x with _ => _ end) => destruct x
    | |- Preserves _ _ => solve [auto with panicking]
    end.

Lemma functor_write_argument_panicking t v : Preserves panicking (functor_write_argument t v).
Proof. unfold functor_write_argument. panics. Qed.
Lemma functor_set_arguments_panicking t v : Preserves panicking (functor_set_arguments t v).
Proof. unfold functor_set_arguments. panics. Qed.
Lemma functor_set_returnType_panicking t v : Preserves panicking (functor_set_returnType t v).
Proof. unfold functor_set_returnType. panics. Qed.
Lemma functor_set_genericArgs_panicking t v : Preserves panicking (functor_set_genericArgs t v).
Proof. unfold functor_set_genericArgs. panics. Qed.
Lemma functor_write_genericArg_panicking t v : Preserves panicking (functor_write_genericArg t v).
Proof. unfold functor_write_genericArg. panics. Qed.
Lemma functor_arguments_panicking t : Preserves panicking (functor_arguments t).
Proof. unfold functor_arguments. panics. Qed.
Lemma functor_returnType_panicking t : Preserves panicking (functor_returnType t).
Proof. unfold functor_returnType. panics. Qed.
#[export] Hint Resolve functor_write_argument_panicking functor_set_arguments_panicking
  functor_set_returnType_panicking functor_set_genericArgs_panicking
  functor_write_genericArg_panicking functor_arguments_panicking
  functor_returnType_panicking : panicking.

Lemma default_returnType_panicking t : Preserves panicking (default_returnType t).
Proof. unfold default_returnType. panics. Qed.
Lemma set_member_panicking b t n v : Preserves panicking (set_member b t n v).
Proof. unfold set_member. panics. Qed.
Lemma set_genericArgs_panicking t g : Preserves panicking (set_genericArgs t g).
Proof. unfold set_genericArgs. panics. Qed.
Lemma inherit_panicking t s : Preserves panicking (inherit t s).
Proof. unfold inherit. panics. Qed.
Lemma member_of_panicking r n : Preserves panicking (member_of r n).
Proof. unfold member_of. panics. Qed.
Lemma getTypeOf_panicking v : Preserves panicking (getTypeOf v).
Proof. unfold getTypeOf. panics. Qed.
Lemma height_panicking : Preserves panicking height.
Proof. unfold height. panics. Qed.
Lemma depth_of_panicking h : Preserves panicking (depth_of h).
Proof. unfold depth_of. panics. Qed.
Lemma scope_at_height_panicking h : Preserves panicking (scope_at_height h).
Proof. unfold scope_at_height. panics. Qed.
Lemma defineLocal_panicking d n t : Preserves panicking (defineLocal d n t).
Proof. apply update_scope_panicking. Qed.
Lemma defineTypeDef_panicking d n t : Preserves panicking (defineTypeDef d n t).
Proof. apply update_scope_panicking. Qed.
#[export] Hint Resolve default_returnType_panicking set_member_panicking
  set_genericArgs_panicking inherit_panicking member_of_panicking getTypeOf_panicking
  height_panicking depth_of_panicking scope_at_height_panicking
  defineLocal_panicking defineTypeDef_panicking : panicking.

Lemma defineLocalAndTypeDef_panicking n t : Preserves panicking (defineLocalAndTypeDef n t).
Proof. unfold defineLocalAndTypeDef. panics. Qed.
#[export] Hint Resolve defineLocalAndTypeDef_panicking : panicking.
Lemma initGlobalEnvironment_panicking : Preserves panicking initGlobalEnvironment.
Proof. unfold initGlobalEnvironment. panics. Qed.
Lemma getVariableType_panicking n : Preserves panicking (getVariableType n).
Proof. unfold getVariableType. panics. Qed.
Lemma getTypeDef_panicking n : Preserves panicking (getTypeDef n).
Proof. unfold getTypeDef. panics. Qed.
Lemma name_of_panicking n : Preserves panicking (name_of n).
Proof. unfold name_of. panics. Qed.
Lemma seed_resolutions_panicking g : Preserves panicking (seed_resolutions g).
Proof. induction g; cbn [seed_resolutions]; panics. Qed.
#[export] Hint Resolve initGlobalEnvironment_panicking getVariableType_panicking
  getTypeDef_panicking name_of_panicking seed_resolutions_panicking : panicking.

Section Evaluate_panicking.
Variable fuel : nat.
Variable evaluateNode_ : option Node -> M (option Ptr).
Hypothesis evaluateNode_panicking_ : forall node, Preserves panicking (evaluateNode_ node).
Hint Resolve evaluateNode_panicking_ : panicking.

Lemma evaluateTypes_panicking statements :
  Preserves panicking (evaluateTypes evaluateNode_ statements).
Proof. induction statements; cbn [evaluateTypes]; panics. Qed.
Hint Resolve evaluateTypes_panicking : panicking.

Lemma evaluateBlock_panicking statements :
  Preserves panicking (evaluateBlock evaluateNode_ statements).
Proof. unfold evaluateBlock. panics. Qed.

Lemma evaluateExprTypes_panicking exprs :
  Preserves panicking (evaluateExprTypes evaluateNode_ exprs).
Proof. unfold evaluateExprTypes. panics. Qed.
Hint Resolve evaluateBlock_panicking evaluateExprTypes_panicking : panicking.

Lemma parseFile_panicking path :
  Preserves panicking (parseFile fuel evaluateNode_ path).
Proof. unfold parseFile. panics. Qed.

Lemma generic_definitions_panicking h generics : forall genericArgs,
  Preserves panicking (generic_definitions evaluateNode_ h generics genericArgs).
Proof. induction generics; intro; cbn [generic_definitions]; panics. Qed.

Lemma function_parameters_panicking type params :
  Preserves panicking (function_parameters evaluateNode_ type params).
Proof. induction params; cbn [function_parameters]; panics. Qed.

Lemma lambda_parameters_panicking type params : forall typeNodes,
  Preserves panicking (lambda_parameters evaluateNode_ type params typeNodes).
Proof. induction params; intro; cbn [lambda_parameters]; panics. Qed.

Lemma signature_parameters_panicking type params :
  Preserves panicking (signature_parameters evaluateNode_ type params).
Proof. induction params; cbn [signature_parameters]; panics. Qed.

Lemma call_arguments_panicking callee paren arguments : forall i,
  Preserves panicking (call_arguments fuel evaluateNode_ callee paren i arguments).
Proof. induction arguments; intro; cbn [call_arguments]; panics. Qed.

Lemma evaluate_all_panicking nodes : forall acc,
  Preserves panicking (evaluate_all evaluateNode_ nodes acc).
Proof. induction nodes; intro; cbn [evaluate_all]; panics. Qed.

Lemma list_items_subtypes_panicking bracket itemType items :
  Preserves panicking (list_items_subtypes fuel evaluateNode_ bracket itemType items).
Proof. induction items; cbn [list_items_subtypes]; panics. Qed.

Lemma map_items_subtypes_panicking brace keyType valueType keys : forall values,
  Preserves panicking
    (map_items_subtypes fuel evaluateNode_ brace keyType valueType keys values).
Proof. induction keys; intro; cbn [map_items_subtypes]; panics. Qed.

Hint Resolve parseFile_panicking generic_definitions_panicking
  function_parameters_panicking lambda_parameters_panicking
  signature_parameters_panicking call_arguments_panicking evaluate_all_panicking
  list_items_subtypes_panicking map_items_subtypes_panicking : panicking.

Lemma class_member_panicking classType classFunctionType stmt :
  Preserves panicking (class_member fuel evaluateNode_ classType classFunctionType stmt).
Proof. unfold class_member. panics. Qed.
Hint Resolve class_member_panicking : panicking.

Lemma class_body_panicking classType classFunctionType body :
  Preserves panicking (class_body fuel evaluateNode_ classType classFunctionType body).
Proof. induction body; cbn [class_body]; panics. Qed.

Lemma interface_member_panicking interfaceType stmt :
  Preserves panicking (interface_member evaluateNode_ interfaceType stmt).
Proof. unfold interface_member. panics. Qed.
Hint Resolve interface_member_panicking : panicking.

Lemma interface_body_panicking interfaceType body :
  Preserves panicking (interface_body evaluateNode_ interfaceType body).
Proof. induction body; cbn [interface_body]; panics. Qed.
Hint Resolve class_body_panicking interface_body_panicking : panicking.

Lemma evaluateNode_body_panicking node :
  Preserves panicking (evaluateNode_body fuel evaluateNode_ node).
Proof.
  unfold evaluateNode_body.
  destruct node as [ node | ]; [ | apply Preserves_ret ].
  destruct node; panics.
  - clear. induction generics as [ | g rest IH ]; [ apply Preserves_ret | ].
    destruct g as [ g | ]; [ | apply Preserves_fault ].
    destruct g; try apply Preserves_fault.
    panics.
  - induction arguments as [ | typeNode rest IH ]; [ apply Preserves_ret | ].
    panics.
Qed.
End Evaluate_panicking.

Lemma evaluateNode_panicking fuel : forall node,
  Preserves panicking (evaluateNode fuel node).
Proof.
  induction fuel as [ | fuel IH ]; intro node; cbn [evaluateNode].
  - apply Preserves_out_of_fuel.
  - now apply evaluateNode_body_panicking.
Qed.

(** The checker never leaves panic mode.  If [evaluateNode] or
    [evaluateTree] starts with the panic flag set, every run that ends
    ends with the flag set: nothing in [types.c] clears it, so after its
    first diagnostic the checker reports no other. *)
Theorem checker_panic_is_never_cleared fuel :
  (forall node c o,
      panicMode c = true -> evaluateNode fuel node c = Some o ->
      panicMode (final_state o) = true) /\
  (forall statements c o,
      panicMode c = true -> evaluateTree fuel statements c = Some o ->
      panicMode (final_state o) = true).
Proof.
  split.
  - intros node c o Hc H.
    pose proof (@evaluateNode_panicking fuel node c Hc) as K. now rewrite H in K.
  - intros statements c o Hc H.
    assert (P : Preserves panicking (evaluateTree fuel statements)).
    { unfold evaluateTree, evaluateTree_body. panics;
        try (apply evaluateTypes_panicking; apply evaluateNode_panicking);
        try (apply setter_panicking; intro s; now destruct s). }
    pose proof (P c Hc) as K. now rewrite H in K.
Qed.



(** After the diagnostic "Type mismatch", the use of a variable that
    is bound nowhere ends with the checker still in panic mode. *)
Lemma checker_panic_is_never_cleared_witness :
  let c := Samples.after_a_diagnostic in
  panicMode c = true /\
  exists o, evaluateNode 3 (Samples.variable_ "nowhere") c = Some o /\
            panicMode (final_state o) = true.
Proof.
  intro c.
  assert (Hc : panicMode Samples.after_a_diagnostic = true) by (vm_compute; reflexivity).
  split; [ exact Hc | ].
  assert (E : evaluateNode 3 (Samples.variable_ "nowhere") Samples.after_a_diagnostic =
              Some (Returns None Samples.after_a_diagnostic)) by (vm_compute; reflexivity).
  exists (Returns None Samples.after_a_diagnostic). split; [ exact E | ].
  destruct (checker_panic_is_never_cleared 3) as (Hnode & _).
  exact (Hnode (Samples.variable_ "nowhere") Samples.after_a_diagnostic _ Hc E).
Defined.

(** *** Names *)

Lemma tableGet_set table k v : tableGet (tableSet table k v) k = Some v.
Proof.
  induction table as [ | [ k' v' ] rest IH ]; cbn.
  - now rewrite String.eqb_refl.
  - destruct (String.eqb k' k) eqn:E; cbn; rewrite E; auto.
Qed.


Lemma set_currentEnv_same c : set_currentEnv (currentEnv c) c = c.
Proof. now destruct c. Qed.




(** *** Imports *)

Ltac returned_step H :=
  match type of H with
  | bind _ _ _ = Some _ =>
      let a := fresh "a" in let s := fresh "s" in let H1 := fresh "Hrun" in
      apply bind_inv in H;
      destruct H as [ (a & s & H1 & H) | (s & H1 & H) ]; [ cbv beta in H | discriminate H ]
  end.

Lemma parseFile_registers fuel evaluateNode_ path c t c' :
  parseFile fuel evaluateNode_ path c = Some (Returns t c') ->
  exists cached, tableGet (modules c') path = Some cached /\ AS_OBJ cached = t.
Proof.
  intro H. unfold parseFile in H.
  returned_step H. unfold get_state in Hrun. injection Hrun as <- <-.
  destruct (tableGet (modules c) path) as [ cached | ] eqn:Hc.
  - unfold ret in H. injection H as <- <-. eauto.
  - cbv zeta in H. repeat returned_step H.
    destruct (find (fun f => String.eqb (fst f) path) (files c)) as [ [ name text ] | ];
      [ | discriminate ].
    returned_step H.
    match type of H with
    | match ?b with _ => _ end _ = _ => destruct b as [ statements | ]; [ | discriminate ]
    end.
    repeat returned_step H.
    unfold ret in H. injection H as <- <-.
    repeat match goal with
           | E : get_state _ = Some (Returns _ _) |- _ =>
               unfold get_state in E; injection E as <- <-
           | E : modify _ _ = Some (Returns _ _) |- _ =>
               unfold modify in E; injection E as _ <-
           end.
    match goal with |- context [tableSet _ path ?v] => exists v end.
    split; [ | reflexivity ].
    match goal with
    | |- tableGet (modules (set_currentEnv ?e (set_modules ?m ?b ?s))) _ = _ =>
        change (modules (set_currentEnv e (set_modules m b s))) with m
    end.
    apply tableGet_set.
Qed.

(** What [parseFile] returned for a path is what it returns for that
    path from then on, as long as the table of modules keeps the entry:
    the module is taken from the table, nothing is read, parsed or
    checked again (whatever the file has become) and the checker is left
    as it is. *)
Theorem parseFile_caches fuel evaluateNode_ path c t c' :
  parseFile fuel evaluateNode_ path c = Some (Returns t c') ->
  forall fuel' evaluateNode_' c'',
    tableGet (modules c'') path = tableGet (modules c') path ->
    parseFile fuel' evaluateNode_' path c'' = Some (Returns t c'').
Proof.
  intros H fuel' evaluateNode_' c'' Hm.
  destruct (parseFile_registers _ _ _ _ H) as (cached & Hcached & <-).
  unfold parseFile. cbv beta iota delta [bind get_state].
  rewrite Hm, Hcached. reflexivity.
Qed.

(** The file [classes], imported once, is not read again. *)
Lemma parseFile_caches_witness :
  match parseFile 30 (evaluateNode 30) "classes" Samples.importer with
  | Some (Returns t c') =>
      parseFile 0 (evaluateNode 0) "classes" c' = Some (Returns t c')
  | _ => False
  end.
Proof.
  destruct (parseFile 30 (evaluateNode 30) "classes" Samples.importer)
    as [ [ t c' | c' ] | ] eqn:E.
  - exact (@parseFile_caches 30 (evaluateNode 30) "classes" Samples.importer t c' E
             0 (evaluateNode 0) c' eq_refl).
  - vm_compute in E. discriminate.
  - vm_compute in E. discriminate.
Defined.

(** *** Calls *)




End CheckerLaws.

(** ** The pump loses no frame *)

Module PumpLaws.
Import Async.
Import AsyncFacts.


Lemma popValueArray_Forall {A} (P : A -> Prop) (l : list A) : forall i,
  Forall P l -> Forall P (popValueArray l i).
Proof.
  induction l as [ | y l IH ]; intros i H; simpl; [ constructor | ].
  inversion H; subst. destruct i; [ assumption | constructor; auto ].
Qed.

















(** *** A yield loses no frame *)









End PumpLaws.
